(** * assign: assigning values of any source to Go values

    A shallow embedding of the package [assign] (assign.go, source.go,
    option.go, error.go) together with the part of Go's [reflect] package
    the engine calls.

    Go memory is a flat store of scalar cells addressed by [Z] (the
    [uintptr] of the program); a [reflect.Value] is a typed view of a
    place.  The recursive engine [assign] is a fuel-indexed function in a
    state monad over the memory and the cycle metadata, whose outcomes are
    a nil error, an error value, a panic in flight, or exhausted fuel (the
    model of a recursion that does not return). *)

From stdpp Require Import base numbers option list strings gmap.

Local Open Scope Z_scope.

(** ** Panics *)

(** The payload of a panic, an [interface{}]: [panic(nil)] or a value. *)
Inductive payload :=
| PNil
| PMsg (msg : string).

(** A call into [reflect] or into a [Source] returns or panics. *)
Inductive res (A : Type) :=
| Ok (a : A)
| Panic (p : payload).
Arguments Ok {A} a.
Arguments Panic {A} p.

Definition rbind {A B} (r : res A) (k : A → res B) : res B :=
  match r with
  | Ok a => k a
  | Panic p => Panic p
  end.

Declare Scope res_scope.
Delimit Scope res_scope with res.
Notation "x <- r ;; k" := (rbind r (λ x, k))
  (at level 100, r at next level, right associativity) : res_scope.

Definition memFault {A} : res A :=
  Panic (PMsg "runtime error: invalid memory address or nil pointer dereference").

(** ** The reflect package *)

Module reflect.

(** reflect.Kind *)
Inductive Kind :=
| Invalid | Bool
| Int | Int8 | Int16 | Int32 | Int64
| Uint | Uint8 | Uint16 | Uint32 | Uint64 | Uintptr
| Float32 | Float64 | Complex64 | Complex128
| Array | Chan | Func | Interface | Map | Ptr | Slice | String | Struct
| UnsafePointer.

#[global] Instance Kind_eq_dec : EqDecision Kind.
Proof. solve_decision. Defined.

(** reflect.StructTag in its conventional form, a sequence of key:"value"
    pairs.  [Get] returns the value of the first pair with the key and the
    empty string when there is none. *)
Definition StructTag := list (string * string).

Fixpoint StructTag_Get (tag : StructTag) (key : string) : string :=
  match tag with
  | [] => EmptyString
  | (k, v) :: rest => if decide (k = key) then v else StructTag_Get rest key
  end.

(** reflect.Type.  Type definitions that refer to themselves do so through
    [TNamed], looked up in the type table of the runtime; a named type
    stands only behind a pointer, slice, map or channel constructor. *)
Inductive rtype :=
| TBasic (k : Kind)
| TPtr (e : rtype)
| TStruct (fs : fields)
| TMap (k e : rtype)
| TSlice (e : rtype)
| TArray (n : nat) (e : rtype)
| TInterface
| TChan (e : rtype)
| TFunc
| TNamed (name : string)
with fields :=
| FNil
| FCons (name : string) (tag : StructTag) (t : rtype) (rest : fields).

(** reflect.StructField *)
Record StructField := mkField {
  Name : string;
  Tag : StructTag;
  Type_ : rtype
}.

Fixpoint fieldList (fs : fields) : list StructField :=
  match fs with
  | FNil => []
  | FCons n tg t rest => mkField n tg t :: fieldList rest
  end.

(** A field is exported when its name starts with an upper-case letter. *)
Definition IsExported (name : string) : bool :=
  match name with
  | EmptyString => false
  | String.String c _ =>
      let n := Ascii.nat_of_ascii c in (65 <=? n)%nat && (n <=? 90)%nat
  end.

Fixpoint rtype_beq (s t : rtype) {struct s} : bool :=
  match s, t with
  | TBasic k, TBasic k' => bool_decide (k = k')
  | TPtr e, TPtr e' => rtype_beq e e'
  | TStruct fs, TStruct fs' => fields_beq fs fs'
  | TMap k e, TMap k' e' => rtype_beq k k' && rtype_beq e e'
  | TSlice e, TSlice e' => rtype_beq e e'
  | TArray n e, TArray n' e' => bool_decide (n = n') && rtype_beq e e'
  | TInterface, TInterface => true
  | TChan e, TChan e' => rtype_beq e e'
  | TFunc, TFunc => true
  | TNamed n, TNamed n' => bool_decide (n = n')
  | _, _ => false
  end
with fields_beq (fs gs : fields) {struct fs} : bool :=
  match fs, gs with
  | FNil, FNil => true
  | FCons n tg t r, FCons n' tg' t' r' =>
      bool_decide (n = n') && bool_decide (tg = tg')
      && rtype_beq t t' && fields_beq r r'
  | _, _ => false
  end.

(** Memory cells: one per scalar.  Integers of every width are [CInt],
    floats keep their IEEE bits uninterpreted, pointers, maps, channels and
    functions are an address (0 is nil), a slice is its header, and an
    interface holds the dynamic type and a copy of the value. *)
#[warnings="-register-all"] Inductive cell :=
| CBool (b : bool)
| CInt (z : Z)
| CFloat (bits : Z)
| CComplex (re im : Z)
| CStr (s : string)
| CPtr (a : Z)
| CSlice (data len cap : Z)
| CNilIface
| CIface (t : rtype) (v : list cell).

Fixpoint cell_beq (c d : cell) {struct c} : bool :=
  match c, d with
  | CBool b, CBool b' => bool_decide (b = b')
  | CInt z, CInt z' => z =? z'
  | CFloat z, CFloat z' => z =? z'
  | CComplex r i, CComplex r' i' => (r =? r') && (i =? i')
  | CStr s, CStr s' => bool_decide (s = s')
  | CPtr a, CPtr a' => a =? a'
  | CSlice a l c, CSlice a' l' c' => (a =? a') && (l =? l') && (c =? c')
  | CNilIface, CNilIface => true
  | CIface t v, CIface t' v' =>
      rtype_beq t t'
      && (fix go (l l' : list cell) : bool :=
            match l, l' with
            | [], [] => true
            | x :: r, x' :: r' => cell_beq x x' && go r r'
            | _, _ => false
            end) v v'
  | _, _ => false
  end.

Fixpoint cells_beq (l l' : list cell) : bool :=
  match l, l' with
  | [] , [] => true
  | x :: r, x' :: r' => cell_beq x x' && cells_beq r r'
  | _, _ => false
  end.

(** The zero test of [Value.IsZero], cell by cell: false, 0, bits 0, the
    empty string, nil. *)
Definition cellIsZero (c : cell) : bool :=
  match c with
  | CBool b => negb b
  | CInt z => z =? 0
  | CFloat z => z =? 0
  | CComplex r i => (r =? 0) && (i =? 0)
  | CStr s => bool_decide (s = EmptyString)
  | CPtr a => a =? 0
  | CSlice a _ _ => a =? 0
  | CNilIface => true
  | CIface _ _ => false
  end.

(** The Go heap: scalar cells, map objects (their entries in iteration
    order), and the next free address. *)
Record Mem := mkMem {
  cells : gmap Z cell;
  maps : gmap Z (list (list cell * list cell));
  brk : Z
}.

Definition load (m : Mem) (a n : Z) : option (list cell) :=
  mapM (λ i, cells m !! (a + i)) (seqZ 0 n).

Fixpoint storeCells (g : gmap Z cell) (a : Z) (cs : list cell) : gmap Z cell :=
  match cs with
  | [] => g
  | c :: rest => storeCells (<[a := c]> g) (a + 1) rest
  end.

Definition store (m : Mem) (a : Z) (cs : list cell) : Mem :=
  mkMem (storeCells (cells m) a cs) (maps m) (brk m).

(** A reflect.Value: the zero Value, or a type, the flags [flagAddr] and
    [flagRO], and where the value is: in memory or held by the Value. *)
Inductive place :=
| At (a : Z)
| Imm (cs : list cell).

Inductive Value :=
| ZeroValue
| Val (t : rtype) (flagAddr flagRO : bool) (p : place).

(** An [interface{}] holding Go data, as [Value.Interface] returns it and
    [reflect.ValueOf] takes it. *)
Inductive boxed :=
| BoxNil
| Box (t : rtype) (cs : list cell).

(** What the runtime provides besides memory: the table of named types and
    the conversion rules of the language. *)
Class Runtime := {
  tenv : string → rtype;
  rtype_ConvertibleTo : rtype → rtype → bool;
  convertCells : Mem → rtype → rtype → list cell → list cell
}.

Section WithRuntime.
Context `{RT : Runtime}.

Definition resolve (t : rtype) : rtype :=
  match t with
  | TNamed n => tenv n
  | _ => t
  end.

Definition rtype_Kind (t : rtype) : Kind :=
  match resolve t with
  | TBasic k => k
  | TPtr _ => Ptr
  | TStruct _ => Struct
  | TMap _ _ => Map
  | TSlice _ => Slice
  | TArray _ _ => Array
  | TInterface => Interface
  | TChan _ => Chan
  | TFunc => Func
  | TNamed _ => Invalid
  end.

Fixpoint sizeof (t : rtype) : Z :=
  match t with
  | TStruct fs => sizeofFields fs
  | TArray n e => Z.of_nat n * sizeof e
  | TNamed _ => 0
  | _ => 1
  end
with sizeofFields (fs : fields) : Z :=
  match fs with
  | FNil => 0
  | FCons _ _ t rest => sizeof t + sizeofFields rest
  end.

Definition zeroCell (k : Kind) : cell :=
  match k with
  | Bool => CBool false
  | Float32 | Float64 => CFloat 0
  | Complex64 | Complex128 => CComplex 0 0
  | String => CStr EmptyString
  | UnsafePointer => CPtr 0
  | _ => CInt 0
  end.

Fixpoint zero (t : rtype) : list cell :=
  match t with
  | TBasic k => [zeroCell k]
  | TPtr _ | TMap _ _ | TChan _ | TFunc => [CPtr 0]
  | TSlice _ => [CSlice 0 0 0]
  | TInterface => [CNilIface]
  | TStruct fs => zeroFields fs
  | TArray n e => concat (replicate n (zero e))
  | TNamed _ => []
  end
with zeroFields (fs : fields) : list cell :=
  match fs with
  | FNil => []
  | FCons _ _ t rest => zero t ++ zeroFields rest
  end.

Definition Value_IsValid (v : Value) : bool :=
  match v with
  | ZeroValue => false
  | Val _ _ _ _ => true
  end.

Definition Value_Kind (v : Value) : Kind :=
  match v with
  | ZeroValue => Invalid
  | Val t _ _ _ => rtype_Kind t
  end.

(** Kind.String *)
Definition Kind_String (k : Kind) : string :=
  match k with
  | Invalid => "invalid" | Bool => "bool"
  | Int => "int" | Int8 => "int8" | Int16 => "int16" | Int32 => "int32"
  | Int64 => "int64"
  | Uint => "uint" | Uint8 => "uint8" | Uint16 => "uint16"
  | Uint32 => "uint32" | Uint64 => "uint64" | Uintptr => "uintptr"
  | Float32 => "float32" | Float64 => "float64"
  | Complex64 => "complex64" | Complex128 => "complex128"
  | Array => "array" | Chan => "chan" | Func => "func"
  | Interface => "interface" | Map => "map" | Ptr => "ptr"
  | Slice => "slice" | String => "string" | Struct => "struct"
  | UnsafePointer => "unsafe.Pointer"
  end.

(** The panic of a method called on a Value of the wrong kind, a
    [*reflect.ValueError], by its message. *)
Definition valueError {A} (method : string) (v : Value) : res A :=
  Panic (PMsg ("reflect: call of reflect.Value." +:+ method +:+ " on " +:+
               match Value_Kind v with
               | Invalid => "zero"
               | k => Kind_String k
               end +:+ " Value")).

(** The cells a Value denotes. *)
Definition Value_cells (m : Mem) (v : Value) : res (list cell) :=
  match v with
  | ZeroValue => valueError "cells" v
  | Val _ _ _ (Imm cs) => Ok cs
  | Val t _ _ (At a) =>
      match load m a (sizeof t) with
      | Some cs => Ok cs
      | None => memFault
      end
  end.

(** The part of a place [off] cells in, [n] cells long. *)
Definition subPlace (p : place) (off n : Z) : place :=
  match p with
  | At a => At (a + off)
  | Imm cs => Imm (take (Z.to_nat n) (drop (Z.to_nat off) cs))
  end.

Definition Value_Type (v : Value) : res rtype :=
  match v with
  | ZeroValue => valueError "Type" v
  | Val t _ _ _ => Ok t
  end.

Definition Value_CanSet (v : Value) : bool :=
  match v with
  | ZeroValue => false
  | Val _ flagAddr flagRO _ => flagAddr && negb flagRO
  end.

Definition Value_IsNil (m : Mem) (v : Value) : res bool :=
  match Value_Kind v with
  | Ptr | Map | Chan | Func | UnsafePointer =>
      cs <- Value_cells m v ;;
      match cs with
      | [CPtr a] => Ok (a =? 0)
      | _ => memFault
      end
  | Slice =>
      cs <- Value_cells m v ;;
      match cs with
      | [CSlice d _ _] => Ok (d =? 0)
      | _ => memFault
      end
  | Interface =>
      cs <- Value_cells m v ;;
      match cs with
      | [CNilIface] => Ok true
      | [CIface _ _] => Ok false
      | _ => memFault
      end
  | _ => valueError "IsNil" v
  end%res.

Definition Value_IsZero (m : Mem) (v : Value) : res bool :=
  match v with
  | ZeroValue => valueError "IsZero" v
  | _ => cs <- Value_cells m v ;; Ok (forallb cellIsZero cs)
  end%res.

(** Elem of a pointer is the addressable pointee, of an interface the
    value it holds; both are the zero Value for nil, and both pass
    [flagRO] on. *)
Definition Value_Elem (m : Mem) (v : Value) : res Value :=
  match v with
  | Val t _ ro _ =>
      match resolve t with
      | TPtr e =>
          cs <- Value_cells m v ;;
          match cs with
          | [CPtr a] =>
              if a =? 0 then Ok ZeroValue else Ok (Val (resolve e) true ro (At a))
          | _ => memFault
          end
      | TInterface =>
          cs <- Value_cells m v ;;
          match cs with
          | [CNilIface] => Ok ZeroValue
          | [CIface dt dcs] => Ok (Val dt false ro (Imm dcs))
          | _ => memFault
          end
      | _ => valueError "Elem" v
      end
  | ZeroValue => valueError "Elem" v
  end%res.

(** Type.Elem and Type.Key *)
Definition rtype_Elem (t : rtype) : res rtype :=
  match resolve t with
  | TPtr e | TSlice e | TArray _ e | TChan e | TMap _ e => Ok e
  | _ => Panic (PMsg "reflect: Elem of invalid type")
  end.

Definition rtype_Key (t : rtype) : res rtype :=
  match resolve t with
  | TMap k _ => Ok k
  | _ => Panic (PMsg "reflect: Key of non-map type")
  end.

(** Type.Field(i) *)
Definition rtype_Field (t : rtype) (i : Z) : res StructField :=
  match resolve t with
  | TStruct fs =>
      if 0 <=? i then
        match fieldList fs !! Z.to_nat i with
        | Some f => Ok f
        | None => Panic (PMsg "reflect: Field index out of bounds")
        end
      else Panic (PMsg "reflect: Field index out of bounds")
  | _ => Panic (PMsg "reflect: Field of non-struct type")
  end.

Definition fieldOffset (fl : list StructField) (i : nat) : Z :=
  foldr (λ f acc, sizeof (Type_ f) + acc) 0 (take i fl).

Definition Value_NumField (v : Value) : res Z :=
  match v with
  | Val t _ _ _ =>
      match resolve t with
      | TStruct fs => Ok (Z.of_nat (length (fieldList fs)))
      | _ => valueError "NumField" v
      end
  | ZeroValue => valueError "NumField" v
  end.

(** Field(i): the place of the i-th field; a field that is not exported
    makes the Value read-only. *)
Definition Value_Field (v : Value) (i : Z) : res Value :=
  match v with
  | Val t addr ro p =>
      match resolve t with
      | TStruct fs =>
          if 0 <=? i then
            match fieldList fs !! Z.to_nat i with
            | Some f =>
                Ok (Val (Type_ f) addr (ro || negb (IsExported (Name f)))
                      (subPlace p (fieldOffset (fieldList fs) (Z.to_nat i))
                         (sizeof (Type_ f))))
            | None => Panic (PMsg "reflect: Field index out of range")
            end
          else Panic (PMsg "reflect: Field index out of range")
      | _ => valueError "Field" v
      end
  | ZeroValue => valueError "Field" v
  end.

Fixpoint fieldIndex (fl : list StructField) (name : string) : option nat :=
  match fl with
  | [] => None
  | f :: rest =>
      if decide (Name f = name) then Some 0%nat
      else S <$> fieldIndex rest name
  end.

(** FieldByName: the field of that name, or the zero Value. *)
Definition Value_FieldByName (v : Value) (name : string) : res Value :=
  match v with
  | Val t _ _ _ =>
      match resolve t with
      | TStruct fs =>
          match fieldIndex (fieldList fs) name with
          | Some i => Value_Field v (Z.of_nat i)
          | None => Ok ZeroValue
          end
      | _ => valueError "FieldByName" v
      end
  | ZeroValue => valueError "FieldByName" v
  end.

(** Len of an array, slice, map or string.  Channels are unbuffered. *)
Definition Value_Len (m : Mem) (v : Value) : res Z :=
  match v with
  | Val t _ _ _ =>
      match resolve t with
      | TArray n _ => Ok (Z.of_nat n)
      | TSlice _ =>
          cs <- Value_cells m v ;;
          match cs with
          | [CSlice _ len _] => Ok len
          | _ => memFault
          end
      | TMap _ _ =>
          cs <- Value_cells m v ;;
          match cs with
          | [CPtr a] =>
              if a =? 0 then Ok 0
              else match maps m !! a with
                   | Some es => Ok (Z.of_nat (length es))
                   | None => memFault
                   end
          | _ => memFault
          end
      | TBasic String =>
          cs <- Value_cells m v ;;
          match cs with
          | [CStr s] => Ok (Z.of_nat (String.length s))
          | _ => memFault
          end
      | TChan _ => Ok 0
      | _ => valueError "Len" v
      end
  | ZeroValue => valueError "Len" v
  end%res.

(** Index(i): the i-th element of an array (addressable when the array is),
    of a slice (always addressable), or the i-th byte of a string. *)
Definition Value_Index (m : Mem) (v : Value) (i : Z) : res Value :=
  match v with
  | Val t addr ro p =>
      match resolve t with
      | TArray n e =>
          if (0 <=? i) && (i <? Z.of_nat n)
          then Ok (Val e addr ro (subPlace p (i * sizeof e) (sizeof e)))
          else Panic (PMsg "reflect: array index out of range")
      | TSlice e =>
          cs <- Value_cells m v ;;
          match cs with
          | [CSlice d len _] =>
              if (0 <=? i) && (i <? len)
              then Ok (Val (resolve e) true ro (At (d + i * sizeof (resolve e))))
              else Panic (PMsg "reflect: slice index out of range")
          | _ => memFault
          end
      | TBasic String =>
          cs <- Value_cells m v ;;
          match cs with
          | [CStr s] =>
              if 0 <=? i then
                match String.get (Z.to_nat i) s with
                | Some c =>
                    Ok (Val (TBasic Uint8) false ro
                          (Imm [CInt (Z.of_nat (Ascii.nat_of_ascii c))]))
                | None => Panic (PMsg "reflect: string index out of range")
                end
              else Panic (PMsg "reflect: string index out of range")
          | _ => memFault
          end
      | _ => valueError "Index" v
      end
  | ZeroValue => valueError "Index" v
  end%res.

(** Pointer: the address held by a pointer, map, channel, function or
    unsafe pointer, or the address of the first element of a slice. *)
Definition Value_Pointer (m : Mem) (v : Value) : res Z :=
  match Value_Kind v with
  | Ptr | Map | Chan | Func | UnsafePointer =>
      cs <- Value_cells m v ;;
      match cs with
      | [CPtr a] => Ok a
      | _ => memFault
      end
  | Slice =>
      cs <- Value_cells m v ;;
      match cs with
      | [CSlice d _ _] => Ok d
      | _ => memFault
      end
  | _ => valueError "Pointer" v
  end%res.

(** MapRange: the entries of the map, each key and value a copy. *)
Definition Value_MapRange (m : Mem) (v : Value) : res (list (Value * Value)) :=
  match v with
  | Val t _ ro _ =>
      match resolve t with
      | TMap kt et =>
          cs <- Value_cells m v ;;
          match cs with
          | [CPtr a] =>
              if a =? 0 then Ok []
              else match maps m !! a with
                   | Some es =>
                       Ok ((λ kv, (Val (resolve kt) false ro (Imm kv.1),
                                   Val (resolve et) false ro (Imm kv.2))) <$> es)
                   | None => memFault
                   end
          | _ => memFault
          end
      | _ => valueError "MapRange" v
      end
  | ZeroValue => valueError "MapRange" v
  end%res.

(** Interface: the value as an [interface{}]; refused for a Value reached
    through a field that is not exported. *)
Definition Value_Interface (m : Mem) (v : Value) : res boxed :=
  match v with
  | ZeroValue => valueError "Interface" v
  | Val t _ ro _ =>
      if ro then
        Panic (PMsg "reflect.Value.Interface: cannot return value obtained from unexported field or method")
      else
        cs <- Value_cells m v ;;
        match resolve t, cs with
        | TInterface, [CNilIface] => Ok BoxNil
        | TInterface, [CIface dt dcs] => Ok (Box dt dcs)
        | TInterface, _ => memFault
        | _, _ => Ok (Box t cs)
        end
  end%res.

Definition ValueOf (b : boxed) : Value :=
  match b with
  | BoxNil => ZeroValue
  | Box t cs => Val t false false (Imm cs)
  end.

(** What a value of type [tx] becomes when assigned to a slot of type [t]:
    itself for an identical type, boxed for an interface slot. *)
Definition assignTo (tx : rtype) (cs : list cell) (t : rtype) : res (list cell) :=
  if rtype_beq tx t then Ok cs
  else match t with
       | TInterface => Ok [CIface tx cs]
       | _ => Panic (PMsg "reflect.Set: value is not assignable to type")
       end.

(** Set: needs a settable Value and an [x] that was not reached through a
    field that is not exported. *)
Definition Value_Set (m : Mem) (v x : Value) : res Mem :=
  match v with
  | Val t true false (At a) =>
      match x with
      | ZeroValue => valueError "Set" x
      | Val tx _ true _ =>
          Panic (PMsg "reflect: reflect.Value.Set using value obtained using unexported field")
      | Val tx _ false _ =>
          cs <- Value_cells m x ;;
          cs' <- assignTo tx cs t ;;
          Ok (store m a cs')
      end
  | _ => Panic (PMsg "reflect: reflect.Value.Set using unaddressable value")
  end%res.

(** Convert, guarded as in reflect by convertibility. *)
Definition Value_Convert (m : Mem) (v : Value) (t : rtype) : res Value :=
  match v with
  | ZeroValue => valueError "Convert" v
  | Val tv _ ro _ =>
      if rtype_ConvertibleTo tv t then
        cs <- Value_cells m v ;;
        Ok (Val t false ro (Imm (convertCells m tv t cs)))
      else Panic (PMsg "reflect.Value.Convert: value cannot be converted to type")
  end%res.

(** Allocation: fresh zeroed cells at [brk]. *)
Definition alloc (m : Mem) (cs : list cell) : Mem * Z :=
  (mkMem (storeCells (cells m) (brk m) cs) (maps m)
     (brk m + Z.max 1 (Z.of_nat (length cs))),
   brk m).

(** reflect.New(t): a pointer to a new zero value of type [t]. *)
Definition New (m : Mem) (t : rtype) : Mem * Value :=
  let '(m', a) := alloc m (zero (resolve t)) in
  (m', Val (TPtr t) false false (Imm [CPtr a])).

Definition MakeMapWithSize (m : Mem) (t : rtype) (n : Z) : res (Mem * Value) :=
  match resolve t with
  | TMap _ _ =>
      if n <? 0 then Panic (PMsg "reflect.MakeMapWithSize of negative size")
      else Ok (mkMem (cells m) (<[brk m := []]> (maps m)) (brk m + 1),
               Val t false false (Imm [CPtr (brk m)]))
  | _ => Panic (PMsg "reflect.MakeMapWithSize of non-map type")
  end.

Definition MakeSlice (m : Mem) (t : rtype) (len cap : Z) : res (Mem * Value) :=
  match resolve t with
  | TSlice e =>
      if len <? 0 then Panic (PMsg "reflect.MakeSlice: negative len")
      else if cap <? 0 then Panic (PMsg "reflect.MakeSlice: negative cap")
      else if cap <? len then Panic (PMsg "reflect.MakeSlice: len > cap")
      else
        let '(m', a) := alloc m (concat (replicate (Z.to_nat cap) (zero (resolve e)))) in
        Ok (m', Val t false false (Imm [CSlice a len cap]))
  | _ => Panic (PMsg "reflect.MakeSlice of non-slice type")
  end.

Fixpoint putEntry (es : list (list cell * list cell)) (k v : list cell)
  : list (list cell * list cell) :=
  match es with
  | [] => [(k, v)]
  | (k', v') :: rest =>
      if cells_beq k' k then (k', v) :: rest else (k', v') :: putEntry rest k v
  end.

Definition dropEntry (es : list (list cell * list cell)) (k : list cell)
  : list (list cell * list cell) :=
  filter (λ kv, cells_beq kv.1 k = false) es.

(** SetMapIndex(key, elem): sets the entry, deletes it when [elem] is the
    zero Value, panics on a nil map. *)
Definition Value_SetMapIndex (m : Mem) (v key elem : Value) : res Mem :=
  match v with
  | Val t _ ro _ =>
      match resolve t with
      | TMap kt et =>
          if ro then Panic (PMsg "reflect: reflect.Value.SetMapIndex using value obtained using unexported field")
          else match key with
          | ZeroValue => valueError "SetMapIndex" key
          | Val tk _ true _ =>
              Panic (PMsg "reflect: reflect.Value.SetMapIndex using value obtained using unexported field")
          | Val tk _ false _ =>
              kcs <- Value_cells m key ;;
              kcs' <- assignTo tk kcs (resolve kt) ;;
              mcs <- Value_cells m v ;;
              match mcs with
              | [CPtr a] =>
                  match elem with
                  | ZeroValue =>
                      if a =? 0 then Ok m
                      else Ok (mkMem (cells m)
                                 (<[a := dropEntry (default [] (maps m !! a)) kcs']> (maps m))
                                 (brk m))
                  | Val te _ true _ =>
                      Panic (PMsg "reflect: reflect.Value.SetMapIndex using value obtained using unexported field")
                  | Val te _ false _ =>
                      ecs <- Value_cells m elem ;;
                      ecs' <- assignTo te ecs (resolve et) ;;
                      if a =? 0 then Panic (PMsg "assignment to entry in nil map")
                      else Ok (mkMem (cells m)
                                 (<[a := putEntry (default [] (maps m !! a)) kcs' ecs']> (maps m))
                                 (brk m))
                  end
              | _ => memFault
              end
          end
      | _ => valueError "SetMapIndex" v
      end
  | ZeroValue => valueError "SetMapIndex" v
  end%res.

End WithRuntime.
End reflect.

Import reflect.

(** ** error.go *)

(** The three error types.  [ErrorType]'s [Dst] is nil ([None]) when the Go
    value passed is a nil pointer. *)
Inductive error :=
| ErrorType (Dst : option rtype) (Src : Kind)
| ErrorCycle (Dst : rtype) (Src : Kind)
| ErrorPanic (Rec : payload).

Definition newError (dst : option rtype) (src : Kind) : error :=
  ErrorType dst src.

(** ** The monad of the engine *)

(** metadata is used to track cyclical paths. *)
Record metadata := mkMetadata {
  visited : gset Z;
  cur : Z
}.

(** What a run works on: the Go heap, and the [*metadata] handed down the
    recursion ([None] is the nil pointer). *)
Record state := mkState {
  mem : Mem;
  md : option metadata
}.

(** How a call ends: it returns a nil error, returns an error, panics, or
    (fuel exhausted) has not returned. *)
Inductive outcome (A : Type) :=
| Ret (a : A)
| Err (e : error)
| Panicked (p : payload)
| NoReturn.
Arguments Ret {A} a.
Arguments Err {A} e.
Arguments Panicked {A} p.
Arguments NoReturn {A}.

Definition M (A : Type) : Type := state → outcome A * state.

Definition ret {A} (a : A) : M A := λ st, (Ret a, st).

Definition bind {A B} (c : M A) (k : A → M B) : M B :=
  λ st,
    match c st with
    | (Ret a, st') => k a st'
    | (Err e, st') => (Err e, st')
    | (Panicked p, st') => (Panicked p, st')
    | (NoReturn, st') => (NoReturn, st')
    end.

Declare Scope m_scope.
Delimit Scope m_scope with M.
Notation "x <- c ;; k" := (bind c (λ x, k))
  (at level 100, c at next level, right associativity) : m_scope.
Notation "c ;;; k" := (bind c (λ _, k))
  (at level 100, right associativity) : m_scope.

Definition fail {A} (e : error) : M A := λ st, (Err e, st).

Definition noReturn {A} : M A := λ st, (NoReturn, st).

(** A call that reads the heap. *)
Definition call {A} (f : Mem → res A) : M A :=
  λ st,
    match f (mem st) with
    | Ok a => (Ret a, st)
    | Panic p => (Panicked p, st)
    end.

(** A call that writes the heap. *)
Definition update (f : Mem → res Mem) : M unit :=
  λ st,
    match f (mem st) with
    | Ok m' => (Ret tt, mkState m' (md st))
    | Panic p => (Panicked p, st)
    end.

(** A call that allocates and returns what it made. *)
Definition make {A} (f : Mem → res (Mem * A)) : M A :=
  λ st,
    match f (mem st) with
    | Ok (m', a) => (Ret a, mkState m' (md st))
    | Panic p => (Panicked p, st)
    end.

(** Dereferencing [md]: a nil [*metadata] panics. *)
Definition getMd : M metadata :=
  λ st,
    match md st with
    | Some x => (Ret x, st)
    | None => (Panicked (PMsg "runtime error: invalid memory address or nil pointer dereference"), st)
    end.

Definition putMd (x : metadata) : M unit :=
  λ st, (Ret tt, mkState (mem st) (Some x)).

(** A top-level call: it runs on the heap [m], no metadata allocated. *)
Definition run {A} (c : M A) (m : Mem) : outcome A * Mem :=
  let '(r, st) := c (mkState m None) in (r, mem st).

(** [for _, x := range l { if err := f(x); err != nil { return err } }] *)
Fixpoint forEach {A} (l : list A) (f : A → M unit) : M unit :=
  match l with
  | [] => ret tt
  | x :: rest => (f x ;;; forEach rest f)%M
  end.

(** ** source.go *)

(** Source represents any value which can be assigned to a Go value.  Its
    methods read the heap the value lives in and may panic.  [MapRange]
    yields the entries the iterator will produce, in its order. *)
Record Source (S : Type) := mkSource {
  Kind : Mem → S → res reflect.Kind;
  Elem : Mem → S → res S;
  FieldByName : Mem → S → string → res S;
  Len : Mem → S → res Z;
  Index : Mem → S → Z → res S;
  Pointer : Mem → S → res Z;
  MapRange : Mem → S → res (list (S * S));
  Skip : Mem → S → res bool;
  Interface : Mem → S → res boxed
}.
Arguments mkSource {S}.
Arguments Kind {S}.
Arguments Elem {S}.
Arguments FieldByName {S}.
Arguments Len {S}.
Arguments Index {S}.
Arguments Pointer {S}.
Arguments MapRange {S}.
Arguments Skip {S}.
Arguments Interface {S}.

(** An [interface{}] argument holding Go data or a [reflect.Value]. *)
Inductive any :=
| AnyGo (b : boxed)
| AnyValue (v : Value).

(** valueOf provides the reflection value of the given Go value even if
    the Go value is a reflection value. *)
Definition valueOf (i : any) : Value :=
  match i with
  | AnyValue val => val
  | AnyGo b => ValueOf b
  end.

(** goSource satisfies Source for Go values. *)
Definition goSource `{RT : Runtime} : Source Value := {|
  Kind := λ _ v, Ok (Value_Kind v);
  Elem := Value_Elem;
  FieldByName := λ _ v name, Value_FieldByName v name;
  Len := Value_Len;
  Index := Value_Index;
  Pointer := Value_Pointer;
  MapRange := Value_MapRange;
  Skip := λ m v,
    if negb (Value_IsValid v) then Ok true else Value_IsZero m v;
  Interface := Value_Interface
|}.

(** ** assign.go *)

Definition inSet (k : reflect.Kind) (s : list reflect.Kind) : bool :=
  existsb (λ x, bool_decide (x = k)) s.

Arguments inSet : simpl never.

Definition ptrSet : list reflect.Kind :=
  [Ptr; Map; Slice; Chan; Func; UnsafePointer].

Definition elemSet : list reflect.Kind := [Ptr; reflect.Interface].

Definition listSet : list reflect.Kind := [Slice; Array].

(** Assigner assigns values of any source to Go values. *)
Record Assigner (S : Type) := mkAssigner {
  src : S;
  tags : list string;
  cycle : bool
}.
Arguments mkAssigner {S}.
Arguments src {S}.
Arguments tags {S}.
Arguments cycle {S}.

Section Engine.
Context `{RT : Runtime} {S : Type} (ops : Source S).

(** nameOf returns the first name matched by tag key, otherwise the field
    name. *)
Fixpoint nameOfTags (tgs : list string) (sf : StructField) : string :=
  match tgs with
  | [] => Name sf
  | tag :: rest =>
      let name := StructTag_Get (Tag sf) tag in
      if bool_decide (name ≠ EmptyString) then name else nameOfTags rest sf
  end.

Definition nameOf (a : Assigner S) (sf : StructField) : string :=
  nameOfTags (tags a) sf.

(** visit track pointers and checks for cyclical paths. *)
Definition visit (a : Assigner S) (v : S) : M bool :=
  (if negb (cycle a) then ret false
   else
     k <- call (λ m, Kind ops m v) ;;
     if negb (inSet k ptrSet) then
       x <- getMd ;;
       putMd (mkMetadata (visited x) 0) ;;;
       ret false
     else
       ptr <- call (λ m, Pointer ops m v) ;;
       x <- getMd ;;
       if ptr =? cur x then ret false
       else
         putMd (mkMetadata (visited x) ptr) ;;;
         let ok := bool_decide (ptr ∈ visited x) in
         (if negb ok then putMd (mkMetadata ({[ptr]} ∪ visited x) ptr)
          else ret tt) ;;;
         ret ok)%M.

(** assignPointer assigns to a pointer. *)
Definition assignPointer (assign : Value → S → M unit)
  (dp : Value) (sp : S) : M unit :=
  (isNil <- call (λ m, Value_IsNil m dp) ;;
   (if isNil then
      t <- call (λ _, Value_Type dp) ;;
      e <- call (λ _, rtype_Elem t) ;;
      p <- make (λ m, Ok (New m e)) ;;
      update (λ m, Value_Set m dp p)
    else ret tt) ;;;
   de <- call (λ m, Value_Elem m dp) ;;
   assign de sp)%M.

(** assignBasic assigns to a basic value. *)
Definition assignBasic (db : Value) (sb : S) : M unit :=
  (i <- call (λ m, Interface ops m sb) ;;
   let sv := ValueOf i in
   dt <- call (λ _, Value_Type db) ;;
   st <- call (λ _, Value_Type sv) ;;
   if negb (rtype_ConvertibleTo st dt) then
     fail (newError (Some dt) (rtype_Kind st))
   else
     x <- call (λ m, Value_Convert m sv dt) ;;
     update (λ m, Value_Set m db x))%M.

(** assignStruct assigns to a struct. *)
Definition assignStruct (a : Assigner S) (assign : Value → S → M unit)
  (ds : Value) (ss : S) : M unit :=
  (dt <- call (λ _, Value_Type ds) ;;
   sk <- call (λ m, Kind ops m ss) ;;
   if bool_decide (sk ≠ Struct) then fail (newError (Some dt) sk)
   else
     n <- call (λ _, Value_NumField ds) ;;
     forEach (seqZ 0 n) (λ i,
       df <- call (λ _, Value_Field ds i) ;;
       tf <- call (λ _, rtype_Field dt i) ;;
       let dn := nameOf a tf in
       sf <- call (λ m, FieldByName ops m ss dn) ;;
       assign df sf))%M.

(** assignMap assigns to a map. *)
Definition assignMap (assign : Value → S → M unit)
  (dm : Value) (sm : S) : M unit :=
  (dt <- call (λ _, Value_Type dm) ;;
   sk <- call (λ m, Kind ops m sm) ;;
   if bool_decide (sk ≠ Map) then fail (newError (Some dt) sk)
   else
     kt <- call (λ _, rtype_Key dt) ;;
     vt <- call (λ _, rtype_Elem dt) ;;
     isNil <- call (λ m, Value_IsNil m dm) ;;
     (if isNil then
        n <- call (λ m, Len ops m sm) ;;
        mv <- make (λ m, MakeMapWithSize m dt n) ;;
        update (λ m, Value_Set m dm mv)
      else ret tt) ;;;
     mi <- call (λ m, MapRange ops m sm) ;;
     forEach mi (λ kv,
       pk <- make (λ m, Ok (New m kt)) ;;
       dk <- call (λ m, Value_Elem m pk) ;;
       assign dk kv.1 ;;;
       pv <- make (λ m, Ok (New m vt)) ;;
       dv <- call (λ m, Value_Elem m pv) ;;
       assign dv kv.2 ;;;
       update (λ m, Value_SetMapIndex m dm dk dv)))%M.

(** assignList assigns both slices and arrays to each other.  Varying
    lengths are permitted. *)
Definition assignList (assign : Value → S → M unit)
  (dl : Value) (sl : S) : M unit :=
  (n <- call (λ m, Len ops m sl) ;;
   dn <- call (λ m, Value_Len m dl) ;;
   let n := if dn <? n then dn else n in
   forEach (seqZ 0 n) (λ i,
     de <- call (λ m, Value_Index m dl i) ;;
     se <- call (λ m, Index ops m sl i) ;;
     assign de se))%M.

(** assignSlice assigns to a slice. *)
Definition assignSlice (assign : Value → S → M unit)
  (ds : Value) (ss : S) : M unit :=
  (dt <- call (λ _, Value_Type ds) ;;
   sk <- call (λ m, Kind ops m ss) ;;
   if negb (inSet sk listSet) then fail (newError (Some dt) sk)
   else
     isNil <- call (λ m, Value_IsNil m ds) ;;
     (if isNil then
        n <- call (λ m, Len ops m ss) ;;
        sv <- make (λ m, MakeSlice m dt n n) ;;
        update (λ m, Value_Set m ds sv)
      else ret tt) ;;;
     assignList assign ds ss)%M.

(** assignArray assigns to an array. *)
Definition assignArray (assign : Value → S → M unit)
  (da : Value) (sa : S) : M unit :=
  (sk <- call (λ m, Kind ops m sa) ;;
   if negb (inSet sk listSet) then
     dt <- call (λ _, Value_Type da) ;;
     fail (newError (Some dt) sk)
   else assignList assign da sa)%M.

(** One step of assign, its recursive calls going to [assign]. *)
Definition assignStep (a : Assigner S) (assign : Value → S → M unit)
  (dv : Value) (sv : S) : M unit :=
  (skip <- (if negb (Value_CanSet dv) then ret true
            else call (λ m, Skip ops m sv)) ;;
   if skip then ret tt
   else
     cyc <- visit a sv ;;
     if cyc then
       dt <- call (λ _, Value_Type dv) ;;
       sk <- call (λ m, Kind ops m sv) ;;
       fail (ErrorCycle dt sk)
     else
       k <- call (λ m, Kind ops m sv) ;;
       if inSet k elemSet then
         se <- call (λ m, Elem ops m sv) ;;
         assign dv se
       else
         match Value_Kind dv with
         | Ptr => assignPointer assign dv sv
         | Struct => assignStruct a assign dv sv
         | Map => assignMap assign dv sv
         | Slice => assignSlice assign dv sv
         | Array => assignArray assign dv sv
         | _ => assignBasic dv sv
         end)%M.

(** assign recursively assigns to a value.  The fuel bounds the depth of
    the recursion; a recursion deeper than any fuel does not return. *)
Fixpoint assign (fuel : nat) (a : Assigner S) (dv : Value) (sv : S) : M unit :=
  match fuel with
  | O => noReturn
  | Datatypes.S n => assignStep a (assign n a) dv sv
  end.

(** assignRecover recovers unexpected assign panics: the deferred function
    replaces the result by [ErrorPanic] when [recover()] is not nil. *)
Definition assignRecover (fuel : nat) (a : Assigner S) (dv : Value) : M unit :=
  λ st,
    match assign fuel a dv (src a) st with
    | (Panicked rec, st') =>
        match rec with
        | PNil => (Ret tt, st')
        | _ => (Err (ErrorPanic rec), st')
        end
    | r => r
    end.

(** To assigns the Source to the given Go value.  It starts on the heap
    of the caller with [md] declared nil, and leaves the error together
    with the heap.  A panic that is the outcome of [To] reached the
    caller. *)
Definition To (fuel : nat) (a : Assigner S) (dst : any)
  : Mem → outcome unit * Mem :=
  let dv := valueOf dst in
  run
    (if bool_decide (Value_Kind dv ≠ Ptr) then
       dt <- call (λ _, Value_Type dv) ;;
       sk <- call (λ m, Kind ops m (src a)) ;;
       fail (newError (Some dt) sk)
     else
       isNil <- call (λ m, Value_IsNil m dv) ;;
       if isNil then
         sk <- call (λ m, Kind ops m (src a)) ;;
         fail (newError None sk)
       else
         (if cycle a then
            ptr <- call (λ m, Value_Pointer m dv) ;;
            putMd (mkMetadata {[ptr]} 0)
          else ret tt) ;;;
         de <- call (λ m, Value_Elem m dv) ;;
         assignRecover fuel a de)%M.

End Engine.

(** ** The sources of a program *)

(** A program's Source values: the package's own [goSource], and the
    values of the Source implementations [C] the program brings. *)
Inductive source (C : Type) :=
| GoSource (val : Value)
| Custom (c : C).
Arguments GoSource {C} val.
Arguments Custom {C} c.

(** The argument [src interface{}] of From and Of: Go data, a
    [reflect.Value], or a value of a type that implements Source. *)
Inductive srcArg (C : Type) :=
| SrcAny (i : any)
| SrcSource (c : C).
Arguments SrcAny {C} i.
Arguments SrcSource {C} c.

Section Sources.
Context `{RT : Runtime} {C : Type} (custom : Source (source C)).

(** Method dispatch: a [goSource] runs the package's methods, any other
    Source its own. *)
Definition methods : Source (source C) := {|
  Kind := λ m s,
    match s with
    | GoSource v => Kind goSource m v
    | Custom _ => Kind custom m s
    end;
  Elem := λ m s,
    match s with
    | GoSource v => (x <- Elem goSource m v ;; Ok (GoSource x))%res
    | Custom _ => Elem custom m s
    end;
  FieldByName := λ m s name,
    match s with
    | GoSource v => (x <- FieldByName goSource m v name ;; Ok (GoSource x))%res
    | Custom _ => FieldByName custom m s name
    end;
  Len := λ m s,
    match s with
    | GoSource v => Len goSource m v
    | Custom _ => Len custom m s
    end;
  Index := λ m s i,
    match s with
    | GoSource v => (x <- Index goSource m v i ;; Ok (GoSource x))%res
    | Custom _ => Index custom m s i
    end;
  Pointer := λ m s,
    match s with
    | GoSource v => Pointer goSource m v
    | Custom _ => Pointer custom m s
    end;
  MapRange := λ m s,
    match s with
    | GoSource v =>
        (x <- MapRange goSource m v ;;
         Ok ((λ kv, (GoSource kv.1, GoSource kv.2)) <$> x))%res
    | Custom _ => MapRange custom m s
    end;
  Skip := λ m s,
    match s with
    | GoSource v => Skip goSource m v
    | Custom _ => Skip custom m s
    end;
  Interface := λ m s,
    match s with
    | GoSource v => Interface goSource m v
    | Custom _ => Interface custom m s
    end
|}.

(** Of provides a Source from any given value.  Handles Source directly,
    otherwise defaults to goSource which handles reflect.Value as well. *)
Definition Of (i : srcArg C) : source C :=
  match i with
  | SrcSource val => Custom val
  | SrcAny x => GoSource (valueOf x)
  end.

(** ** option.go *)

(** Option follows the option pattern for Assigner. *)
Definition Option := Assigner (source C) → Assigner (source C).

(** WithTags appends tag keys to be used in struct assignment. *)
Definition WithTags (tgs : list string) : Option :=
  λ a, mkAssigner (src a) (tags a ++ tgs) (cycle a).

(** WithoutCycle disables the cyclical path check. *)
Definition WithoutCycle : Option :=
  λ a, mkAssigner (src a) (tags a) false.

(** From creates a new Assigner from the given source and options.  By
    default, the `assign` tag is used and cyclical path checks are
    enabled. *)
Definition From (i : srcArg C) (options : list Option) : Assigner (source C) :=
  foldl (λ a option, option a) (mkAssigner (Of i) ["assign"%string] true) options.

(** ToFrom assigns a Source value to the given Go value with options. *)
Definition ToFrom (fuel : nat) (dst : any) (i : srcArg C)
  (options : list Option) (m : Mem) : outcome unit * Mem :=
  To methods fuel (From i options) dst m.

End Sources.

(** ** A runtime to run the engine on

    The conversions of this runtime are a fragment of Go's: every type
    converts to [interface{}] (boxing), a type converts to itself, and the
    integer types convert to one another with wrap-around.  The theorems
    below hold for every runtime; this one runs the examples. *)

Definition intBits (k : reflect.Kind) : option (bool * Z) :=
  match k with
  | Int | Int64 => Some (true, 64)
  | Int8 => Some (true, 8)
  | Int16 => Some (true, 16)
  | Int32 => Some (true, 32)
  | Uint | Uint64 | Uintptr => Some (false, 64)
  | Uint8 => Some (false, 8)
  | Uint16 => Some (false, 16)
  | Uint32 => Some (false, 32)
  | _ => None
  end.

Definition wrapInt (k : reflect.Kind) (z : Z) : Z :=
  match intBits k with
  | Some (true, w) => (z + 2 ^ (w - 1)) `mod` 2 ^ w - 2 ^ (w - 1)
  | Some (false, w) => z `mod` 2 ^ w
  | None => z
  end.

Definition isIntType (t : rtype) : bool :=
  match t with
  | TBasic k => bool_decide (is_Some (intBits k))
  | _ => false
  end.

(** The type Cycle of assign_test.go: fields that can have cyclical
    paths. *)
Definition tCycle : rtype :=
  TStruct
    (FCons "Struct" [] (TPtr (TNamed "Cycle"))
    (FCons "Map" [] (TMap (TStruct FNil) TInterface)
    (FCons "Slice" [] (TSlice TInterface)
    (FCons "Array" [] (TPtr (TArray 1 TInterface)) FNil)))).

#[global] Instance exampleRuntime : Runtime := {|
  tenv := λ n, if decide (n = "Cycle"%string) then tCycle else TBasic Invalid;
  rtype_ConvertibleTo := λ s t,
    match t with
    | TInterface => true
    | _ => rtype_beq s t || (isIntType s && isIntType t)
    end;
  convertCells := λ _ s t cs,
    match t with
    | TInterface => [CIface s cs]
    | TBasic k =>
        if isIntType s && isIntType t
        then (λ c, match c with CInt z => CInt (wrapInt k z) | _ => c end) <$> cs
        else cs
    | _ => cs
    end
|}.

(** A program without Source implementations of its own. *)
Definition noCustom : Source (source Empty_set) :=
  mkSource (λ _ _, Ok Invalid)
    (λ _ s, Ok s) (λ _ s _, Ok s) (λ _ _, Ok 0) (λ _ s _, Ok s)
    (λ _ _, Ok 0) (λ _ _, Ok []) (λ _ _, Ok true) (λ _ _, Ok BoxNil).

(** [v.Field(i)] and [v.Addr()] of the tests, for Values on which they do
    not panic. *)
Definition fieldOf (v : Value) (i : Z) : Value :=
  match Value_Field v i with
  | Ok x => x
  | Panic _ => ZeroValue
  end.

Definition Addr (v : Value) : Value :=
  match v with
  | Val t true ro (At a) => Val (TPtr t) false ro (Imm [CPtr a])
  | _ => ZeroValue
  end.

(** *** TestAssignErrorCycle

    The heap after [newCycle()] and [&Cycle{}]: the variable [cycle] at
    1..4, its map at 5, the array of its slice at 6, its array at 7, and
    the destination Cycle at 8..11. *)
Definition tMapC : rtype := TMap (TStruct FNil) TInterface.
Definition tSliceC : rtype := TSlice TInterface.
Definition tArrayC : rtype := TArray 1 TInterface.

Definition cycleMem : Mem :=
  mkMem
    (list_to_map
       [(1, CPtr 1); (2, CPtr 5); (3, CSlice 6 1 1); (4, CPtr 7);
        (6, CIface (TPtr tSliceC) [CPtr 3]);
        (7, CIface (TPtr tArrayC) [CPtr 7]);
        (8, CPtr 0); (9, CPtr 0); (10, CSlice 0 0 0); (11, CPtr 0)])
    (list_to_map [(5, [([], [CIface tMapC [CPtr 5]])])])
    12.

(** [reflect.ValueOf(newCycle())] and [reflect.ValueOf(&Cycle{}).Elem()] *)
Definition srcCycle : Value :=
  Val tCycle false false (Imm [CPtr 1; CPtr 5; CSlice 6 1 1; CPtr 7]).

Definition dstCycle : Value := Val tCycle true false (At 8).

(** [ToFrom(df.Addr(), sf, options...)] for field [i] of Cycle. *)
Definition runCycle (fuel : nat) (i : Z) (options : list (Option (C := Empty_set)))
  : outcome unit * Mem :=
  ToFrom noCustom fuel (AnyValue (Addr (fieldOf dstCycle i)))
    (SrcAny (AnyValue (fieldOf srcCycle i))) options cycleMem.

(** *** Small inputs *)

(** The heap of a program that has allocated nothing yet. *)
Definition emptyMem : Mem := mkMem ∅ ∅ 1.

Definition tInt : rtype := TBasic Int.

(** An [int] variable at address 1 holding 5, as a settable Value. *)
Definition intMem : Mem := mkMem {[1 := CInt 5]} ∅ 2.
Definition intSlot : Value := Val tInt true false (At 1).

(** The Go values [0] and [7] of type [int]. *)
Definition goInt (z : Z) : Value := Val tInt false false (Imm [CInt z]).

(** An Assigner with the defaults of From, for a Source built by Of. *)
Definition fromGo (v : Value) : Assigner (source Empty_set) :=
  From (SrcAny (AnyValue v)) [].

(** A pointer to the cell at address [p]. *)
Definition ptrTo (t : rtype) (p : Z) : Value :=
  Val (TPtr t) false false (Imm [CPtr p]).

(** *** Two fields sharing one pointer

    [x := 5; src := Shared{A: &x, B: &x}; dst := Shared{}]: [x] at 1, the
    destination at 2..3. *)
Definition tShared : rtype :=
  TStruct (FCons "A" [] (TPtr tInt) (FCons "B" [] (TPtr tInt) FNil)).

Definition sharedMem : Mem :=
  mkMem (list_to_map [(1, CInt 5); (2, CPtr 0); (3, CPtr 0)]) ∅ 4.

Definition runShared (fuel : nat) : outcome unit * Mem :=
  ToFrom noCustom fuel (AnyGo (Box (TPtr tShared) [CPtr 2]))
    (SrcAny (AnyGo (Box tShared [CPtr 1; CPtr 1]))) [] sharedMem.

(** *** TestAssignErrorPanic

    panicker is a source Source which panics on Pointer: it embeds a
    Source, here the goSource of a Go value, and overrides Pointer. *)
Definition panicker `{RT : Runtime} : Source (source Value) := {|
  Kind := λ m s,
    match s with
    | Custom v => Kind goSource m v
    | GoSource _ => Ok Invalid
    end;
  Elem := λ m s,
    match s with
    | Custom v => (x <- Elem goSource m v ;; Ok (GoSource x))%res
    | GoSource _ => Ok s
    end;
  FieldByName := λ m s name,
    match s with
    | Custom v => (x <- FieldByName goSource m v name ;; Ok (GoSource x))%res
    | GoSource _ => Ok s
    end;
  Len := λ m s,
    match s with
    | Custom v => Len goSource m v
    | GoSource _ => Ok 0
    end;
  Index := λ m s i,
    match s with
    | Custom v => (x <- Index goSource m v i ;; Ok (GoSource x))%res
    | GoSource _ => Ok s
    end;
  Pointer := λ _ _, Panic (PMsg "panicker");
  MapRange := λ m s,
    match s with
    | Custom v =>
        (x <- MapRange goSource m v ;;
         Ok ((λ kv, (GoSource kv.1, GoSource kv.2)) <$> x))%res
    | GoSource _ => Ok []
    end;
  Skip := λ m s,
    match s with
    | Custom v => Skip goSource m v
    | GoSource _ => Ok true
    end;
  Interface := λ m s,
    match s with
    | Custom v => Interface goSource m v
    | GoSource _ => Ok BoxNil
    end
|}.

(** [Small{Field: "1"}] at 1 as the source, [&Small{}] at 2 as the
    destination. *)
Definition tSmall : rtype := TStruct (FCons "Field" [] (TBasic String) FNil).

Definition smallMem : Mem :=
  mkMem (list_to_map [(1, CStr "1"); (2, CStr EmptyString)]) ∅ 3.

Definition runPanicker (fuel : nat) (options : list (Option (C := Value)))
  : outcome unit * Mem :=
  ToFrom panicker fuel (AnyGo (Box (TPtr tSmall) [CPtr 2]))
    (SrcSource (ptrTo tSmall 1)) options smallMem.

(** *** TestAssignWithTags

    The struct Tags with its tags as [reflect.StructTag] parses them: the
    comma in the tag of the first field makes its second key [,json]. *)
Definition tTags : rtype :=
  TStruct
    (FCons "FooGoToBar"
       [("assign", "BarGoToFoo"); (",json", "FooGoToBar")]%string (TBasic String)
    (FCons "BarGoToFoo"
       [("assign", "FooGoToBar"); ("json", "BarGoToFoo")]%string (TBasic String)
    (FCons "BazGoToQux" [("json", "QuxGoToBaz")]%string (TBasic String)
    (FCons "QuxGoToBaz" [("json", "BazGoToQux")]%string (TBasic String)
     FNil)))).

(** [dst := Tags{}] at 1..4. *)
Definition tagsMem : Mem :=
  mkMem (list_to_map [(1, CStr EmptyString); (2, CStr EmptyString); (3, CStr EmptyString); (4, CStr EmptyString)])
    ∅ 5.

Definition runTags (fuel : nat) (options : list (Option (C := Empty_set)))
  : outcome unit * list (option cell) :=
  let '(r, m) :=
    ToFrom noCustom fuel (AnyGo (Box (TPtr tTags) [CPtr 1]))
      (SrcAny (AnyGo (Box tTags [CStr "one"; CStr "two"; CStr "three"; CStr "four"])))
      options tagsMem in
  (r, (λ i, cells m !! i) <$> [1; 2; 3; 4]).

(** *** Slices and arrays of different lengths *)








(** *** Destinations that hold something already *)

(** [dst := prior; ToFrom(&dst, v)] for ints: the final [dst]. *)
Definition runOverInt (prior v : Z) (fuel : nat) : outcome unit * option cell :=
  let '(r, m) :=
    ToFrom noCustom fuel (AnyGo (Box (TPtr tInt) [CPtr 1]))
      (SrcAny (AnyGo (Box tInt [CInt v]))) []
      (mkMem {[1 := CInt prior]} ∅ 2) in
  (r, cells m !! 1).

Definition tMapSI : rtype := TMap (TBasic String) tInt.

(** [dst := map[string]int{prior...}] (the variable at 1, the map at 2),
    [src := map[string]int{"b": 2}] (the map at 3): the final entries of
    [dst]. *)
Definition runOverMap (prior : list (list cell * list cell)) (fuel : nat)
  : outcome unit * option (list (list cell * list cell)) :=
  let '(r, m) :=
    ToFrom noCustom fuel (AnyGo (Box (TPtr tMapSI) [CPtr 1]))
      (SrcAny (AnyGo (Box tMapSI [CPtr 3]))) []
      (mkMem {[1 := CPtr 2]}
         (list_to_map [(2, prior); (3, [([CStr "b"], [CInt 2])])]) 4) in
  (r, maps m !! 2).

(** [dst := []int{prior, prior, prior}] (the slice at 1, its array at
    2..4), [src := [2]int{1, 2}]: the final elements of [dst]. *)
Definition runOverSlice (prior : Z) (fuel : nat)
  : outcome unit * list (option cell) :=
  let '(r, m) :=
    ToFrom noCustom fuel (AnyGo (Box (TPtr (TSlice tInt)) [CPtr 1]))
      (SrcAny (AnyGo (Box (TArray 2 tInt) [CInt 1; CInt 2]))) []
      (mkMem (list_to_map [(1, CSlice 2 3 3); (2, CInt prior);
                           (3, CInt prior); (4, CInt prior)]) ∅ 5) in
  (r, (λ i, cells m !! i) <$> [2; 3; 4]).

(** [var dst bool] at 1; [ToFrom(&dst, v)] for a string [v]. *)
Definition runStringToBool (v : string) (fuel : nat) : outcome unit * Mem :=
  ToFrom noCustom fuel (AnyGo (Box (TPtr (TBasic Bool)) [CPtr 1]))
    (SrcAny (AnyGo (Box (TBasic String) [CStr v]))) []
    (mkMem {[1 := CBool false]} ∅ 2).

(** ** The cycle check as the specification words it

    The kinds with an identity, and what the check answers and records
    from the kind of the source, its identity token and the metadata. *)
Definition hasIdentity (k : reflect.Kind) : bool :=
  match k with
  | Ptr | Map | Slice | Chan | Func | UnsafePointer => true
  | _ => false
  end.

Definition visit_spec (k : reflect.Kind) (token : Z) (x : metadata)
  : bool * metadata :=
  if hasIdentity k then
    if bool_decide (token = cur x) then (false, x)
    else if bool_decide (token ∈ visited x)
         then (true, mkMetadata (visited x) token)
         else (false, mkMetadata ({[token]} ∪ visited x) token)
  else (false, mkMetadata (visited x) 0).

(** ** Notions the properties are stated with *)

(** Whatever [c] returns, [c'] returns too. *)
Definition le {A} (c c' : M A) : Prop :=
  ∀ st r st', c st = (r, st') → r ≠ NoReturn → c' st = (r, st').

(** The visited set of [st] is included in that of [st']. *)
Definition mdGrows (st st' : state) : Prop :=
  ∀ x, md st = Some x → ∃ x', md st' = Some x' ∧ visited x ⊆ visited x'.

(** The outcome is not an ErrorPanic. *)
Definition noErrorPanic {A} (r : outcome A) : Prop :=
  ∀ p, r ≠ Err (ErrorPanic p).

(** [c] only adds to the visited set and makes no ErrorPanic. *)
Definition good {A} (c : M A) : Prop :=
  ∀ st r st', c st = (r, st') → mdGrows st st' ∧ noErrorPanic r.

(** Two runs that do the same from every state. *)
Definition eqM {A} (c c' : M A) : Prop := ∀ st, c st = c' st.

(** The Source whose Pointer method is replaced by [f]. *)
Definition withPointer {S} (ops : Source S) (f : Mem → S → res Z) : Source S :=
  mkSource (Kind ops) (Elem ops) (FieldByName ops) (Len ops) (Index ops) f
    (MapRange ops) (Skip ops) (Interface ops).

(** Whether a step for a destination of this type ends in [assignBasic]:
    the type is not a pointer, struct, map, slice or array. *)
Definition basicKind (k : reflect.Kind) : bool :=
  match k with
  | Ptr | Struct | Map | Slice | Array => false
  | _ => true
  end.

(** The state the cycle check leaves for a source without identity. *)
Definition resetCur {S} (a : Assigner S) (st : state) : state :=
  if cycle a then
    match md st with
    | Some x => mkState (mem st) (Some (mkMetadata (visited x) 0))
    | None => st
    end
  else st.

(** What one iteration does to the state: nothing (the step is skipped),
    or one cell written after the cycle check passed a source without
    identity. *)
Definition stepState {S} (a : Assigner S) (w : option (Z * cell)) (st : state)
  : state :=
  match w with
  | None => st
  | Some (addr, c) => mkState (store (mem st) addr [c]) (md (resetCur a st))
  end.

(** The source [sf] holds a value that converts to the cell [c] of type
    [dt]: it is not skipped, has no identity, is no pointer or interface,
    and its boxed value converts. *)
Definition sourceGives `{RT : Runtime} {S : Type} (ops : Source S)
  (m : Mem) (sf : S) (dt : rtype) (c : cell) : Prop :=
  Skip ops m sf = Ok false
  ∧ ∃ k ty cs,
      Kind ops m sf = Ok k ∧ hasIdentity k = false ∧ inSet k elemSet = false
      ∧ Interface ops m sf = Ok (Box ty cs)
      ∧ rtype_ConvertibleTo ty dt = true
      ∧ convertCells m ty dt cs = [c].

(** What the struct loop writes at field [i]. *)
Definition fieldWrite (fl : list StructField) (base : Z)
  (w : StructField → option cell) (i : Z) : option (Z * cell) :=
  match fl !! Z.to_nat i with
  | Some f => (λ c, (base + i, c)) <$> w f
  | None => None
  end.




(** The type [*Cycle]. *)
Definition tPC : rtype := TPtr (TNamed "Cycle").

(** The variable [cycle] of newCycle is where it was, pointing to itself. *)
Definition cycleVar (m : Mem) : Prop :=
  cells m !! 1 = Some (CPtr 1)
  ∧ ∃ c2 c3 c4, cells m !! 2 = Some c2 ∧ cells m !! 3 = Some c3 ∧ cells m !! 4 = Some c4.

(** A nil pointer allocated at [p], apart from [cycle]. *)
Definition nilSlot (m : Mem) (p : Z) : Prop :=
  cells m !! p = Some (CPtr 0) ∧ 4 < p < brk m.

(** The source [*src] for [src = &cycle]. *)
Definition structSrc : source Empty_set :=
  GoSource (Val tCycle true false (At 1)).

(** The heap after [reflect.New] of a Cycle stored in the pointer at [p]. *)
Definition grown (m : Mem) (p : Z) : Mem :=
  store (alloc m (zero tCycle)).1 p [CPtr (brk m)].

(** ** Notions of the further properties *)

(** A call of one of the two option constructors of option.go. *)
Inductive optionCall :=
| CallWithTags (tgs : list string)
| CallWithoutCycle.

Definition optionOf {C : Type} (c : optionCall) : Option (C := C) :=
  match c with
  | CallWithTags tgs => WithTags tgs
  | CallWithoutCycle => WithoutCycle
  end.

(** The tag keys the calls give, in order, and whether one of them is
    WithoutCycle. *)
Definition keysOf (cs : list optionCall) : list string :=
  concat ((λ c, match c with
                | CallWithTags tgs => tgs
                | CallWithoutCycle => []
                end) <$> cs).

Definition hasWithoutCycle (cs : list optionCall) : bool :=
  existsb (λ c, match c with
                | CallWithoutCycle => true
                | CallWithTags _ => false
                end) cs.

(** [c] leaves the metadata pointer and what it points to as they were,
    and does not end in ErrorCycle. *)
Definition keepsMd {A} (c : M A) : Prop :=
  ∀ st r st', c st = (r, st') →
    md st' = md st ∧ ∀ t k, r ≠ Err (ErrorCycle t k).


(** [struct{ b int }{7}], its only field not exported. *)
Definition tHidden : rtype := TStruct (FCons "b" [] tInt FNil).
Definition hidden : Value := Val tHidden false false (Imm [CInt 7]).

(** What a source [s] gives a destination of the basic type [t], on
    every heap: nothing (it is skipped), or a value that converts to the
    cell [c]. *)
Definition gives `{RT : Runtime} {S : Type} (ops : Source S) (s : S)
  (t : rtype) (w : option cell) : Prop :=
  match w with
  | None => ∀ m', Skip ops m' s = Ok true
  | Some c => ∀ m', sourceGives ops m' s t c
  end.

(** The entries of a map after the entries [ws] were set one after the
    other; a key or value the source skipped is the zero value [zk],
    [zv] of its type. *)
Definition putAll (zk zv : cell) (es : list (list cell * list cell))
  (ws : list (option cell * option cell)) : list (list cell * list cell) :=
  foldl (λ es w, putEntry es [default zk w.1] [default zv w.2]) es ws.

(** [m'] holds what [m] holds in every cell allocated in [m] but [hm],
    and in every map of [m]. *)
Definition apart (m m' : Mem) (hm : Z) : Prop :=
  (∀ z, z < brk m → z ≠ hm → cells m' !! z = cells m !! z)
  ∧ (∀ a', a' < brk m → maps m' !! a' = maps m !! a').

(** [var dst *int] (nil) at 1. *)
Definition nilPtrMem : Mem := mkMem {[1 := CPtr 0]} ∅ 2.

(** [var dst map[string]int] (nil) at 1, [src := map[string]int{"b": 2}]
    (the map at 2). *)
Definition nilMapMem : Mem :=
  mkMem {[1 := CPtr 0]} {[2 := [([CStr "b"], [CInt 2])]]} 3.
Definition srcMapB : Value := Val tMapSI false false (Imm [CPtr 2]).

(** [var x int = 5] at 1 and [var v int = 7] at 2. *)
Definition twoIntMem : Mem :=
  mkMem (list_to_map [(1, CInt 5); (2, CInt 7)]) ∅ 3.

(** * Properties *)

(** ** The monad *)

Lemma bind_Ret {A B} (c : M A) (k : A → M B) st a st' :
  c st = (Ret a, st') → bind c k st = k a st'.
Proof. intros H. unfold bind. by rewrite H. Qed.

Lemma bind_call_Ok {A B} (f : Mem → res A) (k : A → M B) st a :
  f (mem st) = Ok a → bind (call f) k st = k a st.
Proof. intros H. unfold bind, call. by rewrite H. Qed.

Lemma bind_call_Panic {A B} (f : Mem → res A) (k : A → M B) st p :
  f (mem st) = Panic p → bind (call f) k st = (Panicked p, st).
Proof. intros H. unfold bind, call. by rewrite H. Qed.

(** ** More fuel changes no result

    [le c c'] : whatever [c] returns, [c'] returns too. *)

Lemma le_refl {A} (c : M A) : le c c.
Proof. by intros st r st' H _. Qed.

Lemma le_bind {A B} (c c' : M A) (k k' : A → M B) :
  le c c' → (∀ a, le (k a) (k' a)) → le (bind c k) (bind c' k').
Proof.
  intros Hc Hk st r st' H Hr. unfold bind in *.
  destruct (c st) as [o s1] eqn:E.
  destruct o as [a|e|p|].
  - rewrite (Hc _ _ _ E) by done. by apply Hk.
  - rewrite (Hc _ _ _ E) by done. done.
  - rewrite (Hc _ _ _ E) by done. done.
  - by simplify_eq.
Qed.

Lemma le_forEach {A} (l : list A) (f f' : A → M unit) :
  (∀ x, le (f x) (f' x)) → le (forEach l f) (forEach l f').
Proof.
  intros Hf. induction l as [|x l IH]; simpl.
  - apply le_refl.
  - apply le_bind; [apply Hf | intros _; apply IH].
Qed.

Lemma le_noReturn {A} (c : M A) : le noReturn c.
Proof. intros st r st' H Hr. unfold noReturn in H. by simplify_eq. Qed.

Ltac le_step :=
  first
    [ apply le_refl
    | apply le_bind; [| intros ?]
    | apply le_forEach; intros ?
    | match goal with
      | |- le (if ?b then _ else _) (if ?b then _ else _) => destruct b
      | |- le (match ?x with _ => _ end) (match ?x with _ => _ end) => destruct x
      end ].

Section FuelFacts.
Context `{RT : Runtime} {S : Type} (ops : Source S).

Lemma assignStep_le (a : Assigner S) (rec rec' : Value → S → M unit) :
  (∀ dv sv, le (rec dv sv) (rec' dv sv)) →
  ∀ dv sv, le (assignStep ops a rec dv sv) (assignStep ops a rec' dv sv).
Proof.
  intros Hrec dv sv.
  unfold assignStep, assignPointer, assignStruct, assignMap, assignSlice,
    assignArray, assignList.
  repeat first [ apply Hrec | le_step ].
Qed.

Lemma assign_le (n k : nat) (a : Assigner S) (dv : Value) (sv : S) :
  le (assign ops n a dv sv) (assign ops (n + k) a dv sv).
Proof.
  revert dv sv. induction n as [|n IH]; intros dv sv.
  - apply le_noReturn.
  - simpl. by apply assignStep_le.
Qed.

(** A result of [assign] stays the result with any greater fuel. *)
Lemma assign_fuel_mono (n n' : nat) a dv sv st r st' :
  assign ops n a dv sv st = (r, st') → r ≠ NoReturn → (n ≤ n')%nat →
  assign ops n' a dv sv st = (r, st').
Proof.
  intros H Hr Hle. replace n' with (n + (n' - n))%nat by lia.
  by eapply assign_le.
Qed.

Lemma assignRecover_fuel_mono (n n' : nat) a dv st r st' :
  assignRecover ops n a dv st = (r, st') → r ≠ NoReturn → (n ≤ n')%nat →
  assignRecover ops n' a dv st = (r, st').
Proof.
  unfold assignRecover. intros H Hr Hle.
  destruct (assign ops n a dv (src a) st) as [o s1] eqn:E.
  assert (o ≠ NoReturn) as Ho.
  { intros ->. by simplify_eq. }
  by rewrite (assign_fuel_mono _ _ _ _ _ _ _ _ E Ho Hle).
Qed.

Lemma assignRecover_le (n k : nat) a dv :
  le (assignRecover ops n a dv) (assignRecover ops (n + k) a dv).
Proof.
  intros st r st' H Hr. eapply assignRecover_fuel_mono; [done..|lia].
Qed.

Lemma run_le {A} (c c' : M A) m r m' :
  le c c' → run c m = (r, m') → r ≠ NoReturn → run c' m = (r, m').
Proof.
  unfold run. intros Hle H Hr.
  destruct (c (mkState m None)) as [o s1] eqn:E. simplify_eq.
  by rewrite (Hle _ _ _ E Hr).
Qed.

(** A result of [To] stays the result with any greater fuel. *)
Lemma To_fuel_mono (n n' : nat) a dst m r m' :
  To ops n a dst m = (r, m') → r ≠ NoReturn → (n ≤ n')%nat →
  To ops n' a dst m = (r, m').
Proof.
  unfold To. intros H Hr Hle. revert H. intros H.
  eapply run_le; [|exact H|done].
  replace n' with (n + (n' - n))%nat by lia.
  repeat first [ apply assignRecover_le | le_step ].
Qed.

End FuelFacts.

(** ** What every run keeps

    [good c] : [c] only ever adds to the visited set, and does not itself
    produce an [ErrorPanic]. *)

Lemma mdGrows_refl st : mdGrows st st.
Proof. intros x Hx. by exists x. Qed.

Lemma mdGrows_trans st1 st2 st3 :
  mdGrows st1 st2 → mdGrows st2 st3 → mdGrows st1 st3.
Proof.
  intros H12 H23 x Hx.
  destruct (H12 x Hx) as (y & Hy & Hxy).
  destruct (H23 y Hy) as (z & Hz & Hyz).
  exists z. split; [done|set_solver].
Qed.

Lemma mdGrows_mem st m' : mdGrows st (mkState m' (md st)).
Proof. intros x Hx. by exists x. Qed.

Lemma good_ret {A} (a : A) : good (ret a).
Proof.
  intros st r st' H. unfold ret in H. simplify_eq.
  split; [apply mdGrows_refl | done].
Qed.

Lemma good_noReturn {A} : good (@noReturn A).
Proof.
  intros st r st' H. unfold noReturn in H. simplify_eq.
  split; [apply mdGrows_refl | done].
Qed.

Lemma good_fail_ErrorType {A} dst k : good (@fail A (newError dst k)).
Proof.
  intros st r st' H. unfold fail in H. simplify_eq.
  split; [apply mdGrows_refl | done].
Qed.

Lemma good_fail_ErrorCycle {A} dst k : good (@fail A (ErrorCycle dst k)).
Proof.
  intros st r st' H. unfold fail in H. simplify_eq.
  split; [apply mdGrows_refl | done].
Qed.

Lemma good_call {A} (f : Mem → res A) : good (call f).
Proof.
  intros st r st' H. unfold call in H.
  destruct (f (mem st)); simplify_eq; (split; [apply mdGrows_refl | done]).
Qed.

Lemma good_update (f : Mem → res Mem) : good (update f).
Proof.
  intros st r st' H. unfold update in H.
  destruct (f (mem st)); simplify_eq;
    (split; [first [apply mdGrows_refl | apply mdGrows_mem] | done]).
Qed.

Lemma good_make {A} (f : Mem → res (Mem * A)) : good (make f).
Proof.
  intros st r st' H. unfold make in H.
  destruct (f (mem st)) as [[m' a]|]; simplify_eq;
    (split; [first [apply mdGrows_refl | apply mdGrows_mem] | done]).
Qed.

Lemma good_bind {A B} (c : M A) (k : A → M B) :
  good c → (∀ a, good (k a)) → good (bind c k).
Proof.
  intros Hc Hk st r st' H. unfold bind in H.
  destruct (c st) as [o s1] eqn:E.
  destruct (Hc _ _ _ E) as [Hg Hn].
  destruct o as [a|e|p|].
  - destruct (Hk a _ _ _ H) as [Hg' Hn'].
    split; [by eapply mdGrows_trans | done].
  - simplify_eq. split; [done|]. intros p Hp. simplify_eq. by eapply Hn.
  - simplify_eq. by split.
  - simplify_eq. by split.
Qed.

Lemma good_forEach {A} (l : list A) (f : A → M unit) :
  (∀ x, good (f x)) → good (forEach l f).
Proof.
  intros Hf. induction l as [|x l IH]; simpl.
  - apply good_ret.
  - apply good_bind; [apply Hf | intros _; apply IH].
Qed.

Ltac good_step :=
  first
    [ apply good_ret
    | apply good_call
    | apply good_update
    | apply good_make
    | apply good_fail_ErrorType
    | apply good_fail_ErrorCycle
    | apply good_bind; [| intros ?]
    | apply good_forEach; intros ?
    | match goal with
      | |- good (if ?b then _ else _) => destruct b
      | |- good (match ?x with _ => _ end) => destruct x
      end ].

Section RunFacts.
Context `{RT : Runtime} {S : Type} (ops : Source S).

Lemma good_visit (a : Assigner S) (v : S) : good (visit ops a v).
Proof.
  intros st r st' H.
  unfold visit, bind, call, getMd, putMd, ret in H.
  repeat case_match; simplify_eq; simpl in *;
    (split; [| done]);
    intros y Hy; simplify_eq; simpl;
    eexists; (split; [done | set_solver]).
Qed.

Lemma good_assignBasic (dv : Value) (sv : S) : good (assignBasic ops dv sv).
Proof. unfold assignBasic. repeat good_step. Qed.

Lemma good_assignStep (a : Assigner S) (rec : Value → S → M unit) :
  (∀ dv sv, good (rec dv sv)) →
  ∀ dv sv, good (assignStep ops a rec dv sv).
Proof.
  intros Hrec dv sv.
  unfold assignStep, assignPointer, assignStruct, assignMap, assignSlice,
    assignArray, assignList.
  repeat first
    [ apply Hrec | apply good_visit | apply good_assignBasic | good_step ].
Qed.

Lemma good_assign (n : nat) (a : Assigner S) (dv : Value) (sv : S) :
  good (assign ops n a dv sv).
Proof.
  revert dv sv. induction n as [|n IH]; intros dv sv; simpl.
  - apply good_noReturn.
  - by apply good_assignStep.
Qed.

End RunFacts.

(** ** Runs that agree *)

Lemma eqM_refl {A} (c : M A) : eqM c c.
Proof. done. Qed.

Lemma eqM_bind {A B} (c c' : M A) (k k' : A → M B) :
  eqM c c' → (∀ a, eqM (k a) (k' a)) → eqM (bind c k) (bind c' k').
Proof.
  intros Hc Hk st. unfold bind. rewrite (Hc st).
  destruct (c' st) as [[a|e|p|] s1]; [apply Hk|done..].
Qed.

Lemma eqM_forEach {A} (l : list A) (f f' : A → M unit) :
  (∀ x, eqM (f x) (f' x)) → eqM (forEach l f) (forEach l f').
Proof.
  intros Hf. induction l as [|x l IH]; simpl.
  - apply eqM_refl.
  - apply eqM_bind; [apply Hf | intros _; apply IH].
Qed.

Ltac eqM_step :=
  first
    [ apply eqM_refl
    | apply eqM_bind; [| intros ?]
    | apply eqM_forEach; intros ?
    | match goal with
      | |- eqM (if ?b then _ else _) (if ?b then _ else _) => destruct b
      | |- eqM (match ?x with _ => _ end) (match ?x with _ => _ end) => destruct x
      end ].

Lemma visit_off `{RT : Runtime} {S : Type} (ops : Source S)
  (a : Assigner S) (v : S) st :
  cycle a = false → visit ops a v st = (Ret false, st).
Proof. intros H. unfold visit. by rewrite H. Qed.

Section PointerFacts.
Context `{RT : Runtime} {S : Type} (ops : Source S).

Lemma assignStep_Pointer_unused (f : Mem → S → res Z) (a : Assigner S)
  (rec rec' : Value → S → M unit) :
  cycle a = false →
  (∀ dv sv, eqM (rec dv sv) (rec' dv sv)) →
  ∀ dv sv, eqM (assignStep (withPointer ops f) a rec dv sv)
             (assignStep ops a rec' dv sv).
Proof.
  intros Hc Hrec dv sv.
  assert (∀ v, eqM (visit (withPointer ops f) a v) (visit ops a v)) as Hv.
  { intros v st. by rewrite !visit_off. }
  unfold assignStep, assignPointer, assignStruct, assignMap, assignSlice,
    assignArray, assignList.
  repeat first [ apply Hrec | apply Hv | eqM_step ].
Qed.

(** With cycle checks disabled the result of [assign] is the same whatever
    the Pointer method of the Source does: it is not called. *)
Lemma assign_Pointer_unused (f : Mem → S → res Z) (n : nat) (a : Assigner S)
  (dv : Value) (sv : S) :
  cycle a = false →
  eqM (assign (withPointer ops f) n a dv sv) (assign ops n a dv sv).
Proof.
  intros Hc. revert dv sv. induction n as [|n IH]; intros dv sv; simpl.
  - apply eqM_refl.
  - by apply assignStep_Pointer_unused.
Qed.

Lemma assignRecover_Pointer_unused (f : Mem → S → res Z) (n : nat)
  (a : Assigner S) (dv : Value) :
  cycle a = false →
  eqM (assignRecover (withPointer ops f) n a dv) (assignRecover ops n a dv).
Proof.
  intros Hc st. unfold assignRecover.
  by rewrite (assign_Pointer_unused f n a _ _ Hc st).
Qed.

Lemma To_Pointer_unused (f : Mem → S → res Z) (n : nat) (a : Assigner S)
  (dst : any) (m : Mem) :
  cycle a = false →
  To (withPointer ops f) n a dst m = To ops n a dst m.
Proof.
  intros Hc. unfold To, run.
  match goal with
  | |- (let '(_, _) := ?c ?s in _) = (let '(_, _) := ?c' ?s in _) =>
      assert (eqM c c') as Heq
  end.
  { rewrite Hc.
    repeat first [ apply assignRecover_Pointer_unused; exact Hc | eqM_step ]. }
  by rewrite (Heq (mkState m None)).
Qed.

End PointerFacts.

(** ** Single steps *)

Lemma inSet_ptrSet (k : reflect.Kind) : inSet k ptrSet = hasIdentity k.
Proof. by destruct k. Qed.

Section Steps.
Context `{RT : Runtime} {S : Type} (ops : Source S).

Lemma assign_skip (n : nat) (a : Assigner S) (dv : Value) (sv : S) st :
  Value_CanSet dv = false ∨ Skip ops (mem st) sv = Ok true →
  assign ops (Datatypes.S n) a dv sv st = (Ret tt, st).
Proof.
  intros H. simpl. unfold assignStep.
  destruct (Value_CanSet dv) eqn:E; simpl.
  - destruct H as [?|H]; [done|]. by rewrite (bind_call_Ok _ _ _ _ H).
  - done.
Qed.

(** A step that is not skipped starts with the cycle check; when the
    check answers true the step fails with ErrorCycle. *)
Lemma assign_visit_true (n : nat) (a : Assigner S) (dv : Value) (sv : S)
  st st' t k :
  Value_CanSet dv = true →
  Skip ops (mem st) sv = Ok false →
  visit ops a sv st = (Ret true, st') →
  Value_Type dv = Ok t →
  Kind ops (mem st') sv = Ok k →
  assign ops (Datatypes.S n) a dv sv st = (Err (ErrorCycle t k), st').
Proof.
  intros Hset Hskip Hv Ht Hk. simpl. unfold assignStep.
  rewrite Hset. simpl.
  rewrite (bind_call_Ok _ _ _ _ Hskip).
  rewrite (bind_Ret _ _ _ _ _ Hv).
  rewrite (bind_call_Ok _ _ st' t) by done.
  by rewrite (bind_call_Ok _ _ _ _ Hk).
Qed.

Lemma visit_eq_spec (a : Assigner S) (v : S) st x k token :
  cycle a = true →
  md st = Some x →
  Kind ops (mem st) v = Ok k →
  (hasIdentity k = true → Pointer ops (mem st) v = Ok token) →
  visit ops a v st =
    (Ret (visit_spec k token x).1, mkState (mem st) (Some (visit_spec k token x).2)).
Proof.
  intros Hc Hmd Hk Hp. unfold visit, visit_spec. rewrite Hc. simpl.
  rewrite (bind_call_Ok _ _ _ _ Hk). cbv beta. rewrite inSet_ptrSet.
  destruct (hasIdentity k) eqn:Hid; simpl.
  - rewrite (bind_call_Ok _ _ _ _ (Hp eq_refl)).
    unfold bind, getMd, putMd, ret. rewrite Hmd. simpl.
    destruct (Z.eqb_spec token (cur x)) as [->|Hne].
    + rewrite bool_decide_eq_true_2 by done. simpl.
      destruct st; simpl in *; by subst.
    + rewrite (bool_decide_eq_false_2 (token = cur x)) by done. simpl.
      by destruct (bool_decide (token ∈ visited x)).
  - unfold bind, getMd, putMd, ret. by rewrite Hmd.
Qed.

Lemma To_seeded (n : nat) (a : Assigner S) (dst : any) (m : Mem) ptr de :
  Value_Kind (valueOf dst) = Ptr →
  Value_IsNil m (valueOf dst) = Ok false →
  Value_Pointer m (valueOf dst) = Ok ptr →
  Value_Elem m (valueOf dst) = Ok de →
  cycle a = true →
  To ops n a dst m =
    (let '(r, st) :=
       assignRecover ops n a de (mkState m (Some (mkMetadata {[ptr]} 0)))
     in (r, mem st)).
Proof.
  intros Hk Hnil Hp He Hc. unfold To, run. rewrite Hk, Hc.
  rewrite bool_decide_eq_false_2 by (by intros ?).
  rewrite (bind_call_Ok _ _ _ false) by done. simpl.
  unfold bind at 1. unfold bind at 1.
  unfold call at 1. simpl. rewrite Hp. unfold putMd. simpl.
  by rewrite (bind_call_Ok _ _ _ de).
Qed.

End Steps.

(** * The claims *)

(** ** C4: skipped steps *)

Lemma Field_unexported_CanSet `{RT : Runtime} (dv df : Value) (i : Z) t f :
  Value_Type dv = Ok t →
  Value_Field dv i = Ok df →
  rtype_Field t i = Ok f →
  IsExported (Name f) = false →
  Value_CanSet df = false.
Proof.
  intros Ht Hf Htf Hex. destruct dv as [|t' addr ro p]; [done|].
  simpl in Ht. simplify_eq. unfold rtype_Field in Htf. simpl in Hf.
  destruct (resolve t) as [| |fs| | | | | | |]; try done.
  destruct (0 <=? i); [|done].
  destruct (fieldList fs !! Z.to_nat i) as [g|]; [|done].
  simplify_eq. simpl. rewrite Hex. simpl.
  by rewrite orb_true_r, andb_false_r.
Qed.

Lemma goSource_Skip_iff `{RT : Runtime} (m : Mem) (v : Value) :
  Skip goSource m v = Ok true ↔
  Value_IsValid v = false ∨ Value_IsZero m v = Ok true.
Proof.
  destruct v as [|t addr ro p]; simpl.
  - split; [by left | done].
  - split; [by right | by intros [?|?]].
Qed.

(** C4.  A recursive assignment step, at any depth and in any state, whose
    destination is not settable or whose source reports Skip() is a no-op:
    it returns the nil error and leaves the whole state, the heap with the
    destination's current value and the metadata, as it was.  A field that
    is not exported is never settable, and the Skip of the default
    goSource is true exactly for the zero (invalid) Value and for the
    values on which IsZero holds. *)
Theorem assign_skip_is_noop `{RT : Runtime} {S : Type} (ops : Source S)
  (n : nat) (a : Assigner S) (dv : Value) (sv : S) (st : state) :
  (Value_CanSet dv = false ∨ Skip ops (mem st) sv = Ok true →
   assign ops (Datatypes.S n) a dv sv st = (Ret tt, st))
  ∧ (∀ i df t f,
       Value_Type dv = Ok t → Value_Field dv i = Ok df →
       rtype_Field t i = Ok f → IsExported (Name f) = false →
       Value_CanSet df = false)
  ∧ (∀ m v,
       Skip goSource m v = Ok true ↔
       Value_IsValid v = false ∨ Value_IsZero m v = Ok true).
Proof.
  split; [apply assign_skip|]. split.
  - intros i df t f. apply Field_unexported_CanSet.
  - apply goSource_Skip_iff.
Qed.

Lemma assign_skip_is_noop_witness :
  assign (methods noCustom) 3 (fromGo (goInt 0)) intSlot (GoSource (goInt 0))
    (mkState intMem None)
  = (Ret tt, mkState intMem None).
Proof.
  apply (proj1 (assign_skip_is_noop (methods noCustom) 2 (fromGo (goInt 0))
                  intSlot (GoSource (goInt 0)) (mkState intMem None))).
  right. reflexivity.
Defined.

(** ** C2: the cycle check *)

(** C2.  With cycle detection enabled, [visit] does what the specification
    says ([visit_spec]): for a kind without identity it resets the current
    token to 0 and answers false; for a kind with identity (pointer, map,
    slice, chan, func, unsafe pointer) it reads the token, answers false
    without recording when the token is the current one, and otherwise
    makes it current and answers true exactly when it was visited already,
    recording it when it was not.  A step that is not skipped and whose
    check answers true fails with ErrorCycle.  To starts the run with the
    visited set holding the identity of the destination root. *)
Theorem visit_meets_spec `{RT : Runtime} {S : Type} (ops : Source S)
  (a : Assigner S) :
  (∀ v st x k token,
     cycle a = true → md st = Some x →
     Kind ops (mem st) v = Ok k →
     (hasIdentity k = true → Pointer ops (mem st) v = Ok token) →
     visit ops a v st =
       (Ret (visit_spec k token x).1,
        mkState (mem st) (Some (visit_spec k token x).2)))
  ∧ (∀ n dv sv st st' t k,
       Value_CanSet dv = true → Skip ops (mem st) sv = Ok false →
       visit ops a sv st = (Ret true, st') →
       Value_Type dv = Ok t → Kind ops (mem st') sv = Ok k →
       assign ops (Datatypes.S n) a dv sv st = (Err (ErrorCycle t k), st'))
  ∧ (∀ n dst m ptr de,
       Value_Kind (valueOf dst) = Ptr →
       Value_IsNil m (valueOf dst) = Ok false →
       Value_Pointer m (valueOf dst) = Ok ptr →
       Value_Elem m (valueOf dst) = Ok de →
       cycle a = true →
       To ops n a dst m =
         (let '(r, st) :=
            assignRecover ops n a de (mkState m (Some (mkMetadata {[ptr]} 0)))
          in (r, mem st))).
Proof.
  split; [|split].
  - intros. by apply visit_eq_spec.
  - intros. by eapply assign_visit_true.
  - intros. by apply To_seeded.
Qed.

Lemma visit_meets_spec_witness :
  visit (methods noCustom) (fromGo (ptrTo tInt 1)) (GoSource (ptrTo tInt 1))
    (mkState intMem (Some (mkMetadata {[1]} 0)))
  = (Ret true, mkState intMem (Some (mkMetadata {[1]} 1))).
Proof.
  rewrite (proj1 (visit_meets_spec (methods noCustom) (fromGo (ptrTo tInt 1)))
             (GoSource (ptrTo tInt 1))
             (mkState intMem (Some (mkMetadata {[1]} 0)))
             (mkMetadata {[1]} 0) Ptr 1);
    [vm_compute | ..]; reflexivity.
Defined.

(** ** C8: the recover boundary *)

Section Boundary.
Context `{RT : Runtime} {S : Type} (ops : Source S).

(** To on a destination that passes the checks of the root. *)
Lemma To_valid (n : nat) (a : Assigner S) (dst : any) (m : Mem) ptr de :
  Value_Kind (valueOf dst) = Ptr →
  Value_IsNil m (valueOf dst) = Ok false →
  Value_Pointer m (valueOf dst) = Ok ptr →
  Value_Elem m (valueOf dst) = Ok de →
  To ops n a dst m =
    (let '(r, st) :=
       assignRecover ops n a de
         (mkState m (if cycle a then Some (mkMetadata {[ptr]} 0) else None))
     in (r, mem st)).
Proof.
  intros Hk Hnil Hp He.
  destruct (cycle a) eqn:Hc; [by eapply To_seeded|].
  unfold To, run. rewrite Hk, Hc.
  rewrite bool_decide_eq_false_2 by (by intros ?).
  rewrite (bind_call_Ok _ _ _ false) by done. simpl.
  unfold bind at 1. unfold ret at 1.
  by rewrite (bind_call_Ok _ _ _ de).
Qed.

Lemma assignRecover_Panicked (n : nat) (a : Assigner S) (dv : Value) st p st' :
  assign ops n a dv (src a) st = (Panicked p, st') →
  p ≠ PNil →
  assignRecover ops n a dv st = (Err (ErrorPanic p), st').
Proof.
  intros H Hp. unfold assignRecover. rewrite H. by destruct p.
Qed.

Lemma assignRecover_no_panic (n : nat) (a : Assigner S) (dv : Value) st r st' :
  assignRecover ops n a dv st = (r, st') → ∀ p, r ≠ Panicked p.
Proof.
  unfold assignRecover. intros H p ->.
  destruct (assign ops n a dv (src a) st) as [[u|e|q|] s1];
    try destruct q; simplify_eq.
Qed.

End Boundary.

(** C8.  A panic raised anywhere in the recursive traversal is not caught
    by the recursion: no step of [assign] turns it into an error, so
    [assign] never returns an ErrorPanic of its own making and the panic
    travels up to [assignRecover], the one boundary, installed around the
    whole traversal.  There every panic with a payload (every runtime
    fault has one) becomes the error ErrorPanic carrying that payload, no
    panic leaves [assignRecover], and none leaves a To call whose
    destination root passed its checks.  The panicker of the tests, whose
    Pointer panics, yields ErrorPanic with its payload. *)
Theorem panics_become_ErrorPanic `{RT : Runtime} {S : Type} (ops : Source S)
  (a : Assigner S) :
  (∀ n dv sv st r st',
     assign ops n a dv sv st = (r, st') → ∀ p, r ≠ Err (ErrorPanic p))
  ∧ (∀ n dv st p st',
       assign ops n a dv (src a) st = (Panicked p, st') → p ≠ PNil →
       assignRecover ops n a dv st = (Err (ErrorPanic p), st'))
  ∧ (∀ n dv st r st',
       assignRecover ops n a dv st = (r, st') → ∀ p, r ≠ Panicked p)
  ∧ (∀ n dst m ptr de,
       Value_Kind (valueOf dst) = Ptr →
       Value_IsNil m (valueOf dst) = Ok false →
       Value_Pointer m (valueOf dst) = Ok ptr →
       Value_Elem m (valueOf dst) = Ok de →
       ∀ p, (To ops n a dst m).1 ≠ Panicked p)
  ∧ (∀ n, (1 ≤ n)%nat →
       (runPanicker n []).1 = Err (ErrorPanic (PMsg "panicker"))).
Proof.
  split; [|split; [|split; [|split]]].
  - intros n dv sv st r st' H. by destruct (good_assign ops n a dv sv _ _ _ H).
  - intros. by apply assignRecover_Panicked.
  - intros. by eapply assignRecover_no_panic.
  - intros n dst m ptr de Hk Hnil Hp He p.
    rewrite (To_valid ops n a dst m ptr de) by done.
    destruct (assignRecover ops n a de _) as [r st'] eqn:E. simpl.
    by eapply assignRecover_no_panic.
  - intros n Hn.
    assert (runPanicker 1 [] =
            (Err (ErrorPanic (PMsg "panicker")), smallMem)) as H
      by (vm_compute; reflexivity).
    unfold runPanicker, ToFrom in *.
    by rewrite (To_fuel_mono _ _ _ _ _ _ _ _ H).
Qed.

Lemma panics_become_ErrorPanic_witness :
  assignRecover (methods panicker) 2 (From (SrcSource (ptrTo tSmall 1)) [])
    (Val tSmall true false (At 2)) (mkState smallMem (Some (mkMetadata {[2]} 0)))
  = (Err (ErrorPanic (PMsg "panicker")),
     mkState smallMem (Some (mkMetadata {[2]} 0))).
Proof.
  apply (proj1 (proj2 (panics_become_ErrorPanic (methods panicker)
                         (From (SrcSource (ptrTo tSmall 1)) [])))).
  - vm_compute. reflexivity.
  - discriminate.
Defined.

(** ** C10: the visited set *)

Section Visited.
Context `{RT : Runtime} {S : Type} (ops : Source S).

Lemma assign_visited_grows (n : nat) (a : Assigner S) dv sv st r st' x :
  assign ops n a dv sv st = (r, st') →
  md st = Some x →
  ∃ x', md st' = Some x' ∧ visited x ⊆ visited x'.
Proof.
  intros H Hx. destruct (good_assign ops n a dv sv _ _ _ H) as [Hg _].
  by apply Hg.
Qed.

Lemma assign_revisit (n : nat) (a : Assigner S) dv sv st x k p t :
  cycle a = true →
  Value_CanSet dv = true →
  Skip ops (mem st) sv = Ok false →
  Kind ops (mem st) sv = Ok k →
  hasIdentity k = true →
  Pointer ops (mem st) sv = Ok p →
  md st = Some x →
  p ∈ visited x →
  p ≠ cur x →
  Value_Type dv = Ok t →
  assign ops (Datatypes.S n) a dv sv st =
    (Err (ErrorCycle t k), mkState (mem st) (Some (mkMetadata (visited x) p))).
Proof.
  intros Hc Hset Hskip Hk Hid Hp Hmd Hin Hne Ht.
  eapply assign_visit_true; [done..| |done|done].
  rewrite (visit_eq_spec ops a sv st x k p) by done.
  unfold visit_spec. rewrite Hid.
  rewrite bool_decide_eq_false_2 by done.
  by rewrite bool_decide_eq_true_2 by done.
Qed.

End Visited.

(** C10.  During a run the visited set only grows: whatever a call of
    [assign] does and however it ends, every token visited before it is
    still visited after it; nothing is removed when the traversal leaves a
    subtree.  So a source with an identity whose token is in the set and
    is not the current one is reported as a cycle, wherever in the
    traversal it comes.  Two sibling fields pointing to one shared
    variable, [Shared{A: &x, B: &x}], fail with ErrorCycle at the second
    field although the source has no cycle. *)
Theorem visited_only_grows `{RT : Runtime} {S : Type} (ops : Source S)
  (a : Assigner S) :
  (∀ n dv sv st r st' x,
     assign ops n a dv sv st = (r, st') → md st = Some x →
     ∃ x', md st' = Some x' ∧ visited x ⊆ visited x')
  ∧ (∀ n dv sv st x k p t,
       cycle a = true → Value_CanSet dv = true →
       Skip ops (mem st) sv = Ok false →
       Kind ops (mem st) sv = Ok k → hasIdentity k = true →
       Pointer ops (mem st) sv = Ok p →
       md st = Some x → p ∈ visited x → p ≠ cur x →
       Value_Type dv = Ok t →
       assign ops (Datatypes.S n) a dv sv st =
         (Err (ErrorCycle t k),
          mkState (mem st) (Some (mkMetadata (visited x) p))))
  ∧ (∀ n, (4 ≤ n)%nat →
       (runShared n).1 = Err (ErrorCycle (TPtr tInt) Ptr)).
Proof.
  split; [|split].
  - intros. by eapply assign_visited_grows.
  - intros. by apply assign_revisit.
  - intros n Hn.
    destruct (runShared 4) as [r m] eqn:E.
    assert (r = Err (ErrorCycle (TPtr tInt) Ptr)) as ->.
    { by vm_compute in E; simplify_eq. }
    unfold runShared, ToFrom in *.
    by rewrite (To_fuel_mono _ _ _ _ _ _ _ _ E).
Qed.

Lemma visited_only_grows_witness :
  assign (methods noCustom) 1 (fromGo (ptrTo tInt 1)) intSlot
    (GoSource (ptrTo tInt 1)) (mkState intMem (Some (mkMetadata {[1]} 0)))
  = (Err (ErrorCycle tInt Ptr),
     mkState intMem (Some (mkMetadata {[1]} 1))).
Proof.
  rewrite (proj1 (proj2 (visited_only_grows (methods noCustom)
                           (fromGo (ptrTo tInt 1))))
             0%nat intSlot (GoSource (ptrTo tInt 1))
             (mkState intMem (Some (mkMetadata {[1]} 0)))
             (mkMetadata {[1]} 0) Ptr 1 tInt);
    try reflexivity; discriminate.
Defined.

Lemma ToFrom_fuel_mono `{RT : Runtime} {C : Type} (custom : Source (source C))
  (n n' : nat) dst i options m r m' :
  ToFrom custom n dst i options m = (r, m') → r ≠ NoReturn → (n ≤ n')%nat →
  ToFrom custom n' dst i options m = (r, m').
Proof. unfold ToFrom. apply To_fuel_mono. Qed.

(** ** C3: the destination root *)

Section Root.
Context `{RT : Runtime} {S : Type} (ops : Source S).

(** A destination that is a valid Value of another kind than pointer: the
    call fails with the type of the destination and the kind of the
    source, the heap untouched. *)
Lemma To_not_pointer (n : nat) (a : Assigner S) (dst : any) (m : Mem) t sk :
  Value_Type (valueOf dst) = Ok t →
  Value_Kind (valueOf dst) ≠ Ptr →
  Kind ops m (src a) = Ok sk →
  To ops n a dst m = (Err (ErrorType (Some t) sk), m).
Proof.
  intros Ht Hk Hs. unfold To, run.
  rewrite bool_decide_eq_true_2 by done.
  rewrite (bind_call_Ok _ _ _ t) by done.
  by rewrite (bind_call_Ok _ _ _ sk).
Qed.

(** A destination that is a nil pointer: the call fails with the nil type
    and the kind of the source, the heap untouched. *)
Lemma To_nil_pointer (n : nat) (a : Assigner S) (dst : any) (m : Mem) sk :
  Value_Kind (valueOf dst) = Ptr →
  Value_IsNil m (valueOf dst) = Ok true →
  Kind ops m (src a) = Ok sk →
  To ops n a dst m = (Err (ErrorType None sk), m).
Proof.
  intros Hk Hnil Hs. unfold To, run. rewrite Hk.
  rewrite bool_decide_eq_false_2 by (by intros ?).
  rewrite (bind_call_Ok _ _ _ true) by done.
  by rewrite (bind_call_Ok _ _ _ sk).
Qed.

End Root.

(** C3, where the code departs from it.  A destination argument that is
    the nil interface (or the zero reflect.Value) is not a pointer, yet To
    does not fail with a type-mismatch error: [dv.Type()] panics on the
    zero Value, outside of [assignRecover], and the panic reaches the
    caller.  (For every valid Value that is not a pointer, and for every
    nil pointer, the call does fail with ErrorType before anything is
    touched: [To_not_pointer], [To_nil_pointer].) *)
Theorem To_untyped_nil_panics `{RT : Runtime} {S : Type} (ops : Source S)
  (n : nat) (a : Assigner S) (m : Mem) :
  To ops n a (AnyGo BoxNil) m
    = (Panicked (PMsg "reflect: call of reflect.Value.Type on zero Value"), m)
  ∧ To ops n a (AnyValue ZeroValue) m
    = (Panicked (PMsg "reflect: call of reflect.Value.Type on zero Value"), m).
Proof. split; reflexivity. Qed.

(** ** C6: basic values *)

Scheme rtype_fields_ind := Induction for rtype Sort Prop
  with fields_rtype_ind := Induction for fields Sort Prop.

Lemma rtype_beq_refl (t : rtype) : rtype_beq t t = true.
Proof.
  induction t using rtype_fields_ind
    with (P0 := λ fs, fields_beq fs fs = true); simpl;
    rewrite ?bool_decide_eq_true_2 by done;
    rewrite ?IHt, ?IHt1, ?IHt2, ?IHt0; done.
Qed.

Lemma storeCells_lookup_lt (cs : list cell) (g : gmap Z cell) (a addr : Z) :
  addr < a → storeCells g a cs !! addr = g !! addr.
Proof.
  revert g a. induction cs as [|c cs IH]; intros g a Hlt; simpl; [done|].
  rewrite IH by lia. by rewrite lookup_insert_ne by lia.
Qed.

Lemma storeCells_lookup_ge (cs : list cell) (g : gmap Z cell) (a addr : Z) :
  a + Z.of_nat (length cs) ≤ addr → storeCells g a cs !! addr = g !! addr.
Proof.
  revert g a. induction cs as [|c cs IH]; intros g a Hge; simpl in *; [done|].
  rewrite IH by lia. by rewrite lookup_insert_ne by lia.
Qed.

Lemma storeCells_lookup (cs : list cell) (g : gmap Z cell) (a : Z) (i : nat) c :
  cs !! i = Some c → storeCells g a cs !! (a + Z.of_nat i) = Some c.
Proof.
  revert g a i. induction cs as [|c' cs IH]; intros g a i Hi; [done|].
  destruct i as [|i]; simpl in *.
  - simplify_eq. rewrite storeCells_lookup_lt by lia.
    rewrite Z.add_0_r. by rewrite lookup_insert_eq.
  - replace (a + Z.of_nat (Datatypes.S i)) with ((a + 1) + Z.of_nat i) by lia.
    by apply IH.
Qed.

Lemma load_store (m : Mem) (a : Z) (cs : list cell) :
  load (store m a cs) a (Z.of_nat (length cs)) = Some cs.
Proof.
  unfold load, store. simpl. apply mapM_Some.
  apply Forall2_same_length_lookup. split.
  - by rewrite length_seqZ, Nat2Z.id.
  - intros i x c Hx Hc. apply lookup_seqZ in Hx as [-> _].
    replace (a + (0 + Z.of_nat i)) with (a + Z.of_nat i) by lia.
    by apply storeCells_lookup.
Qed.

Section Basic.
Context `{RT : Runtime} {S : Type} (ops : Source S).

Lemma assignBasic_ok (sb : S) st dt addr ty cs :
  Interface ops (mem st) sb = Ok (Box ty cs) →
  rtype_ConvertibleTo ty dt = true →
  assignBasic ops (Val dt true false (At addr)) sb st =
    (Ret tt,
     mkState (store (mem st) addr (convertCells (mem st) ty dt cs)) (md st)).
Proof.
  intros Hi Hc. unfold assignBasic.
  rewrite (bind_call_Ok _ _ _ _ Hi). simpl.
  rewrite (bind_call_Ok _ _ _ dt) by done.
  rewrite (bind_call_Ok _ _ _ ty) by done.
  rewrite Hc. simpl.
  rewrite (bind_call_Ok _ _ _
             (Val dt false false (Imm (convertCells (mem st) ty dt cs))))
    by done.
  unfold update. simpl. unfold assignTo. by rewrite rtype_beq_refl.
Qed.

Lemma assignBasic_not_convertible (db : Value) (sb : S) st dt ty cs :
  Interface ops (mem st) sb = Ok (Box ty cs) →
  Value_Type db = Ok dt →
  rtype_ConvertibleTo ty dt = false →
  assignBasic ops db sb st = (Err (ErrorType (Some dt) (rtype_Kind ty)), st).
Proof.
  intros Hi Ht Hc. unfold assignBasic.
  rewrite (bind_call_Ok _ _ _ _ Hi). simpl.
  rewrite (bind_call_Ok _ _ _ dt) by done.
  rewrite (bind_call_Ok _ _ _ ty) by done.
  by rewrite Hc.
Qed.

Lemma visit_no_identity (a : Assigner S) (sv : S) st k :
  cycle a = false ∨ is_Some (md st) →
  Kind ops (mem st) sv = Ok k →
  hasIdentity k = false →
  visit ops a sv st = (Ret false, resetCur a st).
Proof.
  intros Hmd Hk Hid. unfold resetCur.
  destruct (cycle a) eqn:Hc; [|by apply visit_off].
  destruct Hmd as [?|[x Hx]]; [done|]. rewrite Hx.
  rewrite (visit_eq_spec ops a sv st x k 0) by (done || by rewrite Hid).
  unfold visit_spec. by rewrite Hid.
Qed.

Lemma mem_resetCur (a : Assigner S) st : mem (resetCur a st) = mem st.
Proof. unfold resetCur. by repeat case_match. Qed.

(** The step for a settable destination of basic kind and a source that
    holds a value: not skipped, without identity, not a pointer or
    interface. *)
Lemma assign_to_basic (n : nat) (a : Assigner S) (db : Value) (sb : S) st k :
  Value_CanSet db = true →
  basicKind (Value_Kind db) = true →
  Skip ops (mem st) sb = Ok false →
  Kind ops (mem st) sb = Ok k →
  hasIdentity k = false →
  inSet k elemSet = false →
  cycle a = false ∨ is_Some (md st) →
  assign ops (Datatypes.S n) a db sb st = assignBasic ops db sb (resetCur a st).
Proof.
  intros Hset Hb Hskip Hk Hid Hel Hmd. simpl. unfold assignStep.
  rewrite Hset. simpl.
  rewrite (bind_call_Ok _ _ _ _ Hskip).
  rewrite (bind_Ret _ _ _ _ _ (visit_no_identity a sb st k Hmd Hk Hid)).
  rewrite (bind_call_Ok _ _ _ k) by (by rewrite mem_resetCur).
  rewrite Hel.
  by destruct (Value_Kind db).
Qed.

End Basic.

(** The step for a settable destination of a basic type and a source
    that holds the boxed value [cs] of type [ty]. *)
Lemma assign_basic_value `{RT : Runtime} {S : Type} (ops : Source S)
  (n : nat) (a : Assigner S) (sb : S) (st : state) (dt : rtype) (addr : Z)
  (k : reflect.Kind) (ty : rtype) (cs : list cell) :
  basicKind (rtype_Kind dt) = true →
  Skip ops (mem st) sb = Ok false →
  Kind ops (mem st) sb = Ok k →
  hasIdentity k = false →
  inSet k elemSet = false →
  cycle a = false ∨ is_Some (md st) →
  Interface ops (mem st) sb = Ok (Box ty cs) →
  let db := Val dt true false (At addr) in
  let v := convertCells (mem st) ty dt cs in
  (rtype_ConvertibleTo ty dt = true →
     assign ops (Datatypes.S n) a db sb st =
       (Ret tt, mkState (store (mem st) addr v) (md (resetCur a st)))
     ∧ (Z.of_nat (length v) = sizeof dt →
        Value_cells (store (mem st) addr v) db = Ok v)
     ∧ (∀ x, x < addr ∨ addr + Z.of_nat (length v) ≤ x →
        cells (store (mem st) addr v) !! x = cells (mem st) !! x))
  ∧ (rtype_ConvertibleTo ty dt = false →
     assign ops (Datatypes.S n) a db sb st =
       (Err (ErrorType (Some dt) (rtype_Kind ty)), resetCur a st)
     ∧ mem (resetCur a st) = mem st).
Proof.
  intros Hb Hskip Hk Hid Hel Hmd Hi db v.
  assert (assign ops (Datatypes.S n) a db sb st
          = assignBasic ops db sb (resetCur a st)) as Hstep
    by (by eapply assign_to_basic).
  split; intros Hc.
  - split; [|split].
    + rewrite Hstep. subst db v.
      rewrite (assignBasic_ok ops sb (resetCur a st) dt addr ty cs)
        by (by rewrite ?mem_resetCur).
      by rewrite mem_resetCur.
    + intros Hlen. subst db. simpl. rewrite <- Hlen. by rewrite load_store.
    + intros x [Hx|Hx]; simpl.
      * by apply storeCells_lookup_lt.
      * by apply storeCells_lookup_ge.
  - split; [|apply mem_resetCur].
    rewrite Hstep.
    by apply (assignBasic_not_convertible ops db sb _ dt ty cs);
      rewrite ?mem_resetCur.
Qed.


Lemma runStringToBool_fuel_mono (n n' : nat) v r m :
  runStringToBool v n = (r, m) → r ≠ NoReturn → (n ≤ n')%nat →
  runStringToBool v n' = (r, m).
Proof. unfold runStringToBool. apply ToFrom_fuel_mono. Qed.

(** The claim C6 fails for a source value that is skipped: the empty
    string is not convertible to bool, yet assigning it to a bool returns
    nil, not a type-mismatch error. *)
Lemma zero_value_is_not_type_checked :
  rtype_ConvertibleTo (TBasic String) (TBasic Bool) = false
  ∧ (runStringToBool EmptyString 3).1 = Ret tt
  ∧ ∀ e, (runStringToBool EmptyString 3).1 ≠ Err e.
Proof.
  split; [done|].
  assert ((runStringToBool EmptyString 3).1 = Ret tt) as H by (by vm_compute).
  split; [done|]. intros e. by rewrite H.
Qed.

(** C6, amended.  A step whose destination is a settable slot of a basic
    type T and whose source is not skipped and holds the boxed value V of
    type [ty] (the source has no identity and is no pointer or
    interface): when [ty] is convertible to T the step returns nil, the
    slot holds V converted to T and nothing else in the heap changed; when
    it is not, the step fails with ErrorType carrying T and the kind of
    [ty], and the heap, the slot included, is as before.  A source that is
    skipped, as the default source is for a zero value, is not looked at:
    the string "x" assigned to a bool fails with ErrorType, the empty
    string returns nil. *)
Theorem assign_basic_converts `{RT : Runtime} {S : Type} (ops : Source S)
  (n : nat) (a : Assigner S) (sb : S) (st : state) (dt : rtype) (addr : Z)
  (k : reflect.Kind) (ty : rtype) (cs : list cell) :
  (basicKind (rtype_Kind dt) = true →
   Skip ops (mem st) sb = Ok false →
   Kind ops (mem st) sb = Ok k →
   hasIdentity k = false →
   inSet k elemSet = false →
   cycle a = false ∨ is_Some (md st) →
   Interface ops (mem st) sb = Ok (Box ty cs) →
   let db := Val dt true false (At addr) in
   let v := convertCells (mem st) ty dt cs in
   (rtype_ConvertibleTo ty dt = true →
      assign ops (Datatypes.S n) a db sb st =
        (Ret tt, mkState (store (mem st) addr v) (md (resetCur a st)))
      ∧ (Z.of_nat (length v) = sizeof dt →
         Value_cells (store (mem st) addr v) db = Ok v)
      ∧ (∀ x, x < addr ∨ addr + Z.of_nat (length v) ≤ x →
         cells (store (mem st) addr v) !! x = cells (mem st) !! x))
   ∧ (rtype_ConvertibleTo ty dt = false →
      assign ops (Datatypes.S n) a db sb st =
        (Err (ErrorType (Some dt) (rtype_Kind ty)), resetCur a st)
      ∧ mem (resetCur a st) = mem st))
  ∧ (∀ n', (3 ≤ n')%nat →
       runStringToBool "x" n'
       = (Err (ErrorType (Some (TBasic Bool)) String),
          mkMem {[1 := CBool false]} ∅ 2)
       ∧ runStringToBool EmptyString n' = (Ret tt, mkMem {[1 := CBool false]} ∅ 2)).
Proof.
  split; [apply assign_basic_value|].
  intros n' Hn.
  split; by apply (runStringToBool_fuel_mono 3); [vm_compute|..].
Qed.

Lemma assign_basic_converts_witness :
  assign (methods noCustom) 1 (fromGo (goInt 7)) intSlot (GoSource (goInt 7))
    (mkState intMem (Some (mkMetadata ∅ 0)))
  = (Ret tt, mkState (store intMem 1 [CInt 7]) (Some (mkMetadata ∅ 0))).
Proof.
  assert (cycle (fromGo (goInt 7)) = false
          ∨ is_Some (md (mkState intMem (Some (mkMetadata ∅ 0))))) as Hmd.
  { right. eexists. reflexivity. }
  exact (proj1 (proj1 (proj1 (assign_basic_converts (methods noCustom) 0
                   (fromGo (goInt 7)) (GoSource (goInt 7))
                   (mkState intMem (Some (mkMetadata ∅ 0))) tInt 1 Int tInt
                   [CInt 7]) eq_refl eq_refl eq_refl eq_refl eq_refl Hmd
                   eq_refl) eq_refl)).
Defined.

(** ** Loops of steps that write single cells *)

Lemma forEach_steps {A} (l : list A) (body : A → M unit)
  (step : A → state → state) (Inv : state → Prop) :
  (∀ x st, x ∈ l → Inv st →
     body x st = (Ret tt, step x st) ∧ Inv (step x st)) →
  ∀ st, Inv st →
    forEach l body st = (Ret tt, foldl (λ s x, step x s) st l)
    ∧ Inv (foldl (λ s x, step x s) st l).
Proof.
  induction l as [|x l IH]; intros Hbody st Hinv; simpl.
  - done.
  - destruct (Hbody x st) as [Hx Hinv']; [by left|done|].
    rewrite (bind_Ret _ _ _ _ _ Hx).
    apply IH; [|done]. intros y st1 Hy. apply Hbody. by right.
Qed.

Lemma stepState_lookup_ne {S} (a : Assigner S) w st (z : Z) :
  (∀ addr c, w = Some (addr, c) → addr ≠ z) →
  cells (mem (stepState a w st)) !! z = cells (mem st) !! z.
Proof.
  intros Hw. destruct w as [[addr c]|]; simpl; [|done].
  rewrite lookup_insert_ne; [done|]. by eapply Hw.
Qed.

Lemma stepState_maps {S} (a : Assigner S) w st :
  maps (mem (stepState a w st)) = maps (mem st).
Proof. by destruct w as [[addr c]|]. Qed.

Lemma foldl_stepState_maps {S A} (a : Assigner S) (w : A → option (Z * cell))
  (l : list A) st :
  maps (mem (foldl (λ s x, stepState a (w x) s) st l)) = maps (mem st).
Proof.
  revert st. induction l as [|x l IH]; intros st; simpl; [done|].
  by rewrite IH, stepState_maps.
Qed.

Lemma foldl_stepState_other {S A} (a : Assigner S) (w : A → option (Z * cell))
  (l : list A) st (z : Z) :
  (∀ x addr c, x ∈ l → w x = Some (addr, c) → addr ≠ z) →
  cells (mem (foldl (λ s x, stepState a (w x) s) st l)) !! z
  = cells (mem st) !! z.
Proof.
  revert st. induction l as [|x l IH]; intros st Hw; simpl; [done|].
  rewrite IH.
  2: { intros y addr c Hy. apply Hw. by right. }
  apply stepState_lookup_ne. intros addr c. apply Hw. by left.
Qed.

Lemma foldl_stepState_written {S A} `{EqDecision A} (a : Assigner S)
  (w : A → option (Z * cell))
  (l : list A) st (x : A) addr c :
  x ∈ l →
  w x = Some (addr, c) →
  (∀ y addr' c', y ∈ l → w y = Some (addr', c') → addr' = addr → y = x) →
  cells (mem (foldl (λ s x, stepState a (w x) s) st l)) !! addr = Some c.
Proof.
  revert st. induction l as [|y l IH]; intros st Hx Hw Hinj; [by inversion Hx|].
  simpl. destruct (decide (x ∈ l)) as [Hin|Hnin].
  - apply IH; [done..|]. intros z ?? Hz. apply Hinj. by right.
  - assert (y = x) as -> by (by inversion Hx).
    rewrite foldl_stepState_other.
    + rewrite Hw. simpl. by rewrite lookup_insert_eq.
    + intros z addr' c' Hz Hwz ->. apply Hnin.
      rewrite <- (Hinj z addr c'); [done|by right|done|done].
Qed.

Section Items.
Context `{RT : Runtime} {S : Type} (ops : Source S).

Lemma okMd_stepState (a : Assigner S) w st :
  cycle a = false ∨ is_Some (md st) →
  cycle a = false ∨ is_Some (md (stepState a w st)).
Proof.
  intros [?|[x Hx]]; [by left|]. right.
  destruct w as [[addr c]|]; simpl; [|by exists x].
  unfold resetCur. rewrite Hx. by destruct (cycle a).
Qed.

(** One iteration: the slot [df] and the source [sf] either give a skipped
    step or a single cell written. *)
Lemma assign_item (n : nat) (a : Assigner S) (df : Value) (sf : S) st
  (w : option (Z * cell)) :
  cycle a = false ∨ is_Some (md st) →
  match w with
  | None => Value_CanSet df = false ∨ Skip ops (mem st) sf = Ok true
  | Some (addr, c) =>
      ∃ dt, df = Val dt true false (At addr)
            ∧ basicKind (rtype_Kind dt) = true
            ∧ sourceGives ops (mem st) sf dt c
  end →
  assign ops (Datatypes.S n) a df sf st = (Ret tt, stepState a w st).
Proof.
  intros Hmd Hw. destruct w as [[addr c]|]; [|by apply assign_skip].
  destruct Hw as (dt & -> & Hb & Hskip & k & ty & cs & Hk & Hid & Hel & Hi & Hc & Hv).
  rewrite (assign_to_basic ops n a _ sf st k) by done.
  rewrite (assignBasic_ok ops sf (resetCur a st) dt addr ty cs)
    by (by rewrite ?mem_resetCur).
  unfold stepState. by rewrite mem_resetCur, Hv.
Qed.

End Items.

(** ** C7: field names *)

Lemma nameOfTags_first (pre post : list string) (key : string) (sf : StructField) :
  Forall (λ k, StructTag_Get (Tag sf) k = EmptyString) pre →
  StructTag_Get (Tag sf) key ≠ EmptyString →
  nameOfTags (pre ++ key :: post) sf = StructTag_Get (Tag sf) key.
Proof.
  intros Hpre Hkey. induction Hpre as [|k pre Hk _ IH]; simpl.
  - by rewrite bool_decide_eq_true_2.
  - rewrite Hk. by rewrite bool_decide_eq_false_2 by (by intros ?).
Qed.

Lemma nameOfTags_none (tgs : list string) (sf : StructField) :
  Forall (λ k, StructTag_Get (Tag sf) k = EmptyString) tgs →
  nameOfTags tgs sf = Name sf.
Proof.
  intros H. induction H as [|k tgs Hk _ IH]; simpl; [done|].
  rewrite Hk. by rewrite bool_decide_eq_false_2 by (by intros ?).
Qed.

Lemma foldl_WithTags {C : Type} (ts : list (list string)) (a : Assigner (source C)) :
  foldl (λ a option, option a) a (WithTags <$> ts)
  = mkAssigner (src a) (tags a ++ concat ts) (cycle a).
Proof.
  revert a. induction ts as [|t ts IH]; intros a; simpl.
  - rewrite app_nil_r. by destruct a.
  - rewrite IH. simpl. by rewrite <- app_assoc.
Qed.

Lemma From_WithTags {C : Type} (i : srcArg C) (ts : list (list string)) :
  tags (From i (WithTags <$> ts)) = "assign"%string :: concat ts.
Proof. unfold From. by rewrite foldl_WithTags. Qed.

Lemma fieldOffset_unit `{RT : Runtime} (fl : list StructField) (i : nat) :
  Forall (λ f, sizeof (Type_ f) = 1) fl →
  (i ≤ length fl)%nat →
  fieldOffset fl i = Z.of_nat i.
Proof.
  unfold fieldOffset. intros H. revert i.
  induction H as [|f fl Hf _ IH]; intros i Hi; simpl in *.
  - by replace i with 0%nat by lia.
  - destruct i as [|i]; simpl; [done|]. rewrite IH by lia. lia.
Qed.

Section StructFields.
Context `{RT : Runtime} {S : Type} (ops : Source S).

Lemma Value_Field_struct (fs : fields) (addr ro : bool) (base i : Z) f :
  0 ≤ i →
  fieldList fs !! Z.to_nat i = Some f →
  Value_Field (Val (TStruct fs) addr ro (At base)) i
  = Ok (Val (Type_ f) addr (ro || negb (IsExported (Name f)))
          (At (base + fieldOffset (fieldList fs) (Z.to_nat i)))).
Proof.
  intros Hi Hf. simpl.
  destruct (Z.leb_spec 0 i); [|lia]. by rewrite Hf.
Qed.

Lemma rtype_Field_struct (fs : fields) (i : Z) f :
  0 ≤ i →
  fieldList fs !! Z.to_nat i = Some f →
  rtype_Field (TStruct fs) i = Ok f.
Proof.
  intros Hi Hf. unfold rtype_Field. simpl.
  destruct (Z.leb_spec 0 i); [|lia]. by rewrite Hf.
Qed.

Lemma assignStruct_fields (n : nat) (a : Assigner S) (fs : fields) (base : Z)
  (ss : S) st (sf : StructField → S) (w : StructField → option cell) :
  Forall (λ f, basicKind (rtype_Kind (Type_ f)) = true ∧ sizeof (Type_ f) = 1)
    (fieldList fs) →
  cycle a = false ∨ is_Some (md st) →
  (∀ m', Kind ops m' ss = Ok Struct) →
  (∀ m' f, f ∈ fieldList fs →
     FieldByName ops m' ss (nameOf a f) = Ok (sf f)) →
  (∀ m' f, f ∈ fieldList fs →
     match w f with
     | None => IsExported (Name f) = false ∨ Skip ops m' (sf f) = Ok true
     | Some c =>
         IsExported (Name f) = true ∧ sourceGives ops m' (sf f) (Type_ f) c
     end) →
  assignStruct ops a (assign ops (Datatypes.S n) a)
    (Val (TStruct fs) true false (At base)) ss st
  = (Ret tt,
     foldl (λ s i, stepState a (fieldWrite (fieldList fs) base w i) s) st
       (seqZ 0 (Z.of_nat (length (fieldList fs))))).
Proof.
  intros Hfl Hmd Hk Hname Hw. unfold assignStruct.
  rewrite (bind_call_Ok _ _ _ (TStruct fs)) by done.
  rewrite (bind_call_Ok _ _ _ Struct) by done.
  rewrite bool_decide_eq_false_2 by (by intros ?).
  rewrite (bind_call_Ok _ _ _ (Z.of_nat (length (fieldList fs)))) by done.
  eapply (forEach_steps _ _
            (λ i s, stepState a (fieldWrite (fieldList fs) base w i) s)
            (λ s, cycle a = false ∨ is_Some (md s))); [|done].
  intros i st1 Hi Hmd1. split; [|by apply okMd_stepState].
  apply elem_of_seqZ in Hi.
  destruct (lookup_lt_is_Some_2 (fieldList fs) (Z.to_nat i)) as [f Hf]; [lia|].
  assert (f ∈ fieldList fs) as Hin by (by eapply list_elem_of_lookup_2).
  rewrite (bind_call_Ok _ _ _ _ (Value_Field_struct fs true false base i f
                                   (proj1 Hi) Hf)).
  rewrite (bind_call_Ok _ _ _ _ (rtype_Field_struct fs i f (proj1 Hi) Hf)).
  rewrite (bind_call_Ok _ _ _ _ (Hname (mem st1) f Hin)).
  apply assign_item; [done|].
  unfold fieldWrite. rewrite Hf.
  specialize (Hw (mem st1) f Hin).
  destruct (w f) as [c|]; simpl.
  - destruct Hw as [Hex Hg]. exists (Type_ f). rewrite Hex. simpl.
    rewrite Forall_forall in Hfl. destruct (Hfl f Hin) as [Hb Hsz].
    split; [|done].
    rewrite fieldOffset_unit.
    + by rewrite Z2Nat.id by lia.
    + eapply Forall_impl; [exact (proj2 (Forall_forall _ _) Hfl)|]. by intros ? [].
    + lia.
  - destruct Hw as [Hex|Hskip]; [left|by right].
    by rewrite Hex.
Qed.

End StructFields.

Lemma runTags_fuel_mono (n n' : nat) options r :
  runTags n options = r → r.1 ≠ NoReturn → (n ≤ n')%nat →
  runTags n' options = r.
Proof.
  unfold runTags, ToFrom. intros H Hr Hle.
  destruct (To (methods noCustom) n _ _ tagsMem) as [o m] eqn:E.
  subst r. simpl in Hr.
  by rewrite (To_fuel_mono _ _ _ _ _ _ _ _ E Hr Hle).
Qed.

Lemma runTags_default (n : nat) :
  (3 ≤ n)%nat →
  runTags n []
  = (Ret tt, [Some (CStr "two"); Some (CStr "one");
              Some (CStr "three"); Some (CStr "four")]).
Proof.
  intros Hn. apply (runTags_fuel_mono 3); [by vm_compute|done|done].
Qed.

Lemma runTags_json (n : nat) :
  (3 ≤ n)%nat →
  runTags n [WithTags ["json"%string]]
  = (Ret tt, [Some (CStr "two"); Some (CStr "one");
              Some (CStr "four"); Some (CStr "three")]).
Proof.
  intros Hn. apply (runTags_fuel_mono 3); [by vm_compute|done|done].
Qed.

(** C7.  The keys are `assign` first and then those of WithTags in the
    order given.  For a destination field the lookup name is the tag value
    of the first configured key that has one (a non-empty [Tag.Get]), and
    the declared name of the field when no key has.  A destination struct
    of basic fields is then populated field by field from
    [FieldByName] of that name: a field that is exported and whose source
    field holds a convertible value receives it, a field that is not
    exported or whose source field is skipped keeps what it held, and
    nothing outside the struct changes.  On the struct Tags of the tests
    the fields are crossed over as its tags say, with and without the key
    `json`. *)
Theorem fields_follow_tags `{RT : Runtime} {S : Type} (ops : Source S)
  (a : Assigner S) :
  (∀ (C : Type) (i : srcArg C) ts,
     tags (From i (WithTags <$> ts)) = "assign"%string :: concat ts)
  ∧ (∀ sf pre key post,
       tags a = pre ++ key :: post →
       Forall (λ k, StructTag_Get (Tag sf) k = EmptyString) pre →
       StructTag_Get (Tag sf) key ≠ EmptyString →
       nameOf a sf = StructTag_Get (Tag sf) key)
  ∧ (∀ sf,
       Forall (λ k, StructTag_Get (Tag sf) k = EmptyString) (tags a) →
       nameOf a sf = Name sf)
  ∧ (∀ n fs base ss st (sf : StructField → S) (w : StructField → option cell),
       Forall (λ f, basicKind (rtype_Kind (Type_ f)) = true
                    ∧ sizeof (Type_ f) = 1) (fieldList fs) →
       cycle a = false ∨ is_Some (md st) →
       (∀ m', Kind ops m' ss = Ok Struct) →
       (∀ m' f, f ∈ fieldList fs →
          FieldByName ops m' ss (nameOf a f) = Ok (sf f)) →
       (∀ m' f, f ∈ fieldList fs →
          match w f with
          | None => IsExported (Name f) = false ∨ Skip ops m' (sf f) = Ok true
          | Some c =>
              IsExported (Name f) = true
              ∧ sourceGives ops m' (sf f) (Type_ f) c
          end) →
       ∃ st',
         assignStruct ops a (assign ops (Datatypes.S n) a)
           (Val (TStruct fs) true false (At base)) ss st = (Ret tt, st')
         ∧ (∀ i f, fieldList fs !! i = Some f →
              cells (mem st') !! (base + Z.of_nat i)
              = match w f with
                | Some c => Some c
                | None => cells (mem st) !! (base + Z.of_nat i)
                end)
         ∧ (∀ z, z < base ∨ base + Z.of_nat (length (fieldList fs)) ≤ z →
              cells (mem st') !! z = cells (mem st) !! z)
         ∧ maps (mem st') = maps (mem st))
  ∧ (∀ n, (3 ≤ n)%nat →
       runTags n []
       = (Ret tt, [Some (CStr "two"); Some (CStr "one");
                   Some (CStr "three"); Some (CStr "four")])
       ∧ runTags n [WithTags ["json"%string]]
         = (Ret tt, [Some (CStr "two"); Some (CStr "one");
                     Some (CStr "four"); Some (CStr "three")])).
Proof.
  split; [|split; [|split; [|split]]].
  - intros. apply From_WithTags.
  - intros sf pre key post Ht Hpre Hkey. unfold nameOf. rewrite Ht.
    by apply nameOfTags_first.
  - intros sf H. by apply nameOfTags_none.
  - intros n fs base ss st sf w Hfl Hmd Hk Hname Hw.
    eexists. split; [by apply (assignStruct_fields ops n a fs base ss st sf w)|].
    split; [|split].
    + intros i f Hf.
      assert (Z.of_nat i ∈ seqZ 0 (Z.of_nat (length (fieldList fs)))) as Hi.
      { apply elem_of_seqZ. apply lookup_lt_Some in Hf. lia. }
      destruct (w f) as [c|] eqn:Hwf.
      * apply (foldl_stepState_written a _ _ st (Z.of_nat i)); [done| |].
        -- unfold fieldWrite. rewrite Nat2Z.id, Hf, Hwf. done.
        -- intros y addr' c' _ Hy Haddr. unfold fieldWrite in Hy.
           destruct (fieldList fs !! Z.to_nat y); [|done].
           destruct (w s); simplify_eq/=. lia.
      * apply foldl_stepState_other. intros x addr c Hx Hwx ->.
        unfold fieldWrite in Hwx.
        destruct (fieldList fs !! Z.to_nat x) as [g|] eqn:Hg; [|done].
        destruct (w g) eqn:Hwg; simplify_eq/=.
        assert (x = Z.of_nat i) as -> by lia.
        rewrite Nat2Z.id in Hg. congruence.
    + intros z Hz. apply foldl_stepState_other. intros x addr c Hx Hwx ->.
      apply elem_of_seqZ in Hx. unfold fieldWrite in Hwx.
      destruct (fieldList fs !! Z.to_nat x); [|done].
      destruct (w s); simplify_eq/=. lia.
    + apply foldl_stepState_maps.
  - intros n Hn. split; [by apply runTags_default | by apply runTags_json].
Qed.

Lemma fields_follow_tags_witness :
  nameOf (From (C := Empty_set) (SrcAny (AnyValue ZeroValue))
            [WithTags ["json"%string]])
    (mkField "BazGoToQux" [("json", "QuxGoToBaz")]%string (TBasic String))
  = "QuxGoToBaz"%string
  ∧ ∃ st',
      assignStruct (methods noCustom)
        (From (SrcAny (AnyValue ZeroValue)) [WithoutCycle])
        (assign (methods noCustom) 1
           (From (SrcAny (AnyValue ZeroValue)) [WithoutCycle]))
        (Val tSmall true false (At 2))
        (GoSource (Val tSmall false false (Imm [CStr "1"])))
        (mkState smallMem None) = (Ret tt, st')
      ∧ cells (mem st') !! 2 = Some (CStr "1").
Proof.
  split.
  - rewrite (proj1 (proj2 (fields_follow_tags (methods noCustom)
                             (From (C := Empty_set) (SrcAny (AnyValue ZeroValue))
                                [WithTags ["json"%string]])))
               _ ["assign"%string] "json"%string []).
    + reflexivity.
    + reflexivity.
    + constructor; [reflexivity | constructor].
    + discriminate.
  - destruct (proj1 (proj2 (proj2 (proj2
                (fields_follow_tags (methods noCustom)
                   (From (C := Empty_set) (SrcAny (AnyValue ZeroValue))
                      [WithoutCycle])))))
                0%nat (FCons "Field" [] (TBasic String) FNil) 2
                (GoSource (Val tSmall false false (Imm [CStr "1"])))
                (mkState smallMem None)
                (λ _, GoSource (Val (TBasic String) false false (Imm [CStr "1"])))
                (λ _, Some (CStr "1")))
      as (st' & Hrun & Hcells & _).
    + constructor; [split; reflexivity | constructor].
    + left. reflexivity.
    + intros m'. reflexivity.
    + intros m' f Hf. apply list_elem_of_singleton in Hf. subst f. reflexivity.
    + intros m' f Hf. apply list_elem_of_singleton in Hf. subst f.
      split; [reflexivity|]. split; [reflexivity|].
      exists String, (TBasic String), [CStr "1"]. repeat split; reflexivity.
    + exists st'. split; [exact Hrun|].
      exact (Hcells 0%nat _ eq_refl).
Defined.

(** ** C5: slices and arrays *)

Section Lists.
Context `{RT : Runtime} {S : Type} (ops : Source S).






End Lists.

Section ListCopy.
Context `{RT : Runtime} {S : Type} (ops : Source S).




End ListCopy.







(** ** C9: what was there before *)

Lemma runOverInt_skipped (prior : Z) (n : nat) :
  (2 ≤ n)%nat → runOverInt prior 0 n = (Ret tt, Some (CInt prior)).
Proof.
  intros Hn. unfold runOverInt.
  rewrite (ToFrom_fuel_mono noCustom 2 n _ _ _ _ (Ret tt)
             (mkMem {[1 := CInt prior]} ∅ 2)); [|by vm_compute|done|done].
  simpl. by rewrite lookup_singleton_eq.
Qed.

Lemma runOverSlice_tail (prior : Z) (n : nat) :
  (3 ≤ n)%nat →
  runOverSlice prior n
  = (Ret tt, [Some (CInt 1); Some (CInt 2); Some (CInt prior)]).
Proof.
  intros Hn. unfold runOverSlice.
  destruct (ToFrom noCustom 3 (AnyGo (Box (TPtr (TSlice tInt)) [CPtr 1]))
              (SrcAny (AnyGo (Box (TArray 2 tInt) [CInt 1; CInt 2]))) []
              (mkMem (list_to_map [(1, CSlice 2 3 3); (2, CInt prior);
                                   (3, CInt prior); (4, CInt prior)]) ∅ 5))
    as [r m] eqn:E.
  assert (r = Ret tt ∧ (λ i, cells m !! i) <$> [2; 3; 4]
                       = [Some (CInt 1); Some (CInt 2); Some (CInt prior)])
    as [-> Hm].
  { vm_compute in E. by simplify_eq. }
  rewrite (ToFrom_fuel_mono noCustom 3 n _ _ _ _ _ _ E) by done.
  by rewrite Hm.
Qed.

Lemma runOverMap_entries (n : nat) :
  (4 ≤ n)%nat →
  runOverMap [([CStr "a"], [CInt 1])] n
  = (Ret tt, Some [([CStr "a"], [CInt 1]); ([CStr "b"], [CInt 2])])
  ∧ runOverMap [] n = (Ret tt, Some [([CStr "b"], [CInt 2])]).
Proof.
  intros Hn. unfold runOverMap. split.
  - match goal with
    | |- (let '(_, _) := ToFrom _ _ ?d ?i ?o ?m in _) = _ =>
        destruct (ToFrom noCustom 4 d i o m) as [r m'] eqn:E
    end.
    assert (r = Ret tt ∧ maps m' !! 2
            = Some [([CStr "a"], [CInt 1]); ([CStr "b"], [CInt 2])]) as [-> Hm].
    { vm_compute in E. by simplify_eq. }
    rewrite (ToFrom_fuel_mono noCustom 4 n _ _ _ _ _ _ E) by done.
    by rewrite Hm.
  - match goal with
    | |- (let '(_, _) := ToFrom _ _ ?d ?i ?o ?m in _) = _ =>
        destruct (ToFrom noCustom 4 d i o m) as [r m'] eqn:E
    end.
    assert (r = Ret tt ∧ maps m' !! 2 = Some [([CStr "b"], [CInt 2])])
      as [-> Hm].
    { vm_compute in E. by simplify_eq. }
    rewrite (ToFrom_fuel_mono noCustom 4 n _ _ _ _ _ _ E) by done.
    by rewrite Hm.
Qed.

(** The claim C9 fails.  From one and the same source, two destinations of
    the same type that held different values end different, each call
    returning nil: an int left as it was by a zero source; a map that
    keeps the entry the source does not have; a slice that keeps its
    tail. *)
Lemma prior_content_survives :
  ((runOverInt 5 0 3).1 = Ret tt ∧ (runOverInt 7 0 3).1 = Ret tt
   ∧ (runOverInt 5 0 3).2 ≠ (runOverInt 7 0 3).2)
  ∧ ((runOverMap [([CStr "a"], [CInt 1])] 4).1 = Ret tt
     ∧ (runOverMap [] 4).1 = Ret tt
     ∧ (runOverMap [([CStr "a"], [CInt 1])] 4).2 ≠ (runOverMap [] 4).2)
  ∧ ((runOverSlice 9 3).1 = Ret tt ∧ (runOverSlice 8 3).1 = Ret tt
     ∧ (runOverSlice 9 3).2 ≠ (runOverSlice 8 3).2).
Proof.
  rewrite !runOverInt_skipped by lia.
  rewrite !runOverSlice_tail by lia.
  destruct (runOverMap_entries 4) as [-> ->]; [lia|].
  simpl. repeat split; discriminate.
Qed.

(** C9, amended.  What a successful assignment overwrites is what the
    source supplies.  A settable destination of a basic type, assigned
    from a source that is not skipped and holds a convertible value, ends
    holding that value converted, whatever it held before: two calls from
    the same source on two heaps leave the same value.  What the source
    does not supply survives: a destination whose source is skipped (a
    zero value) keeps its value, a destination map that is not nil keeps
    the entries under keys the source does not have, and a destination
    slice longer than the source keeps its tail. *)
Theorem overwrite_of_basic_is_total `{RT : Runtime} {S : Type} (ops : Source S)
  (a : Assigner S) :
  (∀ n sb dt addr k ty cs st1 st2 v,
     basicKind (rtype_Kind dt) = true →
     hasIdentity k = false → inSet k elemSet = false →
     rtype_ConvertibleTo ty dt = true →
     Z.of_nat (length v) = sizeof dt →
     (∀ st, st = st1 ∨ st = st2 →
        Skip ops (mem st) sb = Ok false ∧ Kind ops (mem st) sb = Ok k
        ∧ (cycle a = false ∨ is_Some (md st))
        ∧ Interface ops (mem st) sb = Ok (Box ty cs)
        ∧ convertCells (mem st) ty dt cs = v) →
     let db := Val dt true false (At addr) in
     ∃ st1' st2',
       assign ops (Datatypes.S n) a db sb st1 = (Ret tt, st1')
       ∧ assign ops (Datatypes.S n) a db sb st2 = (Ret tt, st2')
       ∧ Value_cells (mem st1') db = Ok v
       ∧ Value_cells (mem st2') db = Ok v)
  ∧ (∀ prior n, (3 ≤ n)%nat →
       runOverInt prior 0 n = (Ret tt, Some (CInt prior))
       ∧ runOverSlice prior n
         = (Ret tt, [Some (CInt 1); Some (CInt 2); Some (CInt prior)]))
  ∧ (∀ n, (4 ≤ n)%nat →
       runOverMap [([CStr "a"], [CInt 1])] n
       = (Ret tt, Some [([CStr "a"], [CInt 1]); ([CStr "b"], [CInt 2])])).
Proof.
  split; [|split].
  - intros n sb dt addr k ty cs st1 st2 v Hb Hid Hel Hc Hlen Hst db.
    destruct (Hst st1 (or_introl eq_refl)) as (Hs1 & Hk1 & Hmd1 & Hi1 & Hv1).
    destruct (Hst st2 (or_intror eq_refl)) as (Hs2 & Hk2 & Hmd2 & Hi2 & Hv2).
    destruct (proj1 (assign_basic_value ops n a sb st1 dt addr k ty cs
                       Hb Hs1 Hk1 Hid Hel Hmd1 Hi1) Hc) as (Hr1 & Hread1 & _).
    destruct (proj1 (assign_basic_value ops n a sb st2 dt addr k ty cs
                       Hb Hs2 Hk2 Hid Hel Hmd2 Hi2) Hc) as (Hr2 & Hread2 & _).
    rewrite Hv1 in *. rewrite Hv2 in *.
    eexists _, _. split; [exact Hr1|]. split; [exact Hr2|].
    split; [by apply Hread1 | by apply Hread2].
  - intros prior n Hn. split.
    + apply runOverInt_skipped. lia.
    + by apply runOverSlice_tail.
  - intros n Hn. by destruct (runOverMap_entries n Hn).
Qed.

Lemma overwrite_of_basic_is_total_witness :
  ∃ st1' st2',
    assign (methods noCustom) 1 (fromGo (goInt 7)) intSlot (GoSource (goInt 7))
      (mkState intMem (Some (mkMetadata ∅ 0))) = (Ret tt, st1')
    ∧ assign (methods noCustom) 1 (fromGo (goInt 7)) intSlot (GoSource (goInt 7))
        (mkState (mkMem {[1 := CInt 9]} ∅ 2) (Some (mkMetadata ∅ 0)))
      = (Ret tt, st2')
    ∧ Value_cells (mem st1') intSlot = Ok [CInt 7]
    ∧ Value_cells (mem st2') intSlot = Ok [CInt 7].
Proof.
  apply (proj1 (overwrite_of_basic_is_total (methods noCustom)
                  (fromGo (goInt 7)))
           0%nat (GoSource (goInt 7)) tInt 1 Int tInt [CInt 7]
           (mkState intMem (Some (mkMetadata ∅ 0)))
           (mkState (mkMem {[1 := CInt 9]} ∅ 2) (Some (mkMetadata ∅ 0)))
           [CInt 7]); try reflexivity.
  intros st [-> | ->];
    (repeat split; try reflexivity; right; eexists; reflexivity).
Defined.

(** ** C1: self-referential sources *)

Lemma bind_NoReturn {A B} (c : M A) (k : A → M B) st :
  (c st).1 = NoReturn → (bind c k st).1 = NoReturn.
Proof. unfold bind. destruct (c st) as [[]?]; simpl; congruence. Qed.

Lemma load_lookup (m : Mem) (a n : Z) (cs : list cell) :
  Z.of_nat (length cs) = n →
  (∀ i c, cs !! i = Some c → cells m !! (a + Z.of_nat i) = Some c) →
  load m a n = Some cs.
Proof.
  intros Hn Hcs. unfold load. apply mapM_Some.
  apply Forall2_same_length_lookup. split.
  - rewrite length_seqZ. lia.
  - intros i x c Hx Hc. apply lookup_seqZ in Hx as [-> _].
    rewrite Z.add_0_l. by apply Hcs.
Qed.

Lemma load_1 (m : Mem) (a : Z) c :
  cells m !! a = Some c → load m a 1 = Some [c].
Proof.
  intros H. apply load_lookup; [done|].
  intros [|i] c' Hc; simplify_eq/=. by rewrite Z.add_0_r.
Qed.

Lemma load_4 (m : Mem) (a : Z) c1 c2 c3 c4 :
  cells m !! a = Some c1 → cells m !! (a + 1) = Some c2 →
  cells m !! (a + 2) = Some c3 → cells m !! (a + 3) = Some c4 →
  load m a 4 = Some [c1; c2; c3; c4].
Proof.
  intros H1 H2 H3 H4. apply load_lookup; [done|].
  intros [|[|[|[|i]]]] c' Hc; simplify_eq/=; try done.
  by rewrite Z.add_0_r.
Qed.

Section NoRet.
Context (a : Assigner (source Empty_set)) (Hc : cycle a = false).
Let ops := methods noCustom.

Lemma cells_struct m af rf :
  cycleVar m →
  ∃ c2 c3 c4, Value_cells m (Val tCycle af rf (At 1)) = Ok [CPtr 1; c2; c3; c4].
Proof.
  intros (H1 & c2 & c3 & c4 & H2 & H3 & H4). exists c2, c3, c4.
  unfold Value_cells. change (sizeof tCycle) with 4.
  by rewrite (load_4 m 1 _ _ _ _ H1 H2 H3 H4).
Qed.

Lemma skip_struct m : cycleVar m → Skip ops m structSrc = Ok false.
Proof.
  intros Hv. destruct (cells_struct m true false Hv) as (c2 & c3 & c4 & Hcs).
  change (Skip ops m structSrc) with (Value_IsZero m (Val tCycle true false (At 1))).
  unfold Value_IsZero. by rewrite Hcs.
Qed.

Lemma step_A n m d p sv :
  cycleVar m →
  (sv = Val tPC false false (Imm [CPtr 1]) ∨ sv = Val tPC true false (At 1)) →
  assign ops (Datatypes.S n) a (Val tPC true false (At p)) (GoSource sv) (mkState m d)
  = assign ops n a (Val tPC true false (At p)) structSrc (mkState m d).
Proof.
  intros Hv Hsv.
  destruct Hv as (H1 & _).
  assert (Value_cells m sv = Ok [CPtr 1]) as Hcs.
  { destruct Hsv as [-> | ->]; [done|].
    unfold Value_cells. change (sizeof tPC) with 1. by rewrite (load_1 m 1 _ H1). }
  assert (∃ af pl, sv = Val tPC af false pl) as (af & pl & ->).
  { destruct Hsv as [-> | ->]; eauto. }
  change (assign ops (Datatypes.S n) a ?dv ?s ?st) with (assignStep ops a (assign ops n a) dv s st).
  unfold assignStep.
  change (Value_CanSet (Val tPC true false (At p))) with true.
  cbn [negb].
  rewrite (bind_call_Ok _ _ _ false).
  2: { change (Value_IsZero m (Val tPC af false pl) = Ok false).
       unfold Value_IsZero. cbn [mem]. by rewrite Hcs. }
  rewrite (bind_Ret _ _ _ _ _ (visit_off ops a _ _ Hc)).
  rewrite (bind_call_Ok _ _ _ Ptr) by done.
  change (inSet Ptr elemSet) with true. cbn iota.
  rewrite (bind_call_Ok _ _ _ structSrc).
  2: { change (rbind (Value_Elem m (Val tPC af false pl)) (λ x, Ok (GoSource x)) = Ok structSrc).
       unfold Value_Elem. change (resolve tPC) with tPC. unfold tPC at 1.
       cbn [mem]. rewrite Hcs. done. }
  done.
Qed.

Lemma grown_lookup_old m p z :
  z < brk m → z ≠ p → cells (grown m p) !! z = cells m !! z.
Proof.
  intros Hz Hp. unfold grown, store, alloc. cbn [cells fst storeCells].
  rewrite lookup_insert_ne by done.
  by rewrite storeCells_lookup_lt.
Qed.

Lemma grown_cycleVar m p : cycleVar m → nilSlot m p → cycleVar (grown m p).
Proof.
  intros (H1 & c2 & c3 & c4 & H2 & H3 & H4) (Hp & Hlt).
  split; [|exists c2, c3, c4]; rewrite !grown_lookup_old by lia; done.
Qed.

Lemma grown_nilSlot m p : nilSlot m p → nilSlot (grown m p) (brk m).
Proof.
  intros (Hp & Hlt). split.
  - unfold grown, store, alloc. cbn [cells fst storeCells].
    rewrite lookup_insert_ne by lia.
    pose proof (storeCells_lookup (zero tCycle) (cells m) (brk m) 0%nat
                  (CPtr 0) eq_refl) as H.
    by rewrite Z.add_0_r in H.
  - unfold grown, store, alloc. cbn [brk fst]. simpl. lia.
Qed.

Lemma step_B n m d p :
  cycleVar m → nilSlot m p →
  assign ops (Datatypes.S n) a (Val tPC true false (At p)) structSrc (mkState m d)
  = assign ops n a (Val tCycle true false (At (brk m))) structSrc
      (mkState (grown m p) d).
Proof.
  intros Hv (Hp & Hlt).
  change (assign ops (Datatypes.S n) a ?dv ?s ?st) with (assignStep ops a (assign ops n a) dv s st).
  unfold assignStep.
  change (Value_CanSet (Val tPC true false (At p))) with true.
  cbn [negb].
  rewrite (bind_call_Ok _ _ _ false) by (by apply skip_struct).
  rewrite (bind_Ret _ _ _ _ _ (visit_off ops a _ _ Hc)).
  rewrite (bind_call_Ok _ _ _ Struct) by done.
  change (inSet Struct elemSet) with false. cbn iota.
  change (Value_Kind (Val tPC true false (At p))) with Ptr. cbn iota.
  unfold assignPointer.
  assert (Value_cells m (Val tPC true false (At p)) = Ok [CPtr 0]) as Hcs.
  { unfold Value_cells. change (sizeof tPC) with 1. by rewrite (load_1 m p _ Hp). }
  rewrite (bind_call_Ok _ _ _ true).
  2: { unfold Value_IsNil. change (Value_Kind (Val tPC true false (At p))) with Ptr.
       cbn iota. cbn [mem]. by rewrite Hcs. }
  cbn iota.
  rewrite (bind_Ret _ _ _ tt (mkState (grown m p) d)).
  2: { rewrite (bind_call_Ok _ _ _ tPC) by done.
       rewrite (bind_call_Ok _ _ _ (TNamed "Cycle")) by done.
       unfold bind, make, update. cbn [mem md].
       unfold New. change (resolve (TNamed "Cycle")) with tCycle.
       destruct (alloc m (zero tCycle)) as [m1 a1] eqn:Ea.
       unfold alloc in Ea. simplify_eq. cbn [mem].
       unfold Value_Set. cbn [Value_cells rbind].
       unfold assignTo. rewrite rtype_beq_refl. done. }
  rewrite (bind_call_Ok _ _ _ (Val tCycle true false (At (brk m)))).
  2: { unfold Value_Elem. change (resolve tPC) with tPC. unfold tPC at 1.
       cbn [mem].
       assert (Value_cells (grown m p) (Val tPC true false (At p))
               = Ok [CPtr (brk m)]) as ->.
       { unfold Value_cells. change (sizeof tPC) with 1.
         rewrite (load_1 _ p (CPtr (brk m))); [done|].
         unfold grown, store. cbn [cells storeCells]. by rewrite lookup_insert_eq. }
       cbn [rbind]. destruct (Z.eqb_spec (brk m) 0); [lia|]. done. }
  done.
Qed.

Lemma step_C n m d q :
  cycleVar m →
  (assign ops n a (Val tPC true false (At (q + 0)))
     (GoSource (Val tPC true false (At 1))) (mkState m d)).1 = NoReturn →
  (assign ops (Datatypes.S n) a (Val tCycle true false (At q)) structSrc (mkState m d)).1
  = NoReturn.
Proof.
  intros Hv Hrec.
  change (assign ops (Datatypes.S n) a ?dv ?s ?st) with (assignStep ops a (assign ops n a) dv s st).
  unfold assignStep.
  change (Value_CanSet (Val tCycle true false (At q))) with true.
  cbn [negb].
  rewrite (bind_call_Ok _ _ _ false) by (by apply skip_struct).
  rewrite (bind_Ret _ _ _ _ _ (visit_off ops a _ _ Hc)).
  rewrite (bind_call_Ok _ _ _ Struct) by done.
  change (inSet Struct elemSet) with false. cbn iota.
  change (Value_Kind (Val tCycle true false (At q))) with Struct. cbn iota.
  unfold assignStruct.
  rewrite (bind_call_Ok _ _ _ tCycle) by done.
  rewrite (bind_call_Ok _ _ _ Struct) by done.
  rewrite bool_decide_eq_false_2 by (by intros ?).
  rewrite (bind_call_Ok _ _ _ 4) by done.
  change (seqZ 0 4) with [0; 1; 2; 3].
  cbn [forEach].
  apply bind_NoReturn.
  rewrite (bind_call_Ok _ _ _ (Val tPC true false (At (q + 0)))) by done.
  rewrite (bind_call_Ok _ _ _
             (mkField "Struct" [] (TPtr (TNamed "Cycle")))) by done.
  assert (nameOf a (mkField "Struct" [] (TPtr (TNamed "Cycle"))) = "Struct"%string)
    as ->.
  { apply nameOfTags_none. by apply Forall_forall. }
  rewrite (bind_call_Ok _ _ _ (GoSource (Val tPC true false (At 1)))) by done.
  exact Hrec.
Qed.

Lemma never_returns n :
  ∀ m d p,
    cycleVar m → nilSlot m p →
    (∀ sv,
       sv = Val tPC false false (Imm [CPtr 1]) ∨ sv = Val tPC true false (At 1) →
       (assign ops n a (Val tPC true false (At p)) (GoSource sv) (mkState m d)).1
       = NoReturn)
    ∧ (assign ops n a (Val tPC true false (At p)) structSrc (mkState m d)).1
      = NoReturn
    ∧ (assign ops n a (Val tCycle true false (At p)) structSrc (mkState m d)).1
      = NoReturn.
Proof.
  induction n as [|n IH]; intros m d p Hv Hp; [done|].
  destruct (IH m d p Hv Hp) as (IHa & IHb & IHc).
  split; [|split].
  - intros sv Hsv. rewrite step_A by done. exact IHb.
  - rewrite step_B by done.
    by apply (IH (grown m p) d (brk m));
      [apply grown_cycleVar | apply grown_nilSlot].
  - apply step_C; [done|].
    rewrite Z.add_0_r. apply IHa. by right.
Qed.

End NoRet.

Lemma runCycle_fuel_mono (n n' : nat) i options r m :
  runCycle n i options = (r, m) → r ≠ NoReturn → (n ≤ n')%nat →
  runCycle n' i options = (r, m).
Proof. unfold runCycle. apply ToFrom_fuel_mono. Qed.

Lemma runPanicker_fuel_mono (n n' : nat) options r m :
  runPanicker n options = (r, m) → r ≠ NoReturn → (n ≤ n')%nat →
  runPanicker n' options = (r, m).
Proof. unfold runPanicker. apply ToFrom_fuel_mono. Qed.

(** With cycle checks disabled, assigning the self-pointing struct of the
    tests has not returned after any number of steps: each round makes a
    new Cycle for the destination and meets the same source again. *)
Lemma runCycle_struct_no_return (n : nat) :
  (runCycle n 0 [WithoutCycle]).1 = NoReturn.
Proof.
  unfold runCycle, ToFrom.
  rewrite (To_valid (methods noCustom) n _ _ cycleMem 8
             (Val tPC true false (At 8))) by (by vm_compute).
  change (cycle (From (SrcAny (AnyValue (fieldOf srcCycle 0))) [WithoutCycle]))
    with false.
  cbn iota. unfold assignRecover.
  change (src (From (SrcAny (AnyValue (fieldOf srcCycle 0))) [WithoutCycle]))
    with (GoSource (C := Empty_set) (Val tPC false false (Imm [CPtr 1]))).
  destruct (never_returns
              (From (SrcAny (AnyValue (fieldOf srcCycle 0))) [WithoutCycle])
              eq_refl n cycleMem None 8) as (Ha & _).
  - split; [done|]. by exists (CPtr 5), (CSlice 6 1 1), (CPtr 7).
  - split; [done|]. by vm_compute.
  - specialize (Ha _ (or_introl eq_refl)).
    destruct (assign _ n _ _ _ _) as [o st]. simpl in Ha. by subst o.
Qed.

(** The claim C1 fails in its second half: with cycle detection disabled
    the struct pointing to itself is not assigned successfully, with any
    fuel. *)
Lemma self_pointing_struct_never_assigned :
  ¬ ∃ n m, runCycle n 0 [WithoutCycle] = (Ret tt, m).
Proof.
  intros (n & m & H).
  pose proof (runCycle_struct_no_return n) as Hn.
  rewrite H in Hn. discriminate.
Qed.

(** C1, amended.  With cycle detection enabled, the self-referential
    values of the tests (a struct pointing to itself, a map containing
    itself as a value, a slice containing a pointer to itself, an array
    containing a pointer to itself) end in ErrorCycle, with any fuel from
    6 on: the recursion returns.  In general a step whose source has an
    identity that was recorded before and is not the current one fails
    with ErrorCycle.  With cycle detection disabled
    the Pointer method of the source is never called: the result of To is
    the same whatever that method does, also when it panics as the
    panicker of the tests does, whose assignment then succeeds.  In that
    mode the map, the slice and the array are assigned successfully (their
    elements are interfaces, which take the self-referential value in one
    basic assignment), but the struct pointing to itself does not return:
    WithoutCycle is for sources that do not have cycles. *)
Theorem cycles_with_and_without_detection `{RT : Runtime} {S : Type}
  (ops : Source S) (a : Assigner S) :
  (∀ n, (6 ≤ n)%nat →
     (runCycle n 0 []).1 = Err (ErrorCycle (TPtr (TNamed "Cycle")) Ptr)
     ∧ (runCycle n 1 []).1 = Err (ErrorCycle TInterface Map)
     ∧ (runCycle n 2 []).1 = Err (ErrorCycle TInterface Slice)
     ∧ (runCycle n 3 []).1 = Err (ErrorCycle TInterface Ptr))
  ∧ (∀ n dv sv st x k p t,
       cycle a = true → Value_CanSet dv = true →
       Skip ops (mem st) sv = Ok false →
       Kind ops (mem st) sv = Ok k → hasIdentity k = true →
       Pointer ops (mem st) sv = Ok p →
       md st = Some x → p ∈ visited x → p ≠ cur x →
       Value_Type dv = Ok t →
       assign ops (Datatypes.S n) a dv sv st =
         (Err (ErrorCycle t k),
          mkState (mem st) (Some (mkMetadata (visited x) p))))
  ∧ (∀ (f : Mem → S → res Z) n dst m,
       cycle a = false →
       To (withPointer ops f) n a dst m = To ops n a dst m)
  ∧ (∀ n, (6 ≤ n)%nat →
       (runCycle n 1 [WithoutCycle]).1 = Ret tt
       ∧ (runCycle n 2 [WithoutCycle]).1 = Ret tt
       ∧ (runCycle n 3 [WithoutCycle]).1 = Ret tt
       ∧ (runPanicker n [WithoutCycle]).1 = Ret tt
       ∧ cells (runPanicker n [WithoutCycle]).2 !! 2 = Some (CStr "1"))
  ∧ (∀ n, (runCycle n 0 [WithoutCycle]).1 = NoReturn).
Proof.
  split; [|split; [|split; [|split]]].
  - intros n Hn. repeat split.
    + destruct (runCycle 6 0 []) as [r m] eqn:E.
      rewrite (runCycle_fuel_mono 6 n _ _ _ _ E); [| |done];
        by vm_compute in E; simplify_eq.
    + destruct (runCycle 6 1 []) as [r m] eqn:E.
      rewrite (runCycle_fuel_mono 6 n _ _ _ _ E); [| |done];
        by vm_compute in E; simplify_eq.
    + destruct (runCycle 6 2 []) as [r m] eqn:E.
      rewrite (runCycle_fuel_mono 6 n _ _ _ _ E); [| |done];
        by vm_compute in E; simplify_eq.
    + destruct (runCycle 6 3 []) as [r m] eqn:E.
      rewrite (runCycle_fuel_mono 6 n _ _ _ _ E); [| |done];
        by vm_compute in E; simplify_eq.
  - intros. by apply assign_revisit.
  - intros f n dst m Hc. by apply To_Pointer_unused.
  - intros n Hn.
    assert (∀ i, (runCycle 6 i [WithoutCycle]).1 = Ret tt →
                 (runCycle n i [WithoutCycle]).1 = Ret tt) as Hmono.
    { intros i Hi. destruct (runCycle 6 i [WithoutCycle]) as [r m] eqn:E.
      simpl in Hi. subst r.
      by rewrite (runCycle_fuel_mono 6 n _ _ _ _ E). }
    split; [by apply Hmono; vm_compute|].
    split; [by apply Hmono; vm_compute|].
    split; [by apply Hmono; vm_compute|].
    destruct (runPanicker 6 [WithoutCycle]) as [r m] eqn:E.
    rewrite (runPanicker_fuel_mono 6 n _ _ _ E); [| |done];
      by vm_compute in E; simplify_eq.
  - apply runCycle_struct_no_return.
Qed.

Lemma cycles_with_and_without_detection_witness :
  To (withPointer (methods noCustom) (λ _ _, Panic (PMsg "panicker"))) 3
    (From (SrcAny (AnyValue (fieldOf srcCycle 1))) [WithoutCycle])
    (AnyValue (Addr (fieldOf dstCycle 1))) cycleMem
  = To (methods noCustom) 3
      (From (SrcAny (AnyValue (fieldOf srcCycle 1))) [WithoutCycle])
      (AnyValue (Addr (fieldOf dstCycle 1))) cycleMem.
Proof.
  apply (proj1 (proj2 (proj2 (cycles_with_and_without_detection
                                (methods noCustom)
                                (From (SrcAny (AnyValue (fieldOf srcCycle 1)))
                                   [WithoutCycle]))))).
  reflexivity.
Defined.

(** *** A pointer that points to itself

    Beside the claims: [type T *T; var p T; p = &p].  The source is a
    pointer whose Elem is a pointer with the same identity, so after the
    first step every check finds the current token and answers false: the
    recursion goes on through Elem without end, cycle detection enabled. *)
Lemma self_pointer_not_detected `{RT : Runtime} {S : Type} (ops : Source S)
  (a : Assigner S) (dv : Value) (sv : S) (p : Z) :
  Value_CanSet dv = true →
  (∀ m, Skip ops m sv = Ok false) →
  (∀ m, Kind ops m sv = Ok Ptr) →
  (∀ m, Elem ops m sv = Ok sv) →
  (∀ m, Pointer ops m sv = Ok p) →
  ∀ n st x, md st = Some x → cur x = p →
    (assign ops n a dv sv st).1 = NoReturn.
Proof.
  intros Hset Hskip Hk He Hp. induction n as [|n IH]; intros st x Hx Hcur; [done|].
  simpl. unfold assignStep. rewrite Hset. simpl.
  rewrite (bind_call_Ok _ _ _ false) by done.
  assert (visit ops a sv st = (Ret false, st)) as Hv.
  { destruct (cycle a) eqn:Hc; [|by apply visit_off].
    rewrite (visit_eq_spec ops a sv st x Ptr p) by done.
    unfold visit_spec. simpl. rewrite bool_decide_eq_true_2 by done.
    simpl. destruct st; simpl in *; by subst. }
  rewrite (bind_Ret _ _ _ _ _ Hv).
  rewrite (bind_call_Ok _ _ _ Ptr) by done.
  change (inSet Ptr elemSet) with true. cbn iota.
  rewrite (bind_call_Ok _ _ _ sv) by done.
  by eapply IH.
Qed.

(** * Further properties *)

(** ** The destination root *)

(** X1.  To checks the destination before anything else: a valid Value
    that is not a pointer is refused with ErrorType carrying its type, a
    nil pointer with ErrorType carrying the nil type, both with the kind
    of the source; the heap is untouched and no fuel is needed. *)
Theorem To_rejects_bad_root `{RT : Runtime} {S : Type} (ops : Source S)
  (n : nat) (a : Assigner S) (dst : any) (m : Mem) (sk : reflect.Kind) :
  Kind ops m (src a) = Ok sk →
  (∀ t, Value_Type (valueOf dst) = Ok t →
        Value_Kind (valueOf dst) ≠ Ptr →
        To ops n a dst m = (Err (ErrorType (Some t) sk), m))
  ∧ (Value_Kind (valueOf dst) = Ptr →
     Value_IsNil m (valueOf dst) = Ok true →
     To ops n a dst m = (Err (ErrorType None sk), m)).
Proof.
  intros Hk. split.
  - intros t Ht Hne. by apply To_not_pointer.
  - intros Hp Hnil. by apply To_nil_pointer.
Qed.

Lemma To_rejects_bad_root_witness :
  To (methods noCustom) 0 (fromGo ZeroValue) (AnyValue intSlot) intMem
  = (Err (ErrorType (Some tInt) Invalid), intMem)
  ∧ To (methods noCustom) 0 (fromGo ZeroValue) (AnyValue (ptrTo tInt 0)) intMem
    = (Err (ErrorType None Invalid), intMem).
Proof.
  split.
  - apply (proj1 (To_rejects_bad_root (methods noCustom) 0 (fromGo ZeroValue)
                    (AnyValue intSlot) intMem Invalid eq_refl));
      [reflexivity | discriminate].
  - apply (proj2 (To_rejects_bad_root (methods noCustom) 0 (fromGo ZeroValue)
                    (AnyValue (ptrTo tInt 0)) intMem Invalid eq_refl));
      reflexivity.
Defined.

(** ** Sources of the wrong kind *)

Lemma visit_mem `{RT : Runtime} {S : Type} (ops : Source S) (a : Assigner S)
  (v : S) st r st' :
  visit ops a v st = (r, st') → mem st' = mem st.
Proof.
  intros H. unfold visit, bind, call, getMd, putMd, ret in H.
  repeat case_match; by simplify_eq.
Qed.

(** X2.  A settable destination of kind struct, map, slice or array whose
    source (not skipped, passed by the cycle check, no pointer or
    interface) is of another kind (for a slice or array: neither slice nor
    array) makes the step fail with ErrorType carrying the type of the
    destination and the kind of the source; nothing is written to the
    heap. *)
Theorem kind_mismatch_is_ErrorType `{RT : Runtime} {S : Type} (ops : Source S)
  (n : nat) (a : Assigner S) (dv : Value) (sv : S) (st st1 : state)
  (dt : rtype) (k : reflect.Kind) :
  Value_CanSet dv = true →
  Value_Type dv = Ok dt →
  Skip ops (mem st) sv = Ok false →
  visit ops a sv st = (Ret false, st1) →
  Kind ops (mem st) sv = Ok k →
  inSet k elemSet = false →
  (Value_Kind dv = Struct ∧ k ≠ Struct)
  ∨ (Value_Kind dv = Map ∧ k ≠ Map)
  ∨ ((Value_Kind dv = Slice ∨ Value_Kind dv = Array) ∧ inSet k listSet = false) →
  assign ops (Datatypes.S n) a dv sv st = (Err (ErrorType (Some dt) k), st1)
  ∧ mem st1 = mem st.
Proof.
  intros Hset Ht Hskip Hv Hk Hel Hkind.
  pose proof (visit_mem ops a sv st _ _ Hv) as Hm.
  split; [|done].
  simpl. unfold assignStep. rewrite Hset. simpl.
  rewrite (bind_call_Ok _ _ _ _ Hskip).
  rewrite (bind_Ret _ _ _ _ _ Hv).
  rewrite (bind_call_Ok _ _ _ k) by (by rewrite Hm).
  rewrite Hel.
  destruct Hkind as [[Hd Hne]|[[Hd Hne]|[[Hd|Hd] Hne]]]; rewrite Hd.
  - unfold assignStruct.
    rewrite (bind_call_Ok _ _ _ dt) by done.
    rewrite (bind_call_Ok _ _ _ k) by (by rewrite Hm).
    by rewrite bool_decide_eq_true_2.
  - unfold assignMap.
    rewrite (bind_call_Ok _ _ _ dt) by done.
    rewrite (bind_call_Ok _ _ _ k) by (by rewrite Hm).
    by rewrite bool_decide_eq_true_2.
  - unfold assignSlice.
    rewrite (bind_call_Ok _ _ _ dt) by done.
    rewrite (bind_call_Ok _ _ _ k) by (by rewrite Hm).
    by rewrite Hne.
  - unfold assignArray.
    rewrite (bind_call_Ok _ _ _ k) by (by rewrite Hm).
    rewrite Hne. simpl.
    by rewrite (bind_call_Ok _ _ _ dt).
Qed.

Lemma kind_mismatch_is_ErrorType_witness :
  assign (methods noCustom) 1 (fromGo (goInt 7))
    (Val tSmall true false (At 2)) (GoSource (goInt 7))
    (mkState smallMem (Some (mkMetadata ∅ 0)))
  = (Err (ErrorType (Some tSmall) Int),
     mkState smallMem (Some (mkMetadata ∅ 0)))
  ∧ mem (mkState smallMem (Some (mkMetadata ∅ 0))) = smallMem.
Proof.
  apply (kind_mismatch_is_ErrorType (methods noCustom) 0 (fromGo (goInt 7))
           (Val tSmall true false (At 2)) (GoSource (goInt 7))
           (mkState smallMem (Some (mkMetadata ∅ 0)))
           (mkState smallMem (Some (mkMetadata ∅ 0))) tSmall Int);
    try reflexivity.
  left. split; [reflexivity | discriminate].
Defined.

(** ** Fields the source does not have *)

Lemma fieldIndex_None (fl : list StructField) (name : string) :
  name ∉ Name <$> fl → fieldIndex fl name = None.
Proof.
  induction fl as [|f fl IH]; simpl; [done|].
  intros Hn. rewrite not_elem_of_cons in Hn. destruct Hn as [Hne Hn].
  rewrite decide_False by done. by rewrite IH.
Qed.

Lemma fieldIndex_Some (fl : list StructField) (name : string) (i : nat) :
  fieldIndex fl name = Some i → ∃ f, fl !! i = Some f ∧ Name f = name.
Proof.
  revert i. induction fl as [|f fl IH]; intros i; simpl; [done|].
  destruct (decide (Name f = name)) as [Heq|Hne].
  - intros [= <-]. by exists f.
  - destruct (fieldIndex fl name) as [j|] eqn:E; simpl; [|done].
    intros [= <-]. simpl. by apply IH.
Qed.

(** X3.  A Go struct source without a field of the name looked up gives
    the zero Value, which goSource skips: the step for the destination
    field returns at once and leaves the state as it is, whatever the
    destination. *)
Theorem missing_field_is_skipped `{RT : Runtime} (fs : fields)
  (fa ro : bool) (p : place) (name : string) (n : nat)
  (a : Assigner Value) (dv : Value) (st : state) :
  name ∉ Name <$> fieldList fs →
  ∃ sf, FieldByName goSource (mem st) (Val (TStruct fs) fa ro p) name = Ok sf
        ∧ Skip goSource (mem st) sf = Ok true
        ∧ assign goSource (S n) a dv sf st = (Ret tt, st).
Proof.
  intros Hn. exists ZeroValue. split; [|split].
  - simpl. by rewrite fieldIndex_None.
  - done.
  - apply assign_skip. by right.
Qed.

Lemma missing_field_is_skipped_witness :
  ∃ sf, FieldByName goSource intMem hidden "B" = Ok sf
        ∧ Skip goSource intMem sf = Ok true
        ∧ assign goSource 1 (mkAssigner hidden ["assign"%string] true)
            intSlot sf (mkState intMem None)
          = (Ret tt, mkState intMem None).
Proof.
  apply (missing_field_is_skipped (FCons "b" [] tInt FNil) false false
           (Imm [CInt 7]) "B" 0 (mkAssigner hidden ["assign"%string] true)
           intSlot (mkState intMem None)).
  simpl. rewrite list_elem_of_singleton. discriminate.
Defined.

(** X8.  A field of a Go struct source that is not exported is read-only
    to reflection: when it is not skipped and the destination is settable
    and of a basic kind, the step panics in goSource.Interface with the
    message of reflect, in the state the cycle check left.  (The same
    field on the destination side is skipped without a word.) *)
Theorem unexported_source_field_panics `{RT : Runtime} (n : nat)
  (a : Assigner Value) (dv : Value) (fs : fields) (fa ro : bool) (p : place)
  (name : string) (sf : Value) (st st1 : state) :
  IsExported name = false →
  FieldByName goSource (mem st) (Val (TStruct fs) fa ro p) name = Ok sf →
  Value_CanSet dv = true →
  basicKind (Value_Kind dv) = true →
  Skip goSource (mem st) sf = Ok false →
  visit goSource a sf st = (Ret false, st1) →
  inSet (Value_Kind sf) elemSet = false →
  assign goSource (S n) a dv sf st
  = (Panicked (PMsg "reflect.Value.Interface: cannot return value obtained from unexported field or method"),
     st1).
Proof.
  intros Hex Hf Hset Hb Hskip Hv Hel.
  pose proof (visit_mem goSource a sf st _ _ Hv) as Hm.
  assert (∃ t fa' p', sf = Val t fa' true p') as (t & fa' & p' & ->).
  { simpl in Hf.
    destruct (fieldIndex (fieldList fs) name) as [i|] eqn:Hi.
    - apply fieldIndex_Some in Hi as (f & Hfi & Hname).
      unfold Value_Field in Hf. simpl in Hf.
      assert ((0 <=? Z.of_nat i) = true) as Hge
        by (apply Z.leb_le; lia).
      rewrite Hge, Nat2Z.id, Hfi in Hf. simplify_eq.
      rewrite Hex. rewrite orb_true_r. by eexists _, _, _.
    - by simplify_eq. }
  simpl. unfold assignStep. rewrite Hset. simpl negb. cbv iota.
  rewrite (bind_call_Ok _ _ _ _ Hskip).
  rewrite (bind_Ret _ _ _ _ _ Hv).
  rewrite (bind_call_Ok _ _ _ (rtype_Kind t)) by done.
  simpl in Hel. rewrite Hel.
  assert (assignBasic goSource dv (Val t fa' true p') st1
          = (Panicked (PMsg "reflect.Value.Interface: cannot return value obtained from unexported field or method"), st1))
    as Hp.
  { unfold assignBasic. by apply bind_call_Panic. }
  by destruct (Value_Kind dv).
Qed.

Lemma unexported_source_field_panics_witness :
  assign goSource 1 (mkAssigner hidden ["assign"%string] false) intSlot
    (Val tInt false true (Imm [CInt 7])) (mkState intMem None)
  = (Panicked (PMsg "reflect.Value.Interface: cannot return value obtained from unexported field or method"),
     mkState intMem None).
Proof.
  apply (unexported_source_field_panics 0
           (mkAssigner hidden ["assign"%string] false) intSlot
           (FCons "b" [] tInt FNil) false false (Imm [CInt 7]) "b");
    reflexivity.
Defined.

(** ** Options *)

Lemma From_calls {C : Type} `{RT : Runtime} (i : srcArg C)
  (cs : list optionCall) :
  From i (optionOf <$> cs)
  = mkAssigner (Of i) ("assign"%string :: keysOf cs)
      (negb (hasWithoutCycle cs)).
Proof.
  unfold From.
  assert (∀ a : Assigner (source C),
            foldl (λ a option, option a) a (optionOf <$> cs)
            = mkAssigner (src a) (tags a ++ keysOf cs)
                (cycle a && negb (hasWithoutCycle cs))) as H.
  { induction cs as [|c cs IH]; intros a; simpl.
    - unfold keysOf. simpl. rewrite app_nil_r, andb_true_r. by destruct a.
    - rewrite IH. destruct c; simpl.
      + unfold keysOf. simpl. by rewrite <- app_assoc.
      + unfold keysOf. simpl. by rewrite andb_false_r. }
  by rewrite H.
Qed.

(** X4.  From applies its options in order on the defaults: whatever
    calls of WithTags and WithoutCycle are given, the Source is that of
    Of, the tag keys are `assign` followed by the keys of the WithTags
    calls in the order given, and the cycle check is on exactly when no
    call is WithoutCycle, wherever it stands. *)
Theorem From_options {C : Type} `{RT : Runtime} (i : srcArg C)
  (cs : list optionCall) :
  src (From i (optionOf <$> cs)) = Of i
  ∧ tags (From i (optionOf <$> cs)) = "assign"%string :: keysOf cs
  ∧ cycle (From i (optionOf <$> cs)) = negb (hasWithoutCycle cs).
Proof. by rewrite From_calls. Qed.

(** ** Without the cycle check *)

Lemma keepsMd_ret {A} (a : A) : keepsMd (ret a).
Proof. intros st r st' H. unfold ret in H. by simplify_eq. Qed.

Lemma keepsMd_noReturn {A} : keepsMd (@noReturn A).
Proof. intros st r st' H. unfold noReturn in H. by simplify_eq. Qed.

Lemma keepsMd_fail_ErrorType {A} dst k : keepsMd (@fail A (newError dst k)).
Proof. intros st r st' H. unfold fail in H. by simplify_eq. Qed.

Lemma keepsMd_call {A} (f : Mem → res A) : keepsMd (call f).
Proof.
  intros st r st' H. unfold call in H.
  by destruct (f (mem st)); simplify_eq.
Qed.

Lemma keepsMd_update (f : Mem → res Mem) : keepsMd (update f).
Proof.
  intros st r st' H. unfold update in H.
  by destruct (f (mem st)); simplify_eq.
Qed.

Lemma keepsMd_make {A} (f : Mem → res (Mem * A)) : keepsMd (make f).
Proof.
  intros st r st' H. unfold make in H.
  by destruct (f (mem st)) as [[m' a]|]; simplify_eq.
Qed.

Lemma keepsMd_bind {A B} (c : M A) (k : A → M B) :
  keepsMd c → (∀ a, keepsMd (k a)) → keepsMd (bind c k).
Proof.
  intros Hc Hk st r st' H. unfold bind in H.
  destruct (c st) as [o s1] eqn:E.
  destruct (Hc _ _ _ E) as [Hg Hn].
  destruct o as [a|e|p|].
  - destruct (Hk a _ _ _ H) as [Hg' Hn']. split; [congruence | done].
  - simplify_eq. split; [done|]. intros t k' Hp. simplify_eq. by eapply Hn.
  - simplify_eq. by split.
  - simplify_eq. by split.
Qed.

Lemma keepsMd_forEach {A} (l : list A) (f : A → M unit) :
  (∀ x, keepsMd (f x)) → keepsMd (forEach l f).
Proof.
  intros Hf. induction l as [|x l IH]; simpl.
  - apply keepsMd_ret.
  - apply keepsMd_bind; [apply Hf | intros _; apply IH].
Qed.

Ltac keepsMd_step :=
  first
    [ apply keepsMd_ret
    | apply keepsMd_call
    | apply keepsMd_update
    | apply keepsMd_make
    | apply keepsMd_fail_ErrorType
    | apply keepsMd_bind; [| intros ?]
    | apply keepsMd_forEach; intros ?
    | match goal with
      | |- keepsMd (if ?b then _ else _) => destruct b
      | |- keepsMd (match ?x with _ => _ end) => destruct x
      end ].

Lemma keepsMd_assign `{RT : Runtime} {S : Type} (ops : Source S)
  (n : nat) (a : Assigner S) :
  cycle a = false → ∀ dv sv, keepsMd (assign ops n a dv sv).
Proof.
  intros Hc. induction n as [|n IH]; intros dv sv; simpl.
  - apply keepsMd_noReturn.
  - unfold assignStep, visit. rewrite Hc. simpl negb. cbv iota.
    apply keepsMd_bind; [repeat keepsMd_step|].
    intros [|]; [apply keepsMd_ret|].
    intros st r st' H. unfold bind at 1 in H. unfold ret at 1 in H.
    revert st r st' H.
    change (keepsMd
      (k <- call (λ m, Kind ops m sv) ;;
       if inSet k elemSet then
         se <- call (λ m, Elem ops m sv) ;; assign ops n a dv se
       else
         match Value_Kind dv with
         | Ptr => assignPointer (assign ops n a) dv sv
         | Struct => assignStruct ops a (assign ops n a) dv sv
         | Map => assignMap ops (assign ops n a) dv sv
         | Slice => assignSlice ops (assign ops n a) dv sv
         | Array => assignArray ops (assign ops n a) dv sv
         | _ => assignBasic ops dv sv
         end)%M).
    unfold assignPointer, assignStruct, assignMap, assignSlice,
      assignArray, assignList, assignBasic.
    repeat first [ apply IH | keepsMd_step ].
Qed.

(** X5.  With the cycle check disabled (WithoutCycle) no step of assign
    reads or writes the metadata: it is left as it was, allocated or nil,
    and no step and no call of To ends in ErrorCycle. *)
Theorem without_cycle_no_ErrorCycle `{RT : Runtime} {S : Type}
  (ops : Source S) (n : nat) (a : Assigner S) :
  cycle a = false →
  (∀ dv sv st r st', assign ops n a dv sv st = (r, st') →
     md st' = md st ∧ ∀ t k, r ≠ Err (ErrorCycle t k))
  ∧ (∀ dst m r m', To ops n a dst m = (r, m') →
       ∀ t k, r ≠ Err (ErrorCycle t k)).
Proof.
  intros Hc. split.
  - intros dv sv st r st' H. by eapply (keepsMd_assign ops n a Hc).
  - intros dst m r m' H. unfold To, run in H. rewrite Hc in H.
    match type of H with
    | (let '(_, _) := ?c _ in _) = _ =>
        assert (keepsMd c) as Hk
    end.
    { repeat first
        [ keepsMd_step
        | intros st0 r0 st0' H0; unfold assignRecover in H0;
          destruct (assign ops n a _ (src a) st0) as [o s1] eqn:E;
          destruct (keepsMd_assign ops n a Hc _ _ _ _ _ E) as [Hg Hn];
          destruct o as [x|e|[|msg]|]; simplify_eq; by split ]. }
    match type of H with
    | (let '(_, _) := ?c ?s in _) = _ => destruct (c s) as [r0 s0] eqn:E
    end.
    simplify_eq. by apply (Hk _ _ _ E).
Qed.

Lemma without_cycle_no_ErrorCycle_witness :
  cycle (From (C := Empty_set) (SrcAny (AnyValue (fieldOf srcCycle 1)))
           [WithoutCycle]) = false
  ∧ ∀ t k, (runCycle 5 1 [WithoutCycle]).1 ≠ Err (ErrorCycle t k).
Proof.
  split; [reflexivity|]. intros t k.
  apply (proj2 (without_cycle_no_ErrorCycle (methods noCustom) 5
                  (From (SrcAny (AnyValue (fieldOf srcCycle 1)))
                     [WithoutCycle]) eq_refl)
           (AnyValue (Addr (fieldOf dstCycle 1))) cycleMem _
           (runCycle 5 1 [WithoutCycle]).2).
  apply surjective_pairing.
Defined.

(** ** What the cycle check takes for a cycle, and what it misses *)

(** X6.  To records the destination pointer as visited before the first
    step.  A source whose root has that very identity (as in
    [ToFrom(&x, &x)]) is therefore refused at the first step with
    ErrorCycle, although no path is cyclical; nothing is written. *)
Theorem To_from_itself_is_ErrorCycle `{RT : Runtime} {S : Type}
  (ops : Source S) (n : nat) (a : Assigner S) (dst : any) (m : Mem)
  (ptr : Z) (de : Value) (t : rtype) (k : reflect.Kind) :
  cycle a = true →
  Value_Kind (valueOf dst) = Ptr →
  Value_Pointer m (valueOf dst) = Ok ptr →
  ptr ≠ 0 →
  Value_Elem m (valueOf dst) = Ok de →
  Value_CanSet de = true →
  Value_Type de = Ok t →
  Skip ops m (src a) = Ok false →
  Kind ops m (src a) = Ok k →
  hasIdentity k = true →
  Pointer ops m (src a) = Ok ptr →
  To ops (Datatypes.S n) a dst m = (Err (ErrorCycle t k), m).
Proof.
  intros Hc Hk Hp Hne He Hset Ht Hskip Hsk Hid Hsp.
  assert (Value_IsNil m (valueOf dst) = Ok false) as Hnil.
  { unfold Value_Pointer in Hp. unfold Value_IsNil. rewrite Hk in *.
    destruct (Value_cells m (valueOf dst)) as [cs|]; simpl in *; [|done].
    destruct cs as [|[] [|]]; simplify_eq.
    by rewrite (proj2 (Z.eqb_neq _ _) Hne). }
  rewrite (To_seeded ops (Datatypes.S n) a dst m ptr de) by done.
  unfold assignRecover.
  rewrite (assign_revisit ops n a de (src a)
             (mkState m (Some (mkMetadata {[ptr]} 0)))
             (mkMetadata {[ptr]} 0) k ptr t); simpl; try done.
  set_solver.
Qed.

Lemma To_from_itself_is_ErrorCycle_witness :
  To (methods noCustom) 1 (fromGo (ptrTo tInt 1)) (AnyValue (ptrTo tInt 1))
    intMem
  = (Err (ErrorCycle tInt Ptr), intMem).
Proof.
  apply (To_from_itself_is_ErrorCycle (methods noCustom) 0
           (fromGo (ptrTo tInt 1)) (AnyValue (ptrTo tInt 1)) intMem 1
           intSlot tInt Ptr); try reflexivity.
  discriminate.
Defined.

(** The step for a pointer source that passes the cycle check unchanged
    goes on with what the pointer points to. *)
Lemma assign_through_pointer `{RT : Runtime} {S : Type} (ops : Source S)
  (n : nat) (a : Assigner S) (dv : Value) (sv se : S) st st1 :
  Value_CanSet dv = true →
  Skip ops (mem st) sv = Ok false →
  visit ops a sv st = (Ret false, st1) →
  Kind ops (mem st) sv = Ok Ptr →
  Elem ops (mem st) sv = Ok se →
  assign ops (Datatypes.S n) a dv sv st = assign ops n a dv se st1.
Proof.
  intros Hset Hskip Hv Hk He.
  pose proof (visit_mem ops a sv st _ _ Hv) as Hm.
  simpl. unfold assignStep. rewrite Hset. simpl.
  rewrite (bind_call_Ok _ _ _ false) by done.
  rewrite (bind_Ret _ _ _ _ _ Hv).
  rewrite (bind_call_Ok _ _ _ Ptr) by (by rewrite Hm).
  change (inSet Ptr elemSet) with true. cbn iota.
  by rewrite (bind_call_Ok _ _ _ se) by (by rewrite Hm).
Qed.



(** ** Pointer destinations *)

Section PointerDestination.
Context `{RT : Runtime} {S : Type} (ops : Source S).

Lemma assignPointer_nil (rec : Value → S → M unit) (e : rtype) (hp : Z)
  (sp : S) st :
  cells (mem st) !! hp = Some (CPtr 0) →
  brk (mem st) ≠ 0 →
  assignPointer rec (Val (TPtr e) true false (At hp)) sp st
  = rec (Val (resolve e) true false (At (brk (mem st)))) sp
      (mkState (store (alloc (mem st) (zero (resolve e))).1 hp
                  [CPtr (brk (mem st))]) (md st)).
Proof.
  intros Hh Hb. unfold assignPointer.
  rewrite (bind_call_Ok _ _ _ true).
  2: { unfold Value_IsNil. simpl. by rewrite (load_1 _ _ _ Hh). }
  unfold bind at 1. unfold bind at 1. unfold call at 1.
  unfold bind at 1. unfold call at 1. simpl.
  unfold bind at 1. unfold make at 1. simpl.
  unfold update. simpl. unfold assignTo. rewrite rtype_beq_refl. simpl.
  rewrite (bind_call_Ok _ _ _ (Val (resolve e) true false (At (brk (mem st)))));
    [done|].
  cbn [mem].
  pose proof (load_store
    {| cells := storeCells (cells (mem st)) (brk (mem st)) (zero (resolve e));
       maps := maps (mem st);
       brk := brk (mem st) + 1 `max` Z.of_nat (length (zero (resolve e))) |}
    hp [CPtr (brk (mem st))]) as Hl.
  change (Z.of_nat (length [CPtr (brk (mem st))])) with 1 in Hl.
  unfold Value_Elem, Value_cells. cbn [resolve sizeof]. rewrite Hl. simpl.
  by destruct (Z.eqb_spec (brk (mem st)) 0).
Qed.

Lemma assignPointer_not_nil (rec : Value → S → M unit) (e : rtype) (hp q : Z)
  (sp : S) st :
  cells (mem st) !! hp = Some (CPtr q) →
  q ≠ 0 →
  assignPointer rec (Val (TPtr e) true false (At hp)) sp st
  = rec (Val (resolve e) true false (At q)) sp st.
Proof.
  intros Hh Hq. unfold assignPointer.
  rewrite (bind_call_Ok _ _ _ false).
  2: { unfold Value_IsNil. simpl. rewrite (load_1 _ _ _ Hh). simpl.
       by destruct (Z.eqb_spec q 0). }
  unfold bind at 1. unfold ret at 1.
  rewrite (bind_call_Ok _ _ _ (Val (resolve e) true false (At q))); [done|].
  simpl. rewrite (load_1 _ _ _ Hh). simpl.
  by destruct (Z.eqb_spec q 0).
Qed.

(** The step for a settable pointer destination and a source that holds
    a value goes to assignPointer in the state the cycle check left. *)
Lemma assign_to_pointer (n : nat) (a : Assigner S) (e : rtype) (hp : Z)
  (sp : S) st k :
  Skip ops (mem st) sp = Ok false →
  Kind ops (mem st) sp = Ok k →
  hasIdentity k = false →
  inSet k elemSet = false →
  cycle a = false ∨ is_Some (md st) →
  assign ops (Datatypes.S n) a (Val (TPtr e) true false (At hp)) sp st
  = assignPointer (assign ops n a) (Val (TPtr e) true false (At hp)) sp
      (resetCur a st).
Proof.
  intros Hskip Hk Hid Hel Hmd. simpl. unfold assignStep. simpl.
  rewrite (bind_call_Ok _ _ _ _ Hskip).
  rewrite (bind_Ret _ _ _ _ _ (visit_no_identity ops a sp st k Hmd Hk Hid)).
  rewrite (bind_call_Ok _ _ _ k) by (by rewrite mem_resetCur).
  by rewrite Hel.
Qed.

(** X9.  A settable pointer destination whose pointee type is basic,
    assigned from a source that holds a value.  A nil pointer is made to
    point to a new cell that receives the converted value; every cell
    that was allocated before, the pointer apart, and every map is as
    before.  A pointer that is not nil is left as it is and the converted
    value is written through it, to the cell it points to, which whoever
    shares that cell sees; nothing is allocated. *)
Theorem pointer_destination (n : nat) (a : Assigner S) (e : rtype) (hp : Z)
  (sp : S) (st : state) (c : cell) :
  basicKind (rtype_Kind (resolve e)) = true →
  (∀ m', sourceGives ops m' sp (resolve e) c) →
  cycle a = false ∨ is_Some (md st) →
  0 < hp < brk (mem st) →
  let dp := Val (TPtr e) true false (At hp) in
  (cells (mem st) !! hp = Some (CPtr 0) →
   ∃ st', assign ops (Datatypes.S (Datatypes.S n)) a dp sp st = (Ret tt, st')
     ∧ cells (mem st') !! hp = Some (CPtr (brk (mem st)))
     ∧ cells (mem st') !! brk (mem st) = Some c
     ∧ (∀ z, z < brk (mem st) → z ≠ hp →
          cells (mem st') !! z = cells (mem st) !! z)
     ∧ maps (mem st') = maps (mem st))
  ∧ (∀ q, cells (mem st) !! hp = Some (CPtr q) → q ≠ 0 →
     ∃ st', assign ops (Datatypes.S (Datatypes.S n)) a dp sp st = (Ret tt, st')
       ∧ mem st' = store (mem st) q [c]).
Proof.
  intros Hb Hsrc Hmd Hhp dp.
  assert (cycle a = false ∨ is_Some (md (resetCur a st))) as Hmd1.
  { destruct Hmd as [?|[x Hx]]; [by left|]. right. unfold resetCur.
    rewrite Hx. by destruct (cycle a). }
  destruct (Hsrc (mem st)) as (Hskip & k & ty & cs & Hk & Hid & Hel & _).
  assert (assign ops (Datatypes.S (Datatypes.S n)) a dp sp st
          = assignPointer (assign ops (Datatypes.S n) a) dp sp (resetCur a st))
    as Hstep by (by eapply assign_to_pointer).
  subst dp. split.
  - intros Hnil. rewrite Hstep.
    rewrite assignPointer_nil by (rewrite mem_resetCur; (done || lia)).
    rewrite mem_resetCur.
    rewrite (assign_item ops n a _ sp _ (Some (brk (mem st), c))); [|done|].
    2: { eexists. split; [done|]. split; [done|]. apply Hsrc. }
    eexists. split; [done|]. simpl.
    split; [|split; [|split]].
    + rewrite lookup_insert_ne by lia. by rewrite lookup_insert_eq.
    + by rewrite lookup_insert_eq.
    + intros z Hz Hne. rewrite lookup_insert_ne by lia.
      rewrite lookup_insert_ne by done.
      apply storeCells_lookup_lt. lia.
    + done.
  - intros q Hq Hne. rewrite Hstep.
    rewrite (assignPointer_not_nil _ e hp q) by (by rewrite ?mem_resetCur).
    rewrite (assign_item ops n a _ sp _ (Some (q, c))); [|done|].
    2: { eexists. split; [done|]. split; [done|]. apply Hsrc. }
    eexists. split; [done|]. simpl. by rewrite mem_resetCur.
Qed.
End PointerDestination.

Lemma pointer_destination_witness :
  ∃ st',
    assign goSource 2 (mkAssigner (goInt 7) ["assign"%string] false)
      (Val (TPtr tInt) true false (At 1)) (goInt 7) (mkState nilPtrMem None)
    = (Ret tt, st')
    ∧ cells (mem st') !! 1 = Some (CPtr 2)
    ∧ cells (mem st') !! 2 = Some (CInt 7)
    ∧ (∀ z, z < 2 → z ≠ 1 → cells (mem st') !! z = cells nilPtrMem !! z)
    ∧ maps (mem st') = maps nilPtrMem.
Proof.
  assert (∀ m', sourceGives goSource m' (goInt 7) (resolve tInt) (CInt 7)) as H.
  { intros m'. split; [reflexivity|]. by exists Int, tInt, [CInt 7]. }
  apply (proj1 (pointer_destination goSource 0
                  (mkAssigner (goInt 7) ["assign"%string] false) tInt 1
                  (goInt 7) (mkState nilPtrMem None) (CInt 7) eq_refl H
                  (or_introl eq_refl) (conj eq_refl eq_refl)) eq_refl).
Defined.

(** ** Map destinations *)

Section MapDestination.
Context `{RT : Runtime} {S : Type} (ops : Source S).

Lemma new_elem {B} (t : rtype) (k : Value → M B) st :
  brk (mem st) ≠ 0 →
  (pk <- make (λ m, Ok (New m t)) ;;
   dk <- call (λ m, Value_Elem m pk) ;; k dk)%M st
  = k (Val (resolve t) true false (At (brk (mem st))))
      (mkState (alloc (mem st) (zero (resolve t))).1 (md st)).
Proof.
  intros Hb. unfold bind at 1. unfold make. simpl.
  rewrite (bind_call_Ok _ _ _ (Val (resolve t) true false (At (brk (mem st)))));
    [done|].
  simpl. by destruct (Z.eqb_spec (brk (mem st)) 0).
Qed.

Lemma okMd_resetCur (a : Assigner S) st :
  cycle a = false ∨ is_Some (md st) →
  cycle a = false ∨ is_Some (md (resetCur a st)).
Proof.
  intros [?|[x Hx]]; [by left|]. right. unfold resetCur.
  rewrite Hx. by destruct (cycle a).
Qed.

Lemma assignMap_entry (n : nat) (a : Assigner S) (kt et : rtype) (hm q : Z)
  (zk zv : cell) (kv : S * S) (w : option cell * option cell) es st :
  basicKind (rtype_Kind (resolve kt)) = true →
  sizeof (resolve kt) = 1 → zero (resolve kt) = [zk] →
  basicKind (rtype_Kind (resolve et)) = true →
  sizeof (resolve et) = 1 → zero (resolve et) = [zv] →
  gives ops kv.1 (resolve kt) w.1 →
  gives ops kv.2 (resolve et) w.2 →
  q ≠ 0 →
  cycle a = false ∨ is_Some (md st) →
  cells (mem st) !! hm = Some (CPtr q) →
  0 < hm < brk (mem st) →
  maps (mem st) !! q = Some es →
  ∃ st',
    (pk <- make (λ m, Ok (New m kt)) ;;
     dk <- call (λ m, Value_Elem m pk) ;;
     assign ops (Datatypes.S n) a dk kv.1 ;;;
     pv <- make (λ m, Ok (New m et)) ;;
     dv <- call (λ m, Value_Elem m pv) ;;
     assign ops (Datatypes.S n) a dv kv.2 ;;;
     update (λ m, Value_SetMapIndex m (Val (TMap kt et) true false (At hm)) dk dv))%M st
    = (Ret tt, st')
    ∧ (cycle a = false ∨ is_Some (md st'))
    ∧ cells (mem st') !! hm = Some (CPtr q)
    ∧ brk (mem st) ≤ brk (mem st')
    ∧ maps (mem st') !! q = Some (putEntry es [default zk w.1] [default zv w.2])
    ∧ (∀ z, z < brk (mem st) → cells (mem st') !! z = cells (mem st) !! z)
    ∧ (∀ a', a' ≠ q → maps (mem st') !! a' = maps (mem st) !! a').
Proof.
  intros Hbk Hsk Hzk Hbv Hsv Hzv Hgk Hgv Hq Hmd Hh Hhm Hes.
  destruct w as [wk wv]. simpl in *.
  rewrite new_elem by lia. rewrite Hzk.
  set (b := brk (mem st)).
  set (s1 := mkState (alloc (mem st) [zk]).1 (md st)).
  rewrite (bind_Ret _ _ _ tt
             (stepState a ((λ c, (b, c)) <$> wk) s1)).
  2: { apply assign_item; [done|].
       destruct wk as [c|]; simpl.
       - eexists. split; [done|]. split; [done|]. apply Hgk.
       - right. apply Hgk. }
  set (s2 := stepState a ((λ c, (b, c)) <$> wk) s1).
  assert (brk (mem s2) = b + 1) as Hb2.
  { subst s2 s1. by destruct wk. }
  assert (cycle a = false ∨ is_Some (md s2)) as Hmd2.
  { by apply okMd_stepState. }
  rewrite new_elem by lia. rewrite Hzv, Hb2.
  set (s3 := mkState (alloc (mem s2) [zv]).1 (md s2)).
  rewrite (bind_Ret _ _ _ tt
             (stepState a ((λ c, (b + 1, c)) <$> wv) s3)).
  2: { apply assign_item; [done|].
       destruct wv as [c|]; simpl.
       - eexists. split; [done|]. split; [done|]. apply Hgv.
       - right. apply Hgv. }
  set (s4 := stepState a ((λ c, (b + 1, c)) <$> wv) s3).
  assert (cells (mem s4) !! b = Some (default zk wk)) as Hkc.
  { subst s4 s3 s2 s1. destruct wk, wv; simpl;
      rewrite ?Hb2; simpl;
      repeat first [ rewrite lookup_insert_eq | rewrite lookup_insert_ne by lia ];
      done. }
  assert (cells (mem s4) !! (b + 1) = Some (default zv wv)) as Hvc.
  { subst s4 s3 s2 s1. destruct wk, wv; simpl;
      rewrite ?Hb2; simpl;
      repeat first [ rewrite lookup_insert_eq | rewrite lookup_insert_ne by lia ];
      done. }
  assert (∀ z, z < b → cells (mem s4) !! z = cells (mem st) !! z) as Hfr.
  { intros z Hz. subst s4 s3 s2 s1. destruct wk, wv; simpl;
      rewrite ?Hb2; simpl;
      repeat first [ rewrite lookup_insert_eq | rewrite lookup_insert_ne by lia ];
      done. }
  assert (maps (mem s4) = maps (mem st)) as Hmp.
  { subst s4 s3 s2 s1. by destruct wk, wv. }
  assert (brk (mem s4) = b + 2) as Hb4.
  { subst s4 s3. destruct wv; simpl; rewrite Hb2; lia. }
  assert (cycle a = false ∨ is_Some (md s4)) as Hmd4.
  { by apply okMd_stepState. }
  assert (cells (mem s4) !! hm = Some (CPtr q)) as Hh4.
  { rewrite Hfr by lia. done. }
  clearbody s4. clear s1 s2 s3 Hb2 Hmd2.
  unfold update. simpl. rewrite Hsk, Hsv.
  rewrite (load_1 _ _ _ Hkc), (load_1 _ _ _ Hvc), (load_1 _ _ _ Hh4). simpl.
  unfold assignTo. rewrite !rtype_beq_refl. simpl.
  destruct (Z.eqb_spec q 0) as [|_]; [done|].
  eexists. split; [done|]. simpl.
  rewrite Hmp, Hes. simpl.
  split; [done|]. split; [done|]. split; [lia|].
  split; [by rewrite lookup_insert_eq|].
  split; [done|].
  intros a' Ha. by rewrite lookup_insert_ne.
Qed.

Lemma assignMap_entries (n : nat) (a : Assigner S) (kt et : rtype) (hm q : Z)
  (zk zv : cell) (kvs : list (S * S)) (ws : list (option cell * option cell)) :
  basicKind (rtype_Kind (resolve kt)) = true →
  sizeof (resolve kt) = 1 → zero (resolve kt) = [zk] →
  basicKind (rtype_Kind (resolve et)) = true →
  sizeof (resolve et) = 1 → zero (resolve et) = [zv] →
  Forall2 (λ kv w, gives ops kv.1 (resolve kt) w.1
                   ∧ gives ops kv.2 (resolve et) w.2) kvs ws →
  q ≠ 0 →
  ∀ es st,
  cycle a = false ∨ is_Some (md st) →
  cells (mem st) !! hm = Some (CPtr q) →
  0 < hm < brk (mem st) →
  maps (mem st) !! q = Some es →
  ∃ st',
    forEach kvs (λ kv,
     pk <- make (λ m, Ok (New m kt)) ;;
     dk <- call (λ m, Value_Elem m pk) ;;
     assign ops (Datatypes.S n) a dk kv.1 ;;;
     pv <- make (λ m, Ok (New m et)) ;;
     dv <- call (λ m, Value_Elem m pv) ;;
     assign ops (Datatypes.S n) a dv kv.2 ;;;
     update (λ m, Value_SetMapIndex m (Val (TMap kt et) true false (At hm)) dk dv))%M st
    = (Ret tt, st')
    ∧ cells (mem st') !! hm = Some (CPtr q)
    ∧ maps (mem st') !! q = Some (putAll zk zv es ws)
    ∧ (∀ z, z < brk (mem st) → cells (mem st') !! z = cells (mem st) !! z)
    ∧ (∀ a', a' ≠ q → maps (mem st') !! a' = maps (mem st) !! a').
Proof.
  intros Hbk Hsk Hzk Hbv Hsv Hzv Hall Hq.
  induction Hall as [|kv w kvs ws [Hgk Hgv] _ IH]; intros es st Hmd Hh Hhm Hes.
  - exists st. simpl. by repeat split.
  - destruct (assignMap_entry n a kt et hm q zk zv kv w es st)
      as (s1 & Hrun & Hmd1 & Hh1 & Hb1 & Hes1 & Hfr1 & Hmp1); try done.
    destruct (IH _ s1 Hmd1 Hh1 ltac:(lia) Hes1)
      as (s2 & Hrun2 & Hh2 & Hes2 & Hfr2 & Hmp2).
    exists s2. simpl forEach. rewrite (bind_Ret _ _ _ _ _ Hrun).
    split; [done|]. split; [done|]. split; [done|]. split.
    + intros z Hz. rewrite Hfr2 by lia. by apply Hfr1.
    + intros a' Ha. rewrite Hmp2 by done. by apply Hmp1.
Qed.

Lemma visit_okMd (a : Assigner S) (v : S) st b st' :
  visit ops a v st = (Ret b, st') →
  cycle a = false ∨ is_Some (md st').
Proof.
  intros H. destruct (cycle a) eqn:Hc; [|by left]. right.
  unfold visit, bind, call, getMd, putMd, ret in H. rewrite Hc in H.
  repeat case_match; simplify_eq; simpl; eauto.
Qed.

(** X10.  A settable map destination with keys and elements of basic
    types, assigned from a map source whose entries hold values.  Every
    source entry is set in the destination map in the order of the
    iteration: an entry with an equal key is overwritten, any other entry
    of the destination stays.  A nil destination is first made a new empty
    map, so a source without entries leaves it empty and not nil.  Keys
    and elements are built in fresh cells: no cell allocated before is
    written but the map variable of a nil destination, and no other map
    changes. *)
Theorem map_destination (n : nat) (a : Assigner S) (kt et : rtype) (hm : Z)
  (zk zv : cell) (sm : S) (kvs : list (S * S))
  (ws : list (option cell * option cell)) (st st1 : state) :
  basicKind (rtype_Kind (resolve kt)) = true →
  sizeof (resolve kt) = 1 → zero (resolve kt) = [zk] →
  basicKind (rtype_Kind (resolve et)) = true →
  sizeof (resolve et) = 1 → zero (resolve et) = [zv] →
  Skip ops (mem st) sm = Ok false →
  visit ops a sm st = (Ret false, st1) →
  Kind ops (mem st) sm = Ok Map →
  (∀ m', apart (mem st) m' hm → MapRange ops m' sm = Ok kvs) →
  Forall2 (λ kv w, gives ops kv.1 (resolve kt) w.1
                   ∧ gives ops kv.2 (resolve et) w.2) kvs ws →
  0 < hm < brk (mem st) →
  let dm := Val (TMap kt et) true false (At hm) in
  (∀ L, cells (mem st) !! hm = Some (CPtr 0) →
     Len ops (mem st) sm = Ok L → 0 ≤ L →
     ∃ st', assign ops (Datatypes.S (Datatypes.S n)) a dm sm st = (Ret tt, st')
       ∧ cells (mem st') !! hm = Some (CPtr (brk (mem st)))
       ∧ maps (mem st') !! brk (mem st) = Some (putAll zk zv [] ws)
       ∧ (∀ z, z < brk (mem st) → z ≠ hm →
            cells (mem st') !! z = cells (mem st) !! z)
       ∧ (∀ a', a' ≠ brk (mem st) → maps (mem st') !! a' = maps (mem st) !! a'))
  ∧ (∀ q es, cells (mem st) !! hm = Some (CPtr q) → q ≠ 0 →
     maps (mem st) !! q = Some es →
     ∃ st', assign ops (Datatypes.S (Datatypes.S n)) a dm sm st = (Ret tt, st')
       ∧ maps (mem st') !! q = Some (putAll zk zv es ws)
       ∧ (∀ z, z < brk (mem st) → cells (mem st') !! z = cells (mem st) !! z)
       ∧ (∀ a', a' ≠ q → maps (mem st') !! a' = maps (mem st) !! a')).
Proof.
  intros Hbk Hsk Hzk Hbv Hsv Hzv Hskip Hv Hk Hrange Hall Hhm dm.
  pose proof (visit_mem ops a sm st _ _ Hv) as Hm.
  pose proof (visit_okMd a sm st _ _ Hv) as Hmd1.
  assert (assign ops (Datatypes.S (Datatypes.S n)) a dm sm st
          = assignMap ops (assign ops (Datatypes.S n) a) dm sm st1) as Hstep.
  { change (assign ops (Datatypes.S (Datatypes.S n)) a dm sm)
      with (assignStep ops a (assign ops (Datatypes.S n) a) dm sm).
    unfold assignStep. simpl negb. cbv iota.
    rewrite (bind_call_Ok _ _ _ _ Hskip).
    rewrite (bind_Ret _ _ _ _ _ Hv).
    rewrite (bind_call_Ok _ _ _ Map) by (by rewrite Hm).
    done. }
  subst dm. rewrite Hstep. unfold assignMap.
  rewrite (bind_call_Ok _ _ _ (TMap kt et)) by done.
  rewrite (bind_call_Ok _ _ _ Map) by (by rewrite Hm).
  rewrite bool_decide_eq_false_2 by (by intros ?).
  rewrite (bind_call_Ok _ _ _ kt) by done.
  rewrite (bind_call_Ok _ _ _ et) by done.
  split.
  - intros L Hnil HL HL0.
    rewrite (bind_call_Ok _ _ _ true).
    2: { rewrite Hm. unfold Value_IsNil. simpl. by rewrite (load_1 _ _ _ Hnil). }
    set (b := brk (mem st)).
    set (s2 := mkState (store (mkMem (cells (mem st)) (<[b := []]> (maps (mem st)))
                                 (b + 1)) hm [CPtr b]) (md st1)).
    rewrite (bind_Ret _ _ _ tt s2).
    2: { rewrite (bind_call_Ok _ _ _ L) by (by rewrite Hm).
         unfold bind, make, update, MakeMapWithSize. simpl.
         destruct (Z.ltb_spec L 0); [lia|]. simpl.
         unfold assignTo. rewrite rtype_beq_refl. simpl.
         subst s2 b. by rewrite Hm. }
    rewrite (bind_call_Ok _ _ _ kvs).
    2: { apply Hrange. split.
         - intros z Hz Hne. simpl. by rewrite lookup_insert_ne.
         - intros a' Ha. simpl. rewrite lookup_insert_ne; [done|]. subst b. lia. }
    destruct (assignMap_entries n a kt et hm b zk zv kvs ws Hbk Hsk Hzk Hbv Hsv
                Hzv Hall ltac:(subst b; lia) [] s2)
      as (st' & Hrun & Hh' & Hes' & Hfr & Hmp); try done.
    { simpl. by rewrite lookup_insert_eq. }
    { simpl. subst b. lia. }
    { simpl. by rewrite lookup_insert_eq. }
    exists st'. split; [done|]. split; [done|]. split; [done|]. split.
    + intros z Hz Hne. rewrite Hfr by (simpl; subst b; lia).
      simpl. by rewrite lookup_insert_ne.
    + intros a' Ha. rewrite Hmp by done. simpl. by rewrite lookup_insert_ne.
  - intros q es Hh Hq Hes.
    rewrite (bind_call_Ok _ _ _ false).
    2: { rewrite Hm. unfold Value_IsNil. simpl. rewrite (load_1 _ _ _ Hh).
         simpl. by destruct (Z.eqb_spec q 0). }
    unfold bind at 1. unfold ret at 1.
    rewrite (bind_call_Ok _ _ _ kvs).
    2: { apply Hrange. rewrite Hm. by split. }
    destruct (assignMap_entries n a kt et hm q zk zv kvs ws Hbk Hsk Hzk Hbv Hsv
                Hzv Hall Hq es st1)
      as (st' & Hrun & Hh' & Hes' & Hfr & Hmp);
      [by rewrite ?Hm..|].
    exists st'. rewrite Hm in Hfr, Hmp. done.
Qed.
End MapDestination.

Lemma map_destination_witness :
  ∃ st',
    assign goSource 2 (mkAssigner srcMapB ["assign"%string] false)
      (Val tMapSI true false (At 1)) srcMapB (mkState nilMapMem None)
    = (Ret tt, st')
    ∧ cells (mem st') !! 1 = Some (CPtr 3)
    ∧ maps (mem st') !! 3 = Some [([CStr "b"], [CInt 2])]
    ∧ (∀ z, z < 3 → z ≠ 1 → cells (mem st') !! z = cells nilMapMem !! z)
    ∧ (∀ a', a' ≠ 3 → maps (mem st') !! a' = maps nilMapMem !! a').
Proof.
  assert (∀ m', apart nilMapMem m' 1 →
            MapRange goSource m' srcMapB
            = Ok [(Val (TBasic String) false false (Imm [CStr "b"]),
                   Val tInt false false (Imm [CInt 2]))]) as Hrange.
  { intros m' [_ Hm]. simpl. by rewrite (Hm 2 eq_refl). }
  assert (Forall2 (λ (kv : Value * Value) (w : option cell * option cell),
                     gives goSource kv.1 (resolve (TBasic String)) w.1
                     ∧ gives goSource kv.2 (resolve tInt) w.2)
            [(Val (TBasic String) false false (Imm [CStr "b"]),
              Val tInt false false (Imm [CInt 2]))]
            [(Some (CStr "b"), Some (CInt 2))]) as Hall.
  { constructor; [|constructor].
    split; simpl; intros m'; (split; [reflexivity|]).
    - by exists String, (TBasic String), [CStr "b"].
    - by exists Int, tInt, [CInt 2]. }
  apply (proj1 (map_destination goSource 0
                  (mkAssigner srcMapB ["assign"%string] false)
                  (TBasic String) tInt 1 (CStr EmptyString) (CInt 0) srcMapB
                  _ _ (mkState nilMapMem None) (mkState nilMapMem None)
                  eq_refl eq_refl eq_refl eq_refl eq_refl eq_refl
                  eq_refl eq_refl eq_refl Hrange Hall (conj eq_refl eq_refl))
           1 eq_refl eq_refl).
  discriminate.
Defined.

(** ** The first error ends a loop *)



Section FirstError.
Context `{RT : Runtime} {S : Type} (ops : Source S).

End FirstError.


(** ** ToFrom on values of basic types *)

(** X12.  [ToFrom(&x, v)] for a variable [x] of a basic type and a Go
    value [v] passed by value that is no pointer, interface, map, slice,
    channel or function, with any options, from the first unit of fuel on:
    a zero [v] leaves [x] and returns nil; a [v] whose type converts to
    that of [x] is stored converted in [x] and nothing else changes; any
    other [v] gives ErrorType with the type of [x] and the kind of [v],
    the heap untouched. *)
Theorem ToFrom_go_value `{RT : Runtime} {C : Type} (custom : Source (source C))
  (n : nat) (ocs : list optionCall) (dt : rtype) (p : Z) (ty : rtype)
  (cs : list cell) (m : Mem) :
  p ≠ 0 →
  basicKind (rtype_Kind (resolve dt)) = true →
  hasIdentity (rtype_Kind ty) = false →
  inSet (rtype_Kind ty) elemSet = false →
  ToFrom custom (S n) (AnyGo (Box (TPtr dt) [CPtr p]))
    (SrcAny (AnyGo (Box ty cs))) (optionOf <$> ocs) m
  = if forallb cellIsZero cs then (Ret tt, m)
    else if rtype_ConvertibleTo ty (resolve dt)
         then (Ret tt, store m p (convertCells m ty (resolve dt) cs))
         else (Err (ErrorType (Some (resolve dt)) (rtype_Kind ty)), m).
Proof.
  intros Hp Hb Hid Hel. unfold ToFrom. rewrite From_calls.
  set (a := mkAssigner _ _ _).
  rewrite (To_valid (methods custom) (S n) a _ m p
             (Val (resolve dt) true false (At p))).
  2-5: try done.
  2: { unfold Value_IsNil. simpl. by rewrite (proj2 (Z.eqb_neq _ _) Hp). }
  2: { unfold Value_Elem. simpl. by rewrite (proj2 (Z.eqb_neq _ _) Hp). }
  set (st0 := mkState m _).
  assert (cycle a = false ∨ is_Some (md st0)) as Hmd.
  { subst st0. destruct (cycle a); [right|left]; eauto. }
  unfold assignRecover.
  change (src a) with (GoSource (C := C) (Val ty false false (Imm cs))).
  destruct (forallb cellIsZero cs) eqn:Hz.
  - rewrite assign_skip; [done|]. right. simpl. by rewrite Hz.
  - assert (Interface (methods custom) (mem st0)
              (GoSource (Val ty false false (Imm cs))) = Ok (Box ty cs)) as Hi.
    { simpl. unfold rtype_Kind in Hel.
      by destruct (resolve ty), cs as [|[] [|]]. }
    destruct (assign_basic_value (methods custom) n a
                (GoSource (Val ty false false (Imm cs))) st0 (resolve dt) p
                (rtype_Kind ty) ty cs Hb) as [Hyes Hno]; try done.
    { simpl. by rewrite Hz. }
    destruct (rtype_ConvertibleTo ty (resolve dt)) eqn:Hc.
    + destruct (Hyes eq_refl) as (-> & _). done.
    + destruct (Hno eq_refl) as (-> & Hm). by rewrite Hm.
Qed.

Lemma ToFrom_go_value_witness :
  ToFrom noCustom 1 (AnyGo (Box (TPtr tInt) [CPtr 1]))
    (SrcAny (AnyGo (Box tInt [CInt 7]))) [] intMem
  = (Ret tt, store intMem 1 [CInt 7]).
Proof.
  exact (ToFrom_go_value noCustom 0 [] tInt 1 tInt [CInt 7] intMem
           ltac:(discriminate) eq_refl eq_refl eq_refl).
Defined.

(** X13.  A pointer in the source is followed: [ToFrom(&x, &v)] for
    variables [x] and [v] of basic types, [v] apart from [x], does to [x]
    what [ToFrom(&x, v)] does, with the cycle check as without it: a zero
    [v] leaves [x], a [v] that converts is stored converted, any other
    gives ErrorType with the type of [x] and the kind of [v]. *)
Theorem ToFrom_pointer_to_value `{RT : Runtime} {C : Type}
  (custom : Source (source C)) (n : nat) (ocs : list optionCall)
  (dt : rtype) (p : Z) (ty : rtype) (q : Z) (cs : list cell) (m : Mem) :
  p ≠ 0 →
  q ≠ 0 →
  q ≠ p →
  load m q (sizeof (resolve ty)) = Some cs →
  basicKind (rtype_Kind (resolve dt)) = true →
  hasIdentity (rtype_Kind (resolve ty)) = false →
  inSet (rtype_Kind (resolve ty)) elemSet = false →
  ToFrom custom (S (S n)) (AnyGo (Box (TPtr dt) [CPtr p]))
    (SrcAny (AnyGo (Box (TPtr ty) [CPtr q]))) (optionOf <$> ocs) m
  = if forallb cellIsZero cs then (Ret tt, m)
    else if rtype_ConvertibleTo (resolve ty) (resolve dt)
         then (Ret tt, store m p (convertCells m (resolve ty) (resolve dt) cs))
         else (Err (ErrorType (Some (resolve dt)) (rtype_Kind (resolve ty))), m).
Proof.
  intros Hp Hq Hqp Hload Hb Hid Hel. unfold ToFrom. rewrite From_calls.
  set (a := mkAssigner _ _ _).
  rewrite (To_valid (methods custom) (S (S n)) a _ m p
             (Val (resolve dt) true false (At p))).
  2-5: try done.
  2: { unfold Value_IsNil. simpl. by rewrite (proj2 (Z.eqb_neq _ _) Hp). }
  2: { unfold Value_Elem. simpl. by rewrite (proj2 (Z.eqb_neq _ _) Hp). }
  set (st0 := mkState m _).
  set (sp := GoSource (C := C) (Val (TPtr ty) false false (Imm [CPtr q]))).
  set (se := GoSource (C := C) (Val (resolve ty) true false (At q))).
  assert (∃ st1, visit (methods custom) a sp st0 = (Ret false, st1)
                 ∧ mem st1 = m
                 ∧ (cycle a = false ∨ is_Some (md st1))) as (st1 & Hv & Hm1 & Hmd1).
  { destruct (cycle a) eqn:Hc.
    - eexists. split; [|split].
      + subst st0.
        rewrite (visit_eq_spec (methods custom) a sp _
                   (mkMetadata {[p]} 0) Ptr q) by done.
        unfold visit_spec. simpl.
        rewrite bool_decide_eq_false_2 by done.
        rewrite bool_decide_eq_false_2 by set_solver.
        done.
      + done.
      + right. simpl. eauto.
    - exists st0. split; [by apply visit_off|]. split; [done|by left]. }
  unfold assignRecover.
  change (src a) with sp.
  rewrite (assign_through_pointer (methods custom) (S n) a _ sp se st0 st1);
    try done.
  2: { simpl. by rewrite (proj2 (Z.eqb_neq _ _) Hq). }
  2: { simpl. by rewrite (proj2 (Z.eqb_neq _ _) Hq). }
  assert (Skip (methods custom) (mem st1) se = Ok (forallb cellIsZero cs)) as Hsk.
  { simpl. rewrite Hm1. by rewrite Hload. }
  destruct (forallb cellIsZero cs) eqn:Hz.
  - rewrite assign_skip by (by right). by rewrite Hm1.
  - assert (Interface (methods custom) (mem st1) se
            = Ok (Box (resolve ty) cs)) as Hi.
    { simpl. rewrite Hm1, Hload. simpl. unfold rtype_Kind in Hel.
      destruct (resolve (resolve ty)) eqn:E; try done. }
    destruct (assign_basic_value (methods custom) n a se st1 (resolve dt) p
                (rtype_Kind (resolve ty)) (resolve ty) cs Hb) as [Hyes Hno];
      try done.
    destruct (rtype_ConvertibleTo (resolve ty) (resolve dt)) eqn:Hc.
    + destruct (Hyes eq_refl) as (-> & _). by rewrite Hm1.
    + destruct (Hno eq_refl) as (-> & Hm). by rewrite Hm, Hm1.
Qed.

Lemma ToFrom_pointer_to_value_witness :
  ToFrom noCustom 2 (AnyGo (Box (TPtr tInt) [CPtr 1]))
    (SrcAny (AnyGo (Box (TPtr tInt) [CPtr 2]))) [] twoIntMem
  = (Ret tt, store twoIntMem 1 [CInt 7]).
Proof.
  exact (ToFrom_pointer_to_value noCustom 0 [] tInt 1 tInt 2 [CInt 7]
           twoIntMem ltac:(discriminate) ltac:(discriminate)
           ltac:(discriminate) eq_refl eq_refl eq_refl eq_refl).
Defined.
